(** * advanced-vector: a shallow embedding of [RawMemory<T>] and [Vector<T>]

    The development follows [src/advanced-vector/vector.h].

    - Sizes, capacities and indices ([size_t]) are natural numbers; a block of
      2^63 elements cannot be allocated, so no sum or product that the source
      takes of the size of a vector wraps.  The product [n * sizeof(T)] in
      [Allocate] is not taken to wrap either: for a number [n] that the
      caller of [Reserve], [Resize] or [Vector(n)] chooses, a statement
      below holds of the calls whose product does not wrap.  A difference
      that the source takes without a test or an [assert] before it is a
      [size_t_sub]: below zero it wraps to a number that no block has as an
      index, which is undefined behaviour at its first use.
    - A [RawMemory] owns its storage exclusively, so the cells it points to are
      kept with the handle: [storage] lists the cells of the block, a cell
      being [None] (raw, uninitialised) or [Some x] (a live object [x]).
      [buffer_] stays the address of the block, and iterators ([T*]) are
      addresses counted in elements.
    - A [T&&] argument is a reference: to an object that is no element of
      the vector, or to an element of the vector the member function is
      called on, as in [v.PushBack(std::move(v[0]))].  The move constructor
      then changes that element, in the block it is in when the constructor
      runs.  The copy constructor and the constructors from other arguments
      leave the objects that their arguments refer to as they are.
    - The element type is a template parameter: its constructors, assignments
      and destructor, the two type traits the source queries, and the host's
      [operator new]/[operator delete] form the class [Element].  They may
      read and change a [World] of their own, so that "the third copy throws"
      is an instance like any other.
    - A member function is a computation [M X A] over the objects [X] it can
      change.  It returns normally ([Ret]), leaves by an exception ([Throw],
      with the objects as they are when the exception reaches the caller), or
      has undefined behaviour ([Undef]: a failed [assert], a read of raw
      memory, an access outside the block).
    - Every call of an element operation or of the allocator is recorded in
      [trace]. *)

From Stdlib Require Import String.
From stdpp Require Import base list gmap.

Set Default Proof Using "Type".
Open Scope nat_scope.

(** ** The element type and the host *)

Class Element (T : Type) : Type := {
  (** argument packs accepted by the other constructors of [T] *)
  Args : Type;
  (** whatever the operations below depend on and change *)
  World : Type;
  (** [std::is_nothrow_move_constructible_v<T>] *)
  is_nothrow_move_constructible : bool;
  (** [std::is_copy_constructible_v<T>] *)
  is_copy_constructible : bool;
  (** [T()]; [None]: the constructor throws *)
  default_ctor : World -> World * option T;
  (** [T(args...)] *)
  args_ctor : Args -> World -> World * option T;
  (** [T(const T&)] *)
  copy_ctor : T -> World -> World * option T;
  (** [T(T&&)]: the source after the call, and the new object unless the
      constructor throws *)
  move_ctor : T -> World -> World * (T * option T);
  (** [dst = src]: the target after the call, and [false] if it throws *)
  copy_assign : T -> T -> World -> World * (T * bool);
  (** [dst = std::move(src)]: target and source after the call *)
  move_assign : T -> T -> World -> World * (T * T * bool);
  (** [~T()], which never throws *)
  dtor : T -> World -> World;
  (** [operator new(n * sizeof(T))] for [n <> 0]: the address of the block,
      or [None] for [std::bad_alloc] *)
  operator_new : nat -> World -> World * option nat;
  (** [operator delete(p)] *)
  operator_delete : nat -> World -> World
}.

Inductive Event : Type :=
| EvNew (n : nat)
| EvDelete (p : nat)
| EvDefaultCtor
| EvArgsCtor
| EvCopyCtor
| EvMoveCtor
| EvCopyAssign
| EvMoveAssign
| EvDtor.

Record Env {T : Type} `{Element T} : Type := mkEnv {
  world : World;
  trace : list Event
}.

Inductive outcome {T : Type} `{Element T} (X A : Type) : Type :=
| Ret (a : A) (e : Env) (x : X)
| Throw (e : Env) (x : X)
| Undef.

Arguments Ret {T _ X A} a e x.
Arguments Throw {T _ X A} e x.
Arguments Undef {T _ X A}.

Record Lens (X Y : Type) : Type := mkLens {
  view : X -> Y;
  update : Y -> X -> X
}.
Arguments mkLens {X Y} view update.
Arguments view {X Y} l x.
Arguments update {X Y} l y x.

Section Monad.
Context {T : Type} `{Element T}.

Definition M (X A : Type) : Type := Env -> X -> outcome X A.

Definition ret {X A} (a : A) : M X A := fun e x => Ret a e x.

Definition bind {X A B} (m : M X A) (k : A -> M X B) : M X B :=
  fun e x =>
    match m e x with
    | Ret a e' x' => k a e' x'
    | Throw e' x' => Throw e' x'
    | Undef => Undef
    end.

Definition throw {X A} : M X A := fun e x => Throw e x.

Definition undef {X A} : M X A := fun _ _ => Undef.

Definition get {X} : M X X := fun e x => Ret x e x.

Definition put {X} (x : X) : M X unit := fun e _ => Ret tt e x.

(** [assert(b)] *)
Definition assert {X} (b : bool) : M X unit :=
  if b then ret tt else undef.

(** [a - b] on [size_t] where the source does not guard it: below zero the
    difference wraps to a number that is no index and no count of any block *)
Definition size_t_sub {X} (a b : nat) : M X nat :=
  if b <=? a then ret (a - b) else undef.

(** [try { m } catch (...) { h; throw; }] *)
Definition on_throw {X A} (m : M X A) (h : M X unit) : M X A :=
  fun e x =>
    match m e x with
    | Throw e' x' =>
        match h e' x' with
        | Ret _ e'' x'' => Throw e'' x''
        | Throw e'' x'' => Throw e'' x''
        | Undef => Undef
        end
    | r => r
    end.

(** run a computation on a part of the objects in scope *)
Definition zoom {X Y A} (l : Lens X Y) (m : M Y A) : M X A :=
  fun e x =>
    match m e (view l x) with
    | Ret a e' y => Ret a e' (update l y x)
    | Throw e' y => Throw e' (update l y x)
    | Undef => Undef
    end.

(** a block with a local object [init]; its destructor [fini] runs when the
    block is left, normally or by an exception.  A destructor does not throw;
    [None] is undefined behaviour inside it. *)
Definition scope {X L A} (init : L) (fini : L -> Env -> option Env)
    (body : M (X * L) A) : M X A :=
  fun e x =>
    match body e (x, init) with
    | Ret a e' (x', l) =>
        match fini l e' with Some e'' => Ret a e'' x' | None => Undef end
    | Throw e' (x', l) =>
        match fini l e' with Some e'' => Throw e'' x' | None => Undef end
    | Undef => Undef
    end.
End Monad.

Notation "'let*' x ':=' m 'in' k" := (bind m (fun x => k))
  (at level 10, x pattern, m at level 100, k at level 200).
Notation "m '>>' k" := (bind m (fun _ => k))
  (at level 65, right associativity).

Definition fst_lens {A B} : Lens (A * B) A :=
  mkLens fst (fun a p => (a, snd p)).
Definition snd_lens {A B} : Lens (A * B) B :=
  mkLens snd (fun b p => (fst p, b)).
Definition compose_lens {X Y Z} (l : Lens X Y) (k : Lens Y Z) : Lens X Z :=
  mkLens (fun x => view k (view l x))
         (fun z x => update l (update k z (view l x)) x).
Definition pair_lens {X Y Z} (l : Lens X Y) (k : Lens X Z) : Lens X (Y * Z) :=
  mkLens (fun x => (view l x, view k x))
         (fun p x => update k (snd p) (update l (fst p) x)).

(** ** Calls of the element operations and of the allocator *)

Section Container.
Context {T : Type} `{Element T}.

Definition log (ev : Event) (w : World) (e : Env) : Env :=
  {| world := w; trace := trace e ++ [ev] |}.

(** a call whose result is [None] when it throws *)
Definition call {X A} (ev : Event) (f : World -> World * option A) : M X A :=
  fun e x =>
    let r := f (world e) in
    match r.2 with
    | Some y => Ret y (log ev r.1 e) x
    | None => Throw (log ev r.1 e) x
    end.

(** a call that reports its operands and whether it threw *)
Definition call_total {X A} (ev : Event) (f : World -> World * A) : M X A :=
  fun e x => let r := f (world e) in Ret r.2 (log ev r.1 e) x.

Definition call_default_ctor {X} : M X T := call EvDefaultCtor default_ctor.
Definition call_args_ctor {X} (a : Args) : M X T := call EvArgsCtor (args_ctor a).
Definition call_copy_ctor {X} (src : T) : M X T := call EvCopyCtor (copy_ctor src).
Definition call_move_ctor {X} (src : T) : M X (T * option T) :=
  call_total EvMoveCtor (move_ctor src).
Definition call_copy_assign {X} (dst src : T) : M X (T * bool) :=
  call_total EvCopyAssign (copy_assign dst src).
Definition call_move_assign {X} (dst src : T) : M X (T * T * bool) :=
  call_total EvMoveAssign (move_assign dst src).

(** [x.~T()] *)
Definition destroy (x : T) (e : Env) : Env := log EvDtor (dtor x (world e)) e.
Definition call_dtor {X} (x : T) : M X unit := fun e st => Ret tt (destroy x e) st.

(** what a [T&&] argument refers to: an object [x] outside the vector (a
    temporary, a variable of the caller), or the element in cell [k] of the
    vector the member function is called on *)
Inductive Rvalue : Type :=
| Outside (x : T)
| Inside (k : nat).

(** what a constructor call [T(std::forward<Args>(args)...)] of the [Emplace]
    family resolves to: the copy constructor for a [const T&], the move
    constructor for a [T&&], another constructor otherwise.  A [const T&] is
    read once, before any element is changed, so that the object it refers
    to is given by its value. *)
Inductive Ctor : Type :=
| FromArgs (a : Args)
| CopyOf (x : T)
| MoveOf (value : Rvalue).

(** ** Blocks of cells *)

Abbreviation block := (list (option T)).

(** the cell exists: the address is inside the block *)
Definition cell_ok (i : nat) : M block unit :=
  fun e b => if i <? length b then Ret tt e b else Undef.

(** read the live object of cell [i] *)
Definition load (i : nat) : M block T :=
  fun e b => match b !! i with Some (Some x) => Ret x e b | _ => Undef end.

(** read the live object of cell [i] of a block that is only read *)
Definition peek {X} (src : block) (i : nat) : M X T :=
  fun e x => match src !! i with Some (Some v) => Ret v e x | _ => Undef end.

(** cell [i] holds [x] from now on *)
Definition store (i : nat) (x : T) : M block unit :=
  cell_ok i >> fun e b => Ret tt e (<[i := Some x]> b).

(** cell [i] is raw memory again *)
Definition release (i : nat) : M block unit :=
  cell_ok i >> fun e b => Ret tt e (<[i := None]> b).

(** [T(std::move(value))], run on the cells of the vector: what the move
    constructor leaves of the object it moves from, and the new object unless
    it throws.  An element of the vector is changed where it is. *)
Definition move_from (value : Rvalue) : M block (T * option T) :=
  match value with
  | Outside x => call_move_ctor x
  | Inside k =>
      let* x := load k in
      let* r := call_move_ctor x in
      store k r.1 >> ret r
  end.

(** [T(std::forward<Args>(args)...)], run on the cells of the vector *)
Definition construct (c : Ctor) : M block T :=
  match c with
  | FromArgs a => call_args_ctor a
  | CopyOf x => call_copy_ctor x
  | MoveOf value =>
      let* r := move_from value in
      match r.2 with Some y => ret y | None => throw end
  end.

(** [new (p) T(...)] with [p] the address of cell [i] of the block of the
    vector *)
Definition construct_at (i : nat) (c : Ctor) : M block unit :=
  cell_ok i >> let* y := construct c in store i y.

(** [new (p) T(...)] with [p] the address of cell [i] of the second block,
    the elements of the vector being in the first *)
Definition construct_across (i : nat) (c : Ctor) : M (block * block) unit :=
  zoom snd_lens (cell_ok i) >>
  let* y := zoom fst_lens (construct c) in
  zoom snd_lens (store i y).

(** [new (to) T(std::move(x))] for the object [x] at [from]: [from] is in the
    first block, [to] in the second *)
Definition move_construct_across (from to : nat) : M (block * block) unit :=
  zoom snd_lens (cell_ok to) >>
  let* x := zoom fst_lens (load from) in
  let* r := call_move_ctor x in
  zoom fst_lens (store from r.1) >>
  match r.2 with
  | Some y => zoom snd_lens (store to y)
  | None => throw
  end.

(** [new (to) T(std::move(x))] for the object [x] at [from], inside one block *)
Definition move_construct_within (from to : nat) : M block unit :=
  cell_ok to >>
  let* x := load from in
  let* r := call_move_ctor x in
  store from r.1 >>
  match r.2 with
  | Some y => store to y
  | None => throw
  end.

(** [d = std::move(s)] for the objects [d] at [dst] and [s] at [src] of one
    block *)
Definition move_assign_at (dst src : nat) : M block unit :=
  let* d := load dst in
  let* s := load src in
  let* r := call_move_assign d s in
  store src r.1.2 >> store dst r.1.1 >>
  if r.2 then ret tt else throw.

(** [d = std::move(temp)] for the object [d] at [dst] and a local [temp] *)
Definition move_assign_from_local (dst : nat) : M (block * T) unit :=
  let* d := zoom fst_lens (load dst) in
  let* s := zoom snd_lens get in
  let* r := call_move_assign d s in
  zoom snd_lens (put r.1.2) >> zoom fst_lens (store dst r.1.1) >>
  if r.2 then ret tt else throw.

(** [d = s] by copy assignment, for the object [d] at [dst] and an object [s]
    that is only read *)
Definition copy_assign_at (dst : nat) (s : T) : M block unit :=
  let* d := load dst in
  let* r := call_copy_assign d s in
  store dst r.1 >>
  if r.2 then ret tt else throw.

(** ** The algorithms of [<memory>] and [<algorithm>] the source calls *)

(** [std::destroy_at(p)] *)
Definition destroy_at (i : nat) : M block unit :=
  let* x := load i in call_dtor x >> release i.

(** [std::destroy_n(first, n)] *)
Fixpoint destroy_n (first n : nat) : M block unit :=
  match n with
  | 0 => ret tt
  | S n' => destroy_at first >> destroy_n (S first) n'
  end.

(** [std::uninitialized_value_construct_n(first, n)]: when a constructor
    throws, the objects already constructed are destroyed *)
Fixpoint uninitialized_value_construct_n (first n : nat) : M block unit :=
  match n with
  | 0 => ret tt
  | S n' =>
      (cell_ok first >> let* y := call_default_ctor in store first y) >>
      on_throw (uninitialized_value_construct_n (S first) n') (destroy_at first)
  end.

(** [std::uninitialized_copy_n(first, n, d_first)], the source range in the
    block [src], which is only read *)
Fixpoint uninitialized_copy_n (src : block) (first n d_first : nat) : M block unit :=
  match n with
  | 0 => ret tt
  | S n' =>
      (cell_ok d_first >>
       let* x := peek src first in
       let* y := call_copy_ctor x in
       store d_first y) >>
      on_throw (uninitialized_copy_n src (S first) n' (S d_first))
               (destroy_at d_first)
  end.

(** [std::uninitialized_move_n(first, n, d_first)], from the first block to
    the second *)
Fixpoint uninitialized_move_n (first n d_first : nat) : M (block * block) unit :=
  match n with
  | 0 => ret tt
  | S n' =>
      move_construct_across first d_first >>
      on_throw (uninitialized_move_n (S first) n' (S d_first))
               (zoom snd_lens (destroy_at d_first))
  end.

(** [std::move(first, first + n, d_first)] inside one block *)
Fixpoint move_range (first n d_first : nat) : M block unit :=
  match n with
  | 0 => ret tt
  | S n' => move_assign_at d_first first >> move_range (S first) n' (S d_first)
  end.

(** [std::move_backward(last - n, last, d_last)] inside one block: [n] times
    [--d_last], [--last] and the assignment *)
Fixpoint move_backward (last n d_last : nat) : M block unit :=
  match n with
  | 0 => ret tt
  | S n' =>
      move_assign_at (d_last - 1) (last - 1) >>
      move_backward (last - 1) n' (d_last - 1)
  end.


(** ** [RawMemory<T>] *)

Record RawMemory : Type := mkRawMemory {
  (** [T* buffer_], [0] for [nullptr] *)
  buffer_ : nat;
  capacity_ : nat;
  (** the cells of the block at [buffer_] *)
  storage : block
}.

Definition storage_lens : Lens RawMemory block :=
  mkLens storage (fun b r => mkRawMemory (buffer_ r) (capacity_ r) b).

(** [Allocate(n)]: [n != 0 ? operator new(n * sizeof(T)) : nullptr] *)
Definition Allocate {X} (n : nat) : M X nat :=
  if n =? 0 then ret 0 else call (EvNew n) (operator_new n).

(** [Deallocate(buf)] *)
Definition Deallocate (buf : nat) (e : Env) : Env :=
  log (EvDelete buf) (operator_delete buf (world e)) e.

(** [RawMemory() = default] *)
Definition RawMemory_default : RawMemory := mkRawMemory 0 0 [].

(** [RawMemory(size_t capacity)] *)
Definition RawMemory_new {X} (capacity : nat) : M X RawMemory :=
  let* p := Allocate capacity in
  ret (mkRawMemory p capacity (replicate capacity None)).

(** [~RawMemory()] *)
Definition RawMemory_dtor (r : RawMemory) (e : Env) : option Env :=
  Some (Deallocate (buffer_ r) e).

(** [operator+(offset)]: the cell the pointer [buffer_ + offset] designates *)
Definition RawMemory_plus {X} (r : RawMemory) (offset : nat) : M X nat :=
  assert (offset <=? capacity_ r) >> ret offset.

(** [operator[](index)]: the cell of the reference [buffer_[index]] *)
Definition RawMemory_index {X} (r : RawMemory) (index : nat) : M X nat :=
  assert (index <? capacity_ r) >> ret index.

(** [Swap(other)] on [(this, other)] *)
Definition RawMemory_Swap : M (RawMemory * RawMemory) unit :=
  fun e x =>
    Ret tt e
      (mkRawMemory (buffer_ x.2) (capacity_ x.2) (storage x.2),
       mkRawMemory (buffer_ x.1) (capacity_ x.1) (storage x.1)).

(** [GetAddress()] *)
Definition GetAddress (r : RawMemory) : nat := buffer_ r.

(** [Init(std::move(other))] on [(this, other)]: the old block is given back
    as it is, no object in it is destroyed *)
Definition Init : M (RawMemory * RawMemory) unit :=
  fun e x =>
    Ret tt (Deallocate (buffer_ x.1) e)
      (mkRawMemory (buffer_ x.2) (capacity_ x.2) (storage x.2),
       mkRawMemory 0 0 []).

(** ** [Vector<T>] *)

Record Vector : Type := mkVector {
  data_ : RawMemory;
  size_ : nat
}.

Definition data_lens : Lens Vector RawMemory :=
  mkLens data_ (fun d v => mkVector d (size_ v)).

(** the cells of [data_] *)
Definition cells : Lens Vector block := compose_lens data_lens storage_lens.

Definition begin (v : Vector) : nat := GetAddress (data_ v).
Definition end_ (v : Vector) : nat := GetAddress (data_ v) + size_ v.
Definition Size (v : Vector) : nat := size_ v.
Definition Capacity (v : Vector) : nat := capacity_ (data_ v).

(** the live elements, as far as cells [0 .. size_) hold objects *)
Definition elements (v : Vector) : list (option T) :=
  take (size_ v) (storage (data_ v)).

(** inside a block with a local [RawMemory new_data]: the cells of
    [new_data], the cells of [data_] next to them, and the two handles *)
Definition new_cells : Lens (Vector * RawMemory) block :=
  compose_lens snd_lens storage_lens.
Definition old_cells : Lens (Vector * RawMemory) block :=
  compose_lens fst_lens cells.
Definition relocation : Lens (Vector * RawMemory) (block * block) :=
  pair_lens old_cells new_cells.
Definition data_and_local : Lens (Vector * RawMemory) (RawMemory * RawMemory) :=
  pair_lens (compose_lens fst_lens data_lens) snd_lens.

(** [++size_] and [--size_] *)
Definition incr_size : M Vector unit :=
  fun e v => Ret tt e (mkVector (data_ v) (size_ v + 1)).
Definition decr_size : M Vector unit :=
  fun e v => Ret tt e (mkVector (data_ v) (size_ v - 1)).
Definition write_size (n : nat) : M Vector unit :=
  fun e v => Ret tt e (mkVector (data_ v) n).

(** [static_cast<size_t>(pos - begin())] *)
Definition index_of (pos : nat) : M Vector nat :=
  let* v := get in
  size_t_sub pos (begin v).

(** [Destroy(buf)]: [buf->~T()] *)
Definition Destroy (buf : nat) : M block unit :=
  let* x := load buf in call_dtor x >> release buf.

(** [DestroyN(buf, n)] *)
Fixpoint DestroyN (buf n : nat) : M block unit :=
  match n with
  | 0 => ret tt
  | S n' => Destroy buf >> DestroyN (S buf) n'
  end.

(** [CopyConstruct(buf, elem)]: [new (buf) T(elem)] *)
Definition CopyConstruct (buf : nat) (elem : T) : M block unit :=
  construct_at buf (CopyOf elem).

(** [std::move(first, last, d_first)] and
    [std::move_backward(first, last, d_last)] on cells of one block *)
Definition std_move (first last d_first : nat) : M block unit :=
  if first <=? last then move_range first (last - first) d_first else undef.
Definition std_move_backward (first last d_last : nat) : M block unit :=
  if first <=? last then move_backward last (last - first) d_last else undef.

(** [SafeMove(from, size, to)], [from] in the first block, [to] in the second *)
Definition SafeMove (from size to : nat) : M (block * block) unit :=
  (if is_nothrow_move_constructible || negb is_copy_constructible
   then uninitialized_move_n from size to
   else
     let* x := get in
     zoom snd_lens (uninitialized_copy_n x.1 from size to)) >>
  zoom fst_lens (destroy_n from size).

(** [Vector() = default] *)
Definition Vector_default : Vector := mkVector RawMemory_default 0.

(** the body of a constructor, run on the cells of the member [data_]; if it
    throws, [data_] is destroyed and no object comes to exist *)
Definition ctor_body {X} (d : RawMemory) (size : nat) (body : M block unit)
    : M X Vector :=
  fun e x =>
    match body e (storage d) with
    | Ret _ e' b => Ret (mkVector (update storage_lens b d) size) e' x
    | Throw e' _ => Throw (Deallocate (buffer_ d) e') x
    | Undef => Undef
    end.

(** [explicit Vector(size_t size)] *)
Definition Vector_sized {X} (size : nat) : M X Vector :=
  let* d := RawMemory_new size in
  ctor_body d size (uninitialized_value_construct_n 0 size).

(** [Vector(const Vector& other)] *)
Definition Vector_copy {X} (other : Vector) : M X Vector :=
  let* d := RawMemory_new (size_ other) in
  ctor_body d (size_ other)
    (uninitialized_copy_n (storage (data_ other)) 0 (size_ other) 0).

(** [~Vector()]: [DestroyN(data_.GetAddress(), size_)], then [~RawMemory()] *)
Definition Vector_dtor (v : Vector) (e : Env) : option Env :=
  match DestroyN 0 (size_ v) e (storage (data_ v)) with
  | Ret _ e' _ => RawMemory_dtor (data_ v) e'
  | _ => None
  end.

(** [data_ = std::move(rhs.data_); size_ = rhs.size_; rhs.size_ = 0] on
    [(this, rhs)] *)
Definition take_over : M (Vector * Vector) unit :=
  zoom (pair_lens (compose_lens fst_lens data_lens)
                  (compose_lens snd_lens data_lens)) Init >>
  let* x := get in
  put (mkVector (data_ x.1) (size_ x.2), mkVector (data_ x.2) 0).

(** [Vector(Vector&& other)], run on [other] *)
Definition Vector_move : M Vector Vector :=
  fun e other =>
    match take_over e (Vector_default, other) with
    | Ret _ e' x => Ret x.1 e' x.2
    | Throw e' x => Throw e' x.2
    | Undef => Undef
    end.

(** [Swap(other)] on [(this, other)] *)
Definition Swap : M (Vector * Vector) unit :=
  zoom (pair_lens (compose_lens fst_lens data_lens)
                  (compose_lens snd_lens data_lens)) RawMemory_Swap >>
  let* x := get in
  put (mkVector (data_ x.1) (size_ x.2), mkVector (data_ x.2) (size_ x.1)).

(** [v[index]]: [operator[](index)] of the vector [v], read *)
Definition at_index {X} (v : Vector) (index : nat) : M X T :=
  assert (index <? size_ v) >>
  let* i := RawMemory_index (data_ v) index in
  peek (storage (data_ v)) i.

(** [Reserve(new_capacity)] *)
Definition Reserve (new_capacity : nat) : M Vector unit :=
  let* v := get in
  if new_capacity <=? capacity_ (data_ v) then ret tt
  else
    let* new_data := RawMemory_new new_capacity in
    scope new_data RawMemory_dtor
      (zoom relocation (SafeMove 0 (size_ v) 0) >>
       zoom data_and_local RawMemory_Swap).

(** [Resize(new_size)] *)
Definition Resize (new_size : nat) : M Vector unit :=
  let* v := get in
  (if new_size <? size_ v then
     zoom cells (destroy_n new_size (size_ v - new_size))
   else if size_ v <? new_size then
     Reserve new_size >>
     zoom cells (uninitialized_value_construct_n (size_ v) (new_size - size_ v))
   else ret tt) >>
  write_size new_size.

(** the capacity of the block a growing [PushBack]/[Emplace] allocates:
    [size_ == 0 ? 1 : size_ * 2] *)
Definition grown (size : nat) : nat := if size =? 0 then 1 else size * 2.

(** [PushBack(const T& value)] *)
Definition PushBack (value : T) : M Vector unit :=
  let* v := get in
  (if size_ v =? Capacity v then
     let* new_data := RawMemory_new (grown (size_ v)) in
     scope new_data RawMemory_dtor
       ((let* i := RawMemory_index new_data (size_ v) in
         zoom new_cells (CopyConstruct i value)) >>
        zoom relocation (SafeMove 0 (size_ v) 0) >>
        zoom data_and_local RawMemory_Swap)
   else
     let* i := RawMemory_index (data_ v) (size_ v) in
     zoom cells (CopyConstruct i value)) >>
  incr_size.

(** [PushBack(T&& value)].  In the branch that copies, a move constructor
    that throws is caught and the element is copied from [value] as the
    failed move left it. *)
Definition PushBack_rvalue (value : Rvalue) : M Vector unit :=
  let* v := get in
  (if size_ v =? Capacity v then
     let* new_data := RawMemory_new (grown (size_ v)) in
     scope new_data RawMemory_dtor
       ((if is_nothrow_move_constructible || negb is_copy_constructible then
           (let* i := RawMemory_plus new_data (size_ v) in
            zoom relocation (construct_across i (MoveOf value))) >>
           zoom relocation (uninitialized_move_n 0 (size_ v) 0)
         else
           (let* i := RawMemory_plus new_data (size_ v) in
            zoom relocation
              (zoom snd_lens (cell_ok i) >>
               let* r := zoom fst_lens (move_from value) in
               match r.2 with
               | Some y => zoom snd_lens (store i y)
               | None =>
                   let* j := RawMemory_index new_data (size_ v) in
                   zoom snd_lens (CopyConstruct j r.1)
               end)) >>
           let* x := get in
           zoom new_cells
             (uninitialized_copy_n (storage (data_ x.1)) 0 (size_ v) 0)) >>
        zoom old_cells (destroy_n 0 (size_ v)) >>
        zoom data_and_local RawMemory_Swap)
   else
     let* i := RawMemory_plus (data_ v) (size_ v) in
     zoom cells (construct_at i (MoveOf value))) >>
  incr_size.

(** [PopBack()] *)
Definition PopBack : M Vector unit :=
  let* v := get in
  assert (0 <? size_ v) >>
  (let* i := RawMemory_plus (data_ v) (size_ v - 1) in
   zoom cells (destroy_at i)) >>
  decr_size.

(** [EmplaceBack(args...)]; the result is the address of [data_[size_ - 1]] *)
Definition EmplaceBack (args : Ctor) : M Vector nat :=
  let* v := get in
  (if size_ v =? Capacity v then
     let* new_data := RawMemory_new (grown (size_ v)) in
     scope new_data RawMemory_dtor
       ((let* i := RawMemory_plus new_data (size_ v) in
         zoom relocation (construct_across i args)) >>
        zoom relocation (SafeMove 0 (size_ v) 0) >>
        zoom data_and_local RawMemory_Swap)
   else
     let* i := RawMemory_plus (data_ v) (size_ v) in
     zoom cells (construct_at i args)) >>
  incr_size >>
  let* v' := get in
  let* i := RawMemory_index (data_ v') (size_ v' - 1) in
  ret (GetAddress (data_ v') + i).

(** [EmplaceWithReallocate(pos, args...)] *)
Definition EmplaceWithReallocate (pos : nat) (args : Ctor) : M Vector nat :=
  let* v := get in
  let* index := index_of pos in
  let* new_data := RawMemory_new (grown (size_ v)) in
  scope new_data RawMemory_dtor
    ((let* i := RawMemory_plus new_data index in
      zoom relocation (construct_across i args)) >>
     on_throw
       (zoom relocation (SafeMove 0 index 0))
       (let* i := RawMemory_index new_data index in
        zoom new_cells (destroy_at i)) >>
     on_throw
       (let* i := RawMemory_plus (data_ v) index in
        let* n := size_t_sub (size_ v) index in
        let* j := RawMemory_plus new_data (index + 1) in
        zoom relocation (SafeMove i n j))
       (zoom new_cells (destroy_n 0 (index + 1))) >>
     zoom data_and_local RawMemory_Swap) >>
  incr_size >>
  let* v' := get in
  ret (begin v' + index).

(** [EmplaceWithoutReallocate(pos, args...)]; [last] is the [size_ - 1] of
    [data_[size_ - 1]] and of [end() - 1] *)
Definition EmplaceWithoutReallocate (pos : nat) (args : Ctor) : M Vector nat :=
  let* v := get in
  let* index := index_of pos in
  let* temp := zoom cells (construct args) in
  scope temp (fun t e => Some (destroy t e))
    ((let* last := size_t_sub (size_ v) 1 in
      let* i := RawMemory_index (data_ v) last in
      zoom (compose_lens fst_lens cells) (move_construct_within i (size_ v))) >>
     (let* last := size_t_sub (size_ v) 1 in
      zoom (compose_lens fst_lens cells)
        (std_move_backward index last (size_ v))) >>
     (let* i := RawMemory_index (data_ v) index in
      zoom (pair_lens (compose_lens fst_lens cells) snd_lens)
        (move_assign_from_local i))) >>
  incr_size >>
  let* v' := get in
  ret (begin v' + index).

(** [Emplace(pos, args...)] *)
Definition Emplace (pos : nat) (args : Ctor) : M Vector nat :=
  let* v := get in
  if pos =? end_ v then
    assert ((begin v <=? pos) && (pos <=? end_ v)) >>
    EmplaceBack args
  else if size_ v =? Capacity v then
    EmplaceWithReallocate pos args
  else
    EmplaceWithoutReallocate pos args.

(** [Insert(pos, const T& value)] *)
Definition Insert (pos : nat) (value : T) : M Vector nat :=
  Emplace pos (CopyOf value).

(** [Insert(pos, T&& value)] *)
Definition Insert_rvalue (pos : nat) (value : Rvalue) : M Vector nat :=
  Emplace pos (MoveOf value).

(** [Erase(pos)] *)
Definition Erase (pos : nat) : M Vector nat :=
  let* v := get in
  assert ((begin v <=? pos) && (pos <? end_ v)) >>
  let* index := index_of pos in
  zoom cells (std_move (index + 1) (size_ v) index) >>
  (let* i := RawMemory_index (data_ v) (size_ v - 1) in
   zoom cells (destroy_at i)) >>
  decr_size >>
  let* v' := get in
  ret (begin v' + index).

(** [data_[i] = rhs[i]] for [i = 0 .. n - 1] *)
Fixpoint assign_prefix (rhs : Vector) (i n : nat) : M Vector unit :=
  match n with
  | 0 => ret tt
  | S n' =>
      (let* v := get in
       let* s := at_index rhs i in
       let* k := RawMemory_index (data_ v) i in
       zoom cells (copy_assign_at k s)) >>
      assign_prefix rhs (S i) n'
  end.

(** the body of [operator=(const Vector& rhs)] for [this != &rhs] *)
Definition copy_assign_from (rhs : Vector) : M Vector unit :=
  let* v := get in
  if capacity_ (data_ v) <? size_ rhs then
    let* large := Vector_copy rhs in
    scope large Vector_dtor Swap
  else if size_ v <? size_ rhs then
    assign_prefix rhs 0 (size_ v) >>
    zoom cells
      (uninitialized_copy_n (storage (data_ rhs))
         (size_ rhs - size_ v) (size_ rhs - size_ v) (size_ v)) >>
    write_size (size_ rhs)
  else
    assign_prefix rhs 0 (size_ rhs) >>
    zoom cells (destroy_n (size_ rhs) (size_ v - size_ rhs)) >>
    write_size (size_ rhs).

(** ** Objects and their addresses

    [operator=] and [Swap] take a second vector by reference, which may be
    the object itself.  The vectors of a program live in a store, addressed
    by where they are. *)

Abbreviation Objects := (gmap nat Vector).

(** run a member function on the object at [this] *)
Definition on_object {A} (this : nat) (m : M Vector A) : M Objects A :=
  fun e st =>
    match st !! this with
    | Some v =>
        match m e v with
        | Ret a e' v' => Ret a e' (<[this := v']> st)
        | Throw e' v' => Throw e' (<[this := v']> st)
        | Undef => Undef
        end
    | None => Undef
    end.

(** run a computation on two different objects *)
Definition on_objects {A} (this other : nat) (m : M (Vector * Vector) A)
    : M Objects A :=
  fun e st =>
    match st !! this, st !! other with
    | Some v, Some w =>
        match m e (v, w) with
        | Ret a e' x => Ret a e' (<[other := x.2]> (<[this := x.1]> st))
        | Throw e' x => Throw e' (<[other := x.2]> (<[this := x.1]> st))
        | Undef => Undef
        end
    | _, _ => Undef
    end.

(** a constructor call whose object is placed at [this] *)
Definition new_object (this : nat) (ctor : M Objects Vector) : M Objects unit :=
  let* st := get in
  match st !! this with
  | Some _ => undef
  | None => let* v := ctor in fun e st' => Ret tt e (<[this := v]> st')
  end.

(** [Vector& operator=(const Vector& rhs)] *)
Definition copy_assignment (this rhs : nat) : M Objects unit :=
  if negb (this =? rhs) then
    let* st := get in
    match st !! rhs with
    | Some r => on_object this (copy_assign_from r)
    | None => undef
    end
  else ret tt.

(** [Vector& operator=(Vector&& rhs) noexcept] *)
Definition move_assignment (this rhs : nat) : M Objects unit :=
  if this =? rhs then ret tt
  else on_objects this rhs take_over.

(** [Vector(Vector&& other)] for the object at [other], the new vector placed
    at [this] *)
Definition move_construction (this other : nat) : M Objects unit :=
  new_object this (on_object other Vector_move).

(** [Swap(Vector& other)]; swapping an object with itself changes nothing *)
Definition Swap_objects (this other : nat) : M Objects unit :=
  if this =? other then
    let* st := get in
    match st !! this with Some _ => ret tt | None => undef end
  else on_objects this other Swap.

End Container.

Arguments Rvalue T : clear implicits.
Arguments Ctor T {_}.
Arguments RawMemory T : clear implicits.
Arguments Vector T : clear implicits.

Abbreviation block T := (list (option T)).
Abbreviation Objects T := (gmap nat (Vector T)).

(** ** Programs over vectors, and the properties stated of them *)

Section Programs.
Context {T : Type} `{Element T}.

(** the calls a program can make on the vectors of a store *)
Inductive Op : Type :=
| OpDefault (this : nat)
| OpSized (this size : nat)
| OpCopy (this other : nat)
| OpMove (this other : nat)
| OpReserve (this new_capacity : nat)
| OpResize (this new_size : nat)
| OpPushBack (this : nat) (value : T)
| OpPushBackRvalue (this : nat) (value : Rvalue T)
| OpPopBack (this : nat)
| OpEmplaceBack (this : nat) (args : Ctor T)
| OpEmplace (this pos : nat) (args : Ctor T)
| OpInsert (this pos : nat) (value : T)
| OpInsertRvalue (this pos : nat) (value : Rvalue T)
| OpErase (this pos : nat)
| OpCopyAssign (this rhs : nat)
| OpMoveAssign (this rhs : nat)
| OpSwap (this other : nat).

Definition discard {X A} (m : M X A) : M X unit := m >> ret tt.

Definition exec (op : Op) : M (Objects T) unit :=
  match op with
  | OpDefault this => new_object this (ret Vector_default)
  | OpSized this size => new_object this (Vector_sized size)
  | OpCopy this other =>
      new_object this
        (let* st := get in
         match st !! other with
         | Some o => Vector_copy o
         | None => undef
         end)
  | OpMove this other => move_construction this other
  | OpReserve this new_capacity => on_object this (Reserve new_capacity)
  | OpResize this new_size => on_object this (Resize new_size)
  | OpPushBack this value => on_object this (PushBack value)
  | OpPushBackRvalue this value => on_object this (PushBack_rvalue value)
  | OpPopBack this => on_object this PopBack
  | OpEmplaceBack this args => on_object this (discard (EmplaceBack args))
  | OpEmplace this pos args => on_object this (discard (Emplace pos args))
  | OpInsert this pos value => on_object this (discard (Insert pos value))
  | OpInsertRvalue this pos value =>
      on_object this (discard (Insert_rvalue pos value))
  | OpErase this pos => on_object this (discard (Erase pos))
  | OpCopyAssign this rhs => copy_assignment this rhs
  | OpMoveAssign this rhs => move_assignment this rhs
  | OpSwap this other => Swap_objects this other
  end.

(** the stores a program reaches from the empty one: a call that returns and
    a call that exits with an exception both lead to a store the program goes
    on with; between two calls the rest of the program may do to the world
    what it likes *)
Inductive reachable : Objects T -> Prop :=
| reach_empty : reachable ∅
| reach_return op e st e' st' :
    reachable st -> exec op e st = Ret tt e' st' -> reachable st'
| reach_throw op e st e' st' :
    reachable st -> exec op e st = Throw e' st' -> reachable st'.

(** [wp m Q R U e x]: run from [e] and [x], the computation [m] satisfies [Q]
    if it returns, [R] if it throws, and [U] holds if its behaviour is
    undefined *)
Definition wp {X A} (m : M X A) (Q : A -> Env -> X -> Prop)
    (R : Env -> X -> Prop) (U : Prop) (e : Env) (x : X) : Prop :=
  match m e x with
  | Ret a e' x' => Q a e' x'
  | Throw e' x' => R e' x'
  | Undef => U
  end.

(** [size_ <= capacity] *)
Definition inv (v : Vector T) : Prop := size_ v <= Capacity v.

(** every vector of the store satisfies the invariant *)
Definition store_inv (st : Objects T) : Prop :=
  forall a v, st !! a = Some v -> inv v.

(** what a computation does, whatever it returns *)
Definition effect {X A} (o : outcome X A) : outcome X unit :=
  match o with
  | Ret _ e x => Ret tt e x
  | Throw e x => Throw e x
  | Undef => Undef
  end.

(** the environment a computation ends in, [d] if its behaviour is undefined *)
Definition final_env {X A} (o : outcome X A) (d : Env) : Env :=
  match o with
  | Ret _ e _ => e
  | Throw e _ => e
  | Undef => d
  end.

(** cell [i] of a block holds an object *)
Definition live (b : block T) (i : nat) : Prop :=
  exists x, b !! i = Some (Some x).

(** the cells in use: the block has [capacity_] cells, and the first [size_]
    of them hold objects.  Of the cells behind them this says nothing;
    [invariant] below does. *)
Definition well_formed (v : Vector T) : Prop :=
  length (storage (data_ v)) = capacity_ (data_ v) /\
  size_ v <= capacity_ (data_ v) /\
  forall i, i < size_ v -> live (storage (data_ v)) i.




(** [T] has value semantics: a constructor or an assignment that returns has
    made its target equal to the value it was given *)
Record ValueSemantics (args_value : Args -> T) : Prop := {
  args_ctor_value a w y : (args_ctor a w).2 = Some y -> y = args_value a;
  copy_ctor_value x w y : (copy_ctor x w).2 = Some y -> y = x;
  move_ctor_value x w y : (move_ctor x w).2.2 = Some y -> y = x;
  copy_assign_value d s w :
    (copy_assign d s w).2.2 = true -> (copy_assign d s w).2.1 = s;
  move_assign_value d s w :
    (move_assign d s w).2.2 = true -> (move_assign d s w).2.1.1 = s
}.

(** the object a [T&&] argument refers to, the elements of the vector being
    in the cells [b]; [None] if it is a cell that holds no object *)
Definition referent (b : block T) (value : Rvalue T) : option T :=
  match value with
  | Outside x => Some x
  | Inside k => mjoin (b !! k)
  end.

(** the object a constructor call makes under value semantics *)
Definition ctor_value (args_value : Args -> T) (b : block T) (c : Ctor T)
    : option T :=
  match c with
  | FromArgs a => Some (args_value a)
  | CopyOf x => Some x
  | MoveOf value => referent b value
  end.

(** the cells [b'] of the vector once [T(std::move(value))] has run on the
    cells [b]: an element moved from holds what the move constructor left in
    it, and nothing else has changed *)
Definition after_move (value : Rvalue T) (b b' : block T) : Prop :=
  match value with
  | Outside _ => b' = b
  | Inside k =>
      exists x w,
        b !! k = Some (Some x) /\ b' = <[k := Some (move_ctor x w).2.1]> b
  end.

Definition after_ctor (c : Ctor T) (b b' : block T) : Prop :=
  match c with
  | MoveOf value => after_move value b b'
  | _ => b' = b
  end.

(** a [T&&] argument inside the vector refers to a cell that holds an
    object *)
Definition refers (b : block T) (c : Ctor T) : Prop :=
  match c with
  | MoveOf (Inside k) => live b k
  | _ => True
  end.

(** the cells from [n] on are raw memory *)
Definition raw_from (n : nat) (b : block T) : Prop :=
  forall i, n <= i -> i < length b -> b !! i = Some None.

(** the invariant of the class: the vector is well formed, and the cells
    that are not in use hold no object *)
Definition invariant (v : Vector T) : Prop :=
  well_formed v /\ raw_from (size_ v) (storage (data_ v)).

(** the part [PushBack] and [EmplaceBack] share, up to [++size_]: construct
    the new element in a grown block and relocate, or construct it in the
    next free cell *)
Definition place_back (args : Ctor T) (v : Vector T) : M (Vector T) unit :=
  if size_ v =? Capacity v then
    let* new_data := RawMemory_new (grown (size_ v)) in
    scope new_data RawMemory_dtor
      ((let* i := RawMemory_plus new_data (size_ v) in
        zoom relocation (construct_across i args)) >>
       zoom relocation (SafeMove 0 (size_ v) 0) >>
       zoom data_and_local RawMemory_Swap)
  else
    let* i := RawMemory_plus (data_ v) (size_ v) in
    zoom cells (construct_at i args).

(** a move constructor declared [noexcept] does not throw *)
Definition nothrow_move_sound : Prop :=
  is_nothrow_move_constructible = true ->
  forall x w, (move_ctor x w).2.2 <> None.

(** the constructor [SafeMove] relocates with *)
Definition relocation_event : Event :=
  if is_nothrow_move_constructible || negb is_copy_constructible
  then EvMoveCtor else EvCopyCtor.

(** the constructor a call [T(std::forward<Args>(args)...)] runs *)
Definition ctor_event (c : Ctor T) : Event :=
  match c with
  | FromArgs _ => EvArgsCtor
  | CopyOf _ => EvCopyCtor
  | MoveOf _ => EvMoveCtor
  end.

(** the constructor call moves from no element of the vector *)
Definition by_value (c : Ctor T) : Prop :=
  match c with
  | MoveOf (Inside _) => False
  | _ => True
  end.

(** [P] holds of every object the constructor call [c] can make, the
    elements of the vector being in the cells [b] *)
Definition constructs (b : block T) (c : Ctor T) (P : T -> Prop) : Prop :=
  match c with
  | FromArgs a => forall w y, (args_ctor a w).2 = Some y -> P y
  | CopyOf x => forall w y, (copy_ctor x w).2 = Some y -> P y
  | MoveOf value =>
      forall x w y,
        referent b value = Some x -> (move_ctor x w).2.2 = Some y -> P y
  end.

End Programs.

(** ** A sample element type

    Strings whose operations follow a schedule of faults: every call that can
    throw takes the next entry of the schedule and throws if it is [true].  A
    moved-from string is empty.  The allocator hands out increasing
    addresses. *)

Module Sample.

Record host : Type := mkHost {
  faults : list bool;
  brk : nat
}.

Definition next (w : host) : host * bool :=
  match faults w with
  | [] => (w, false)
  | b :: fs => (mkHost fs (brk w), b)
  end.

Definition element (nothrow copyable : bool) : Element string := {|
  Args := string;
  World := host;
  is_nothrow_move_constructible := nothrow;
  is_copy_constructible := copyable;
  default_ctor w :=
    let r := next w in (r.1, if r.2 then None else Some EmptyString);
  args_ctor a w :=
    let r := next w in (r.1, if r.2 then None else Some a);
  copy_ctor x w :=
    let r := next w in (r.1, if r.2 then None else Some x);
  move_ctor x w :=
    if nothrow then (w, (EmptyString, Some x))
    else
      let r := next w in
      (r.1, if r.2 then (x, None) else (EmptyString, Some x));
  copy_assign d s w :=
    let r := next w in (r.1, if r.2 then (d, false) else (s, true));
  move_assign d s w :=
    let r := next w in
    (r.1, if r.2 then (d, s, false) else (s, EmptyString, true));
  dtor _ w := w;
  operator_new n w :=
    let r := next w in
    (mkHost (faults r.1) (brk r.1 + n),
     if r.2 then None else Some (brk r.1));
  operator_delete _ w := w
|}.

(** the vector [["a"; "b"]] in a full block of two cells *)
Definition ab : Vector string :=
  mkVector (mkRawMemory 17 2 [Some "a"; Some "b"]%string) 2.

(** the vector [["a"; "b"; "c"]] in a block of four cells *)
Definition abc : Vector string :=
  mkVector (mkRawMemory 19 4 [Some "a"; Some "b"; Some "c"; None]%string) 3.

(** the vector [["1"; "2"]] in a block of three cells *)
Definition one_two : Vector string :=
  mkVector (mkRawMemory 16 3 [Some "1"; Some "2"; None]%string) 2.

(** strings with a move constructor declared [noexcept], and strings whose
    move constructor may throw; both can be copied *)
Definition moving : Element string := element true true.
Definition copying : Element string := element false true.

(** the environment at the start of a run with the fault schedule [fs] *)
Definition start (nothrow copyable : bool) (fs : list bool)
    : @Env string (element nothrow copyable) :=
  @mkEnv string (element nothrow copyable) (mkHost fs 16) [].

End Sample.

(** * Reasoning about computations *)

Section Reasoning.
Context {T : Type} `{Element T}.

Lemma wp_mono {X A} (m : M X A) (Q Q' : A -> Env -> X -> Prop)
    (R R' : Env -> X -> Prop) (U U' : Prop) e x :
  wp m Q R U e x ->
  (forall a e' x', Q a e' x' -> Q' a e' x') ->
  (forall e' x', R e' x' -> R' e' x') ->
  (U -> U') ->
  wp m Q' R' U' e x.
Proof. unfold wp. destruct (m e x); auto. Qed.

Lemma wp_true {X A} (m : M X A) (Q : A -> Env -> X -> Prop)
    (R : Env -> X -> Prop) e x :
  (forall a e' x', Q a e' x') -> (forall e' x', R e' x') -> wp m Q R True e x.
Proof. intros. unfold wp. destruct (m e x); auto. Qed.

Lemma wp_bind {X A B} (m : M X A) (k : A -> M X B) Q R U e x :
  wp m (fun a e' x' => wp (k a) Q R U e' x') R U e x ->
  wp (bind m k) Q R U e x.
Proof. unfold wp, bind. destruct (m e x); auto. Qed.

Lemma wp_zoom {X Y A} (l : Lens X Y) (m : M Y A) Q R U e x :
  wp m (fun a e' y => Q a e' (update l y x)) (fun e' y => R e' (update l y x))
     U e (view l x) ->
  wp (zoom l m) Q R U e x.
Proof. unfold wp, zoom. destruct (m e (view l x)); auto. Qed.

Lemma wp_scope {X L A} (init : L) (fini : L -> Env -> option Env)
    (body : M (X * L) A) Q R (U : Prop) e x :
  wp body
     (fun a e' p =>
        match fini p.2 e' with Some e'' => Q a e'' p.1 | None => U end)
     (fun e' p =>
        match fini p.2 e' with Some e'' => R e'' p.1 | None => U end)
     U e (x, init) ->
  wp (scope init fini body) Q R U e x.
Proof.
  unfold wp, scope.
  destruct (body e (x, init)) as [a e' [x' l]|e' [x' l]|]; simpl; auto;
    destruct (fini l e'); auto.
Qed.

Lemma wp_on_throw {X A} (m : M X A) (h : M X unit) Q R U e x :
  wp m Q (fun e' x' => wp h (fun _ => R) R U e' x') U e x ->
  wp (on_throw m h) Q R U e x.
Proof.
  unfold wp, on_throw. destruct (m e x) as [a e' x'|e' x'|]; auto.
  destruct (h e' x'); auto.
Qed.

Lemma wp_assert {X} (b : bool) (Q : unit -> Env -> X -> Prop) R (U : Prop) e x :
  (b = true -> Q tt e x) -> (b = false -> U) -> wp (assert b) Q R U e x.
Proof. destruct b; unfold wp; simpl; auto. Qed.

Lemma wp_ret {X A} (a : A) (Q : A -> Env -> X -> Prop) R U e x :
  Q a e x -> wp (ret a) Q R U e x.
Proof. done. Qed.

Lemma wp_get {X} (Q : X -> Env -> X -> Prop) R U e x :
  Q x e x -> wp get Q R U e x.
Proof. done. Qed.

Lemma wp_put {X} (y : X) (Q : unit -> Env -> X -> Prop) R U e x :
  Q tt e y -> wp (put y) Q R U e x.
Proof. done. Qed.

Lemma wp_throw {X A} (Q : A -> Env -> X -> Prop) (R : Env -> X -> Prop) U e x :
  R e x -> wp throw Q R U e x.
Proof. done. Qed.

Lemma wp_undef {X A} (Q : A -> Env -> X -> Prop) (R : Env -> X -> Prop)
    (U : Prop) e x :
  U -> wp undef Q R U e x.
Proof. done. Qed.

Lemma wp_incr_size (Q : unit -> Env -> Vector T -> Prop) R U e v :
  Q tt e (mkVector (data_ v) (size_ v + 1)) -> wp incr_size Q R U e v.
Proof. done. Qed.

Lemma wp_decr_size (Q : unit -> Env -> Vector T -> Prop) R U e v :
  Q tt e (mkVector (data_ v) (size_ v - 1)) -> wp decr_size Q R U e v.
Proof. done. Qed.

Lemma wp_write_size n (Q : unit -> Env -> Vector T -> Prop) R U e v :
  Q tt e (mkVector (data_ v) n) -> wp (write_size n) Q R U e v.
Proof. done. Qed.

Lemma wp_RawMemory_Swap (Q : unit -> Env -> RawMemory T * RawMemory T -> Prop)
    R U e x :
  Q tt e (mkRawMemory (buffer_ x.2) (capacity_ x.2) (storage x.2),
          mkRawMemory (buffer_ x.1) (capacity_ x.1) (storage x.1)) ->
  wp RawMemory_Swap Q R U e x.
Proof. done. Qed.

Lemma wp_Init (Q : unit -> Env -> RawMemory T * RawMemory T -> Prop) R U e x :
  Q tt (Deallocate (buffer_ x.1) e)
    (mkRawMemory (buffer_ x.2) (capacity_ x.2) (storage x.2),
     mkRawMemory 0 0 []) ->
  wp Init Q R U e x.
Proof. done. Qed.

Lemma wp_RawMemory_new {X} (n : nat) (Q : RawMemory T -> Env -> X -> Prop)
    R U e x :
  (forall p e', Q (mkRawMemory p n (replicate n None)) e' x) ->
  (forall e', R e' x) ->
  wp (RawMemory_new n) Q R U e x.
Proof.
  intros HQ HR. unfold wp, RawMemory_new, Allocate, bind.
  destruct (n =? 0); simpl; [apply HQ|].
  unfold call. destruct (operator_new n (world e)) as [w [p|]]; simpl; auto.
Qed.

Lemma wp_call {X A} ev (f : World -> World * option A)
    (Q : A -> Env -> X -> Prop) R U e x :
  (forall y e', Q y e' x) -> (forall e', R e' x) -> wp (call ev f) Q R U e x.
Proof. intros HQ HR. unfold wp, call. destruct (f (world e)).2; auto. Qed.

Lemma wp_call_total {X A} ev (f : World -> World * A)
    (Q : A -> Env -> X -> Prop) R U e x :
  (forall e', Q (f (world e)).2 e' x) -> wp (call_total ev f) Q R U e x.
Proof. intros HQ. unfold wp, call_total. auto. Qed.

Lemma wp_move_from (value : Rvalue T) (Q : T * option T -> Env -> block T -> Prop)
    R (U : Prop) e b :
  (forall r e' b', Q r e' b') -> U -> wp (move_from value) Q R U e b.
Proof.
  intros HQ HU. destruct value as [x|k]; simpl; [by apply wp_call_total|].
  unfold wp, bind, load. destruct (b !! k) as [[x|]|]; try done.
  unfold call_move_ctor, call_total, store, bind, cell_ok.
  destruct (k <? length b); [apply HQ|done].
Qed.

Lemma wp_construct (c : Ctor T) (Q : T -> Env -> block T -> Prop) R (U : Prop)
    e b :
  (forall y e' b', Q y e' b') -> (forall e' b', R e' b') -> U ->
  wp (construct c) Q R U e b.
Proof.
  intros HQ HR HU. destruct c as [a|x|value]; simpl; try by apply wp_call.
  apply wp_bind, wp_move_from; [|done]. intros [x' [y|]] e' b'.
  - by apply wp_ret.
  - by apply wp_throw.
Qed.

Lemma wp_at_index {X} (v : Vector T) index (Q : T -> Env -> X -> Prop) R
    (U : Prop) e x :
  (forall s, Q s e x) -> U -> wp (at_index v index) Q R U e x.
Proof.
  intros HQ HU. unfold wp, at_index, RawMemory_index, bind, assert, peek.
  destruct (index <? size_ v); simpl; [|done].
  destruct (index <? capacity_ (data_ v)); simpl; [|done].
  by destruct (storage (data_ v) !! index) as [[s|]|].
Qed.

Lemma wp_on_object {A} (this : nat) (m : M (Vector T) A) Q R (U : Prop) e
    (st : Objects T) :
  match st !! this with
  | Some v =>
      wp m (fun a e' v' => Q a e' (<[this := v']> st))
           (fun e' v' => R e' (<[this := v']> st)) U e v
  | None => U
  end ->
  wp (on_object this m) Q R U e st.
Proof.
  unfold wp, on_object. destruct (st !! this) as [v|]; [|done].
  destruct (m e v); auto.
Qed.

Lemma wp_on_objects {A} (this other : nat) (m : M (Vector T * Vector T) A)
    Q R (U : Prop) e (st : Objects T) :
  match st !! this, st !! other with
  | Some v, Some w =>
      wp m (fun a e' x => Q a e' (<[other := x.2]> (<[this := x.1]> st)))
           (fun e' x => R e' (<[other := x.2]> (<[this := x.1]> st))) U e (v, w)
  | _, _ => U
  end ->
  wp (on_objects this other m) Q R U e st.
Proof.
  unfold wp, on_objects.
  destruct (st !! this) as [v|]; [|done].
  destruct (st !! other) as [w|]; [|done].
  destruct (m e (v, w)); auto.
Qed.

Lemma grown_gt n : n < grown n.
Proof. unfold grown. destruct (Nat.eqb_spec n 0); lia. Qed.


End Reasoning.

(** steps over the sequencing and the operations on the handles *)
Ltac wp_pure :=
  lazymatch goal with
  | |- wp (bind _ _) _ _ _ _ _ => apply wp_bind
  | |- wp (discard _) _ _ _ _ _ => unfold discard at 1
  | |- wp (assert _) _ _ _ _ _ => apply wp_assert; [intros ?|try done]
  | |- wp (RawMemory_new _) _ _ _ _ _ =>
      apply wp_RawMemory_new; [intros ? ?|intros ?]
  | |- wp (construct _) _ _ _ _ _ =>
      apply wp_construct; [intros ? ? ?|intros ? ?|try done]
  | |- wp (move_from _) _ _ _ _ _ =>
      apply wp_move_from; [intros ? ? ?|try done]
  | |- wp (construct_across _ _) _ _ _ _ _ => unfold construct_across at 1
  | |- wp (at_index _ _) _ _ _ _ _ => apply wp_at_index; [intros ?|try done]
  | |- wp (ret _) _ _ _ _ _ => apply wp_ret
  | |- wp get _ _ _ _ _ => apply wp_get
  | |- wp (put _) _ _ _ _ _ => apply wp_put
  | |- wp undef _ _ _ _ _ => apply wp_undef
  | |- wp throw _ _ _ _ _ => apply wp_throw
  | |- wp (RawMemory_plus _ _) _ _ _ _ _ => unfold RawMemory_plus at 1
  | |- wp (RawMemory_index _ _) _ _ _ _ _ => unfold RawMemory_index at 1
  | |- wp (index_of _) _ _ _ _ _ => unfold index_of at 1
  | |- wp (size_t_sub _ _) _ _ _ _ _ => unfold size_t_sub at 1
  | |- wp incr_size _ _ _ _ _ => apply wp_incr_size
  | |- wp decr_size _ _ _ _ _ => apply wp_decr_size
  | |- wp (write_size _) _ _ _ _ _ => apply wp_write_size
  | |- wp RawMemory_Swap _ _ _ _ _ => apply wp_RawMemory_Swap
  | |- wp Init _ _ _ _ _ => apply wp_Init
  | |- match RawMemory_dtor _ _ with _ => _ end =>
      unfold RawMemory_dtor at 1; cbv iota
  end; cbv beta.

(** steps into a part of the state, a block, a handler or a branch *)
Ltac wp_struct :=
  lazymatch goal with
  | |- wp (zoom _ _) _ _ _ _ _ => apply wp_zoom
  | |- wp (scope _ _ _) _ _ _ _ _ => apply wp_scope
  | |- wp (on_throw _ _) _ _ _ _ _ => apply wp_on_throw
  | |- wp (if ?b then _ else _) _ _ _ _ _ => destruct b eqn:?
  | |- wp (match ?b with _ => _ end) _ _ _ _ _ => destruct b eqn:?
  end; cbv beta.

Ltac wp_step := first [wp_pure | wp_struct].

(** a computation of which nothing needs to be known *)
Ltac wp_opaque :=
  lazymatch goal with
  | |- wp _ _ _ True _ _ => apply wp_true; [intros ? ? ?|intros ? ?]
  end; cbv beta.

Ltac wp_go := repeat (repeat wp_step; try wp_opaque).

Ltac learn_grown n :=
  lazymatch goal with
  | _ : n < grown n |- _ => fail
  | _ => pose proof (grown_gt n)
  end.

Ltac arith :=
  unfold inv, Capacity, begin, end_, GetAddress in *; simpl in *;
  repeat match goal with
         | H : (_ <=? _) = true |- _ => apply Nat.leb_le in H
         | H : (_ <=? _) = false |- _ => apply Nat.leb_gt in H
         | H : (_ <? _) = true |- _ => apply Nat.ltb_lt in H
         | H : (_ <? _) = false |- _ => apply Nat.ltb_ge in H
         | H : (_ =? _) = true |- _ => apply Nat.eqb_eq in H
         | H : (_ =? _) = false |- _ => apply Nat.eqb_neq in H
         | H : (_ && _) = true |- _ => apply andb_true_iff in H; destruct H
         | |- context [grown ?n] => learn_grown n
         end; try done; try lia.

(** * The invariant [size <= capacity] *)

Section Invariant.
Context {T : Type} `{Element T}.

Abbreviation keeps_inv m :=
  (forall e v, inv v ->
     wp m (fun _ _ v' => inv v') (fun _ v' => inv v') True e v).

Lemma Reserve_shape new_capacity e (v : Vector T) :
  wp (Reserve new_capacity)
     (fun _ _ v' => size_ v' = size_ v /\ new_capacity <= Capacity v' /\
                    Capacity v <= Capacity v')
     (fun _ v' => size_ v' = size_ v /\ Capacity v' = Capacity v) True e v.
Proof. unfold Reserve. wp_go; arith. Qed.

Lemma Reserve_inv new_capacity : keeps_inv (Reserve new_capacity).
Proof.
  intros e v Hv. eapply wp_mono; [apply Reserve_shape| | |done]; cbv beta.
  - intros _ _ v' (Hs & _ & Hc). unfold inv in *. lia.
  - intros _ v' (Hs & Hc). unfold inv in *. lia.
Qed.

Lemma Resize_inv new_size : keeps_inv (Resize new_size).
Proof.
  intros e v Hv. unfold Resize. repeat wp_step.
  - wp_go; arith.
  - eapply wp_mono; [apply Reserve_shape| | |done]; cbv beta.
    + intros _ e' v' (Hs & Hn & Hc). wp_go; arith.
    + intros e' v' (Hs & Hc). arith.
  - wp_go; arith.
Qed.

Lemma PushBack_inv value : keeps_inv (PushBack value).
Proof. intros e v Hv. unfold PushBack, CopyConstruct. wp_go; arith. Qed.

Lemma PushBack_rvalue_inv value : keeps_inv (PushBack_rvalue value).
Proof. intros e v Hv. unfold PushBack_rvalue, CopyConstruct. wp_go; arith. Qed.

Lemma PopBack_inv : keeps_inv PopBack.
Proof. intros e v Hv. unfold PopBack. wp_go; arith. Qed.

Lemma EmplaceBack_inv args :
  forall e v, inv v ->
    wp (EmplaceBack args) (fun _ _ v' => inv v') (fun _ v' => inv v') True e v.
Proof. intros e v Hv. unfold EmplaceBack. wp_go; arith. Qed.

Lemma EmplaceWithReallocate_inv pos args :
  forall e v, inv v -> size_ v = Capacity v ->
    wp (EmplaceWithReallocate pos args)
       (fun _ _ v' => inv v') (fun _ v' => inv v') True e v.
Proof. intros e v Hv Hfull. unfold EmplaceWithReallocate. wp_go; arith. Qed.

Lemma EmplaceWithoutReallocate_inv pos args :
  forall e v, inv v -> size_ v <> Capacity v ->
    wp (EmplaceWithoutReallocate pos args)
       (fun _ _ v' => inv v') (fun _ v' => inv v') True e v.
Proof.
  intros e v Hv Hroom. unfold EmplaceWithoutReallocate. wp_go; arith.
Qed.

Lemma Emplace_inv pos args :
  forall e v, inv v ->
    wp (Emplace pos args) (fun _ _ v' => inv v') (fun _ v' => inv v') True e v.
Proof.
  intros e v Hv. unfold Emplace. repeat wp_step.
  - by apply EmplaceBack_inv.
  - apply EmplaceWithReallocate_inv; arith.
  - apply EmplaceWithoutReallocate_inv; arith.
Qed.

Lemma Erase_inv pos :
  forall e v, inv v ->
    wp (Erase pos) (fun _ _ v' => inv v') (fun _ v' => inv v') True e v.
Proof. intros e v Hv. unfold Erase. wp_go; arith. Qed.

Lemma assign_prefix_shape rhs n : forall i e (v : Vector T),
  wp (assign_prefix rhs i n)
     (fun _ _ v' => size_ v' = size_ v /\ Capacity v' = Capacity v)
     (fun _ v' => size_ v' = size_ v /\ Capacity v' = Capacity v) True e v.
Proof.
  induction n as [|n IH]; intros i e v; simpl; [by wp_go|].
  repeat wp_step. wp_opaque; [|done].
  eapply wp_mono; [apply IH|..]; done.
Qed.

Lemma ctor_body_shape {X} (d : RawMemory T) size body e (x : X) :
  wp (ctor_body d size body)
     (fun v' _ x' => x' = x /\ size_ v' = size /\ Capacity v' = capacity_ d)
     (fun _ x' => x' = x) True e x.
Proof. unfold wp, ctor_body. destruct (body e (storage d)); done. Qed.

Lemma Vector_sized_shape {X} size e (x : X) :
  wp (Vector_sized size) (fun v' _ x' => x' = x /\ inv v') (fun _ x' => x' = x)
     True e x.
Proof.
  unfold Vector_sized. repeat wp_step; [|done].
  eapply wp_mono; [apply ctor_body_shape| | |done]; cbv beta; [|done].
  intros v' _ x' (-> & Hs & Hc). split; [done|]. unfold inv. simpl in Hc. lia.
Qed.

Lemma Vector_copy_shape {X} (other : Vector T) e (x : X) :
  wp (Vector_copy other)
     (fun v' _ x' => x' = x /\ size_ v' = size_ other /\
                     Capacity v' = size_ other)
     (fun _ x' => x' = x) True e x.
Proof.
  unfold Vector_copy. repeat wp_step; [|done].
  eapply wp_mono; [apply ctor_body_shape| | |done]; cbv beta; done.
Qed.

Lemma wp_Swap (Q : unit -> Env -> Vector T * Vector T -> Prop) R U e x :
  Q tt e (mkVector (mkRawMemory (buffer_ (data_ x.2)) (capacity_ (data_ x.2))
                                (storage (data_ x.2))) (size_ x.2),
          mkVector (mkRawMemory (buffer_ (data_ x.1)) (capacity_ (data_ x.1))
                                (storage (data_ x.1))) (size_ x.1)) ->
  wp Swap Q R U e x.
Proof. destruct x as [[[] ?] [[] ?]]. done. Qed.

Lemma wp_take_over (Q : unit -> Env -> Vector T * Vector T -> Prop) R U e x :
  Q tt (Deallocate (buffer_ (data_ x.1)) e)
    (mkVector (mkRawMemory (buffer_ (data_ x.2)) (capacity_ (data_ x.2))
                           (storage (data_ x.2))) (size_ x.2),
     mkVector (mkRawMemory 0 0 []) 0) ->
  wp take_over Q R U e x.
Proof. destruct x as [[[] ?] [[] ?]]. done. Qed.

Lemma copy_assign_from_inv rhs : keeps_inv (copy_assign_from rhs).
Proof.
  intros e v Hv. unfold copy_assign_from. repeat wp_step.
  - eapply wp_mono; [apply Vector_copy_shape| | |done]; cbv beta; [|by intros _ _ ->].
    intros large e' v' (-> & Hs & Hc). apply wp_scope. apply wp_Swap. simpl.
    destruct (Vector_dtor _ _); [|done]. arith.
  - eapply wp_mono; [apply assign_prefix_shape| | |done]; cbv beta.
    + intros _ e' v' (Hs & Hc). wp_go; arith.
    + intros e' v' (Hs & Hc). arith.
  - eapply wp_mono; [apply assign_prefix_shape| | |done]; cbv beta.
    + intros _ e' v' (Hs & Hc). wp_go; arith.
    + intros e' v' (Hs & Hc). arith.
Qed.

Lemma Vector_move_inv e (other : Vector T) :
  inv other ->
  wp Vector_move (fun v' _ o' => inv v' /\ inv o') (fun _ o' => inv o') True
     e other.
Proof.
  intros Ho. unfold wp, Vector_move.
  pose proof (wp_take_over
    (fun _ _ x => inv x.1 /\ inv x.2) (fun _ _ => False) True e
    (Vector_default, other)) as Ht.
  unfold wp in Ht. destruct (take_over e (Vector_default, other)); try done.
  - apply Ht. simpl. split; [exact Ho|]. unfold inv. simpl. lia.
  - exfalso. apply Ht. simpl. split; [exact Ho|]. unfold inv. simpl. lia.
Qed.

Lemma store_inv_insert (st : Objects T) a v :
  store_inv st -> inv v -> store_inv (<[a := v]> st).
Proof.
  unfold store_inv in *.
  intros Hst Hv b w Hb. apply lookup_insert_Some in Hb as [[_ <-]|[_ Hb]]; eauto.
Qed.

Lemma on_object_inv {A} this (m : M (Vector T) A) e (st : Objects T) :
  store_inv st ->
  (forall e v, inv v ->
     wp m (fun _ _ v' => inv v') (fun _ v' => inv v') True e v) ->
  wp (on_object this m) (fun _ _ st' => store_inv st')
     (fun _ st' => store_inv st') True e st.
Proof.
  intros Hst Hm. apply wp_on_object.
  destruct (st !! this) as [v|] eqn:Hv; [|done].
  eapply wp_mono; [apply Hm; eauto|..]; cbv beta; try done;
    intros; by apply store_inv_insert.
Qed.

Lemma discard_inv {A} (m : M (Vector T) A) :
  (forall e v, inv v ->
     wp m (fun _ _ v' => inv v') (fun _ v' => inv v') True e v) ->
  keeps_inv (discard m).
Proof.
  intros Hm e v Hv. unfold discard. apply wp_bind.
  eapply wp_mono; [apply Hm, Hv|..]; cbv beta; try done.
Qed.

Lemma new_object_inv this ctor e (st : Objects T) :
  store_inv st ->
  (forall e st, store_inv st ->
     wp ctor (fun v' _ st' => store_inv st' /\ inv v')
        (fun _ st' => store_inv st') True e st) ->
  wp (new_object this ctor) (fun _ _ st' => store_inv st')
     (fun _ st' => store_inv st') True e st.
Proof.
  intros Hst Hc. unfold new_object. repeat wp_step; [done|].
  eapply wp_mono; [apply Hc, Hst|..]; cbv beta; try done.
  intros v' e' st' [Hst' Hv']. unfold wp. by apply store_inv_insert.
Qed.

Lemma exec_inv op e (st : Objects T) :
  store_inv st ->
  wp (exec op) (fun _ _ st' => store_inv st') (fun _ st' => store_inv st')
     True e st.
Proof.
  intros Hst. destruct op; simpl.
  - apply new_object_inv; [done|]. intros e0 st0 Hst0. apply wp_ret.
    split; [done|]. unfold inv. simpl. lia.
  - apply new_object_inv; [done|]. intros e0 st0 Hst0.
    eapply wp_mono; [apply Vector_sized_shape|..]; cbv beta; try done.
    + by intros v' _ st' [-> Hv'].
    + by intros _ st' ->.
  - apply new_object_inv; [done|]. intros e0 st0 Hst0.
    repeat wp_step; [|done].
    eapply wp_mono; [apply Vector_copy_shape|..]; cbv beta; try done.
    + intros v' _ st' (-> & Hs & Hc). split; [done|]. unfold inv. lia.
    + by intros _ st' ->.
  - unfold move_construction. apply new_object_inv; [done|].
    intros e0 st0 Hst0. apply wp_on_object.
    destruct (st0 !! other) as [o|] eqn:Ho; [|done].
    eapply wp_mono; [apply Vector_move_inv; eauto|..]; cbv beta; try done.
    + intros v' _ o' [Hv' Ho']. split; [by apply store_inv_insert|done].
    + intros _ o' Ho'. by apply store_inv_insert.
  - apply on_object_inv; [done|]. apply Reserve_inv.
  - apply on_object_inv; [done|]. apply Resize_inv.
  - apply on_object_inv; [done|]. apply PushBack_inv.
  - apply on_object_inv; [done|]. apply PushBack_rvalue_inv.
  - apply on_object_inv; [done|]. apply PopBack_inv.
  - apply on_object_inv; [done|]. apply discard_inv, EmplaceBack_inv.
  - apply on_object_inv; [done|]. apply discard_inv, Emplace_inv.
  - apply on_object_inv; [done|]. apply discard_inv, Emplace_inv.
  - apply on_object_inv; [done|]. apply discard_inv, Emplace_inv.
  - apply on_object_inv; [done|]. apply discard_inv, Erase_inv.
  - unfold copy_assignment. repeat wp_step; try done.
    apply on_object_inv; [done|]. apply copy_assign_from_inv.
  - unfold move_assignment. repeat wp_step; try done.
    apply wp_on_objects.
    destruct (st !! this) as [v|] eqn:Hv; [|done].
    destruct (st !! rhs) as [w|] eqn:Hw; [|done].
    apply wp_take_over. simpl.
    apply store_inv_insert; [apply store_inv_insert; [done|]|].
    + apply Hst in Hw. done.
    + unfold inv. simpl. lia.
  - unfold Swap_objects. repeat wp_step; try done.
    apply wp_on_objects.
    destruct (st !! this) as [v|] eqn:Hv; [|done].
    destruct (st !! other) as [w|] eqn:Hw; [|done].
    apply wp_Swap. simpl.
    apply store_inv_insert; [apply store_inv_insert; [done|]|].
    + apply Hst in Hw. done.
    + apply Hst in Hv. done.
Qed.

(** C2. In every store a program reaches by calls of the public operations,
    whether they return or exit with an exception, every vector has
    [0 <= size <= capacity]. *)
Theorem size_le_capacity_invariant (st : Objects T) :
  reachable st ->
  forall a v, st !! a = Some v -> 0 <= Size v /\ Size v <= Capacity v.
Proof.
  intros Hr. cut (store_inv st).
  { intros Hst a v Hv. split; [lia|]. exact (Hst a v Hv). }
  induction Hr as [|op e st e' st' _ IH Hex|op e st e' st' _ IH Hex].
  - intros a v Hv. by rewrite lookup_empty in Hv.
  - pose proof (exec_inv op e st IH) as Hwp. unfold wp in Hwp.
    by rewrite Hex in Hwp.
  - pose proof (exec_inv op e st IH) as Hwp. unfold wp in Hwp.
    by rewrite Hex in Hwp.
Qed.

End Invariant.

(** * Calls that change nothing, moves, and insertion at the end *)

Section Simple.
Context {T : Type} `{Element T}.

(** C7. [Reserve(c)] with [c <= capacity] returns at once: the vector is the
    one before the call, with its capacity, size, cells and block address,
    and the environment is the one before the call, so that no element was
    constructed, moved or destroyed and no block allocated. *)
Theorem Reserve_within_capacity (c : nat) (e : Env) (v : Vector T) :
  c <= Capacity v -> Reserve c e v = Ret tt e v.
Proof.
  intros Hc. unfold Reserve, bind, get.
  apply Nat.leb_le in Hc. unfold Capacity in Hc. by rewrite Hc.
Qed.

(** C9. Copy assignment and move assignment of a vector to itself return
    with the store and the environment unchanged: size, capacity and cells
    of the vector are what they were. *)
Theorem self_assignment_changes_nothing (this : nat) (e : Env)
    (st : Objects T) :
  copy_assignment this this e st = Ret tt e st /\
  move_assignment this this e st = Ret tt e st.
Proof. unfold copy_assignment, move_assignment. by rewrite Nat.eqb_refl. Qed.

Lemma Vector_move_result e (v : Vector T) :
  Vector_move e v = Ret v (Deallocate 0 e) Vector_default.
Proof. by destruct v as [[b c s] n]. Qed.

Lemma take_over_result e (w v : Vector T) :
  take_over e (w, v) =
  Ret tt (Deallocate (buffer_ (data_ w)) e) (v, Vector_default).
Proof. by destruct v as [[b c s] n], w as [[b' c' s'] n']. Qed.

(** C6. Move construction from the vector at [rhs], and move assignment
    from it to another object, always return; afterwards the target is the
    vector that was at [rhs], with its size, capacity, block and cells, and
    the source has size 0, capacity 0 and no element. *)
Theorem move_leaves_source_empty (this rhs : nat) (v : Vector T) (e : Env)
    (st : Objects T) :
  this <> rhs -> st !! rhs = Some v ->
  forall op,
    (op = move_construction this rhs /\ st !! this = None) \/
    (op = move_assignment this rhs /\ is_Some (st !! this)) ->
    exists e' st' o,
      op e st = Ret tt e' st' /\
      st' !! this = Some v /\
      st' !! rhs = Some o /\
      Size o = 0 /\ Capacity o = 0 /\ elements o = [].
Proof.
  intros Hne Hrhs op [[-> Hthis]|[-> [w Hthis]]].
  - exists (Deallocate 0 e), (<[this := v]> (<[rhs := Vector_default]> st)),
      Vector_default.
    unfold move_construction, new_object, on_object, bind, get.
    rewrite Hthis, Hrhs, Vector_move_result.
    rewrite lookup_insert_eq, lookup_insert_ne, lookup_insert_eq by done.
    done.
  - exists (Deallocate (buffer_ (data_ w)) e),
      (<[rhs := Vector_default]> (<[this := v]> st)), Vector_default.
    unfold move_assignment, on_objects.
    destruct (Nat.eqb_spec this rhs) as [|_]; [done|].
    rewrite Hthis, Hrhs, take_over_result. simpl.
    rewrite lookup_insert_eq, lookup_insert_ne, lookup_insert_eq by done.
    done.
Qed.

Lemma RawMemory_new_cases {X} n e (x : X) :
  (exists p e',
     RawMemory_new n e x = Ret (mkRawMemory p n (replicate n None)) e' x) \/
  (exists e', RawMemory_new n e x = Throw e' x).
Proof.
  unfold RawMemory_new, Allocate, bind.
  destruct (n =? 0); simpl; [left; eauto|].
  unfold call. destruct (operator_new n (world e)) as [w [p|]]; simpl; eauto.
Qed.

Lemma bind_cong {X A B} (m m' : M X A) (k : A -> M X B) e x :
  m e x = m' e x -> bind m k e x = bind m' k e x.
Proof. intros Hm. unfold bind. by rewrite Hm. Qed.

Lemma bind_cong_k {X A B} (m : M X A) (k k' : A -> M X B) e x :
  (forall a e' x', m e x = Ret a e' x' -> k a e' x' = k' a e' x') ->
  bind m k e x = bind m k' e x.
Proof. intros Hk. unfold bind. destruct (m e x); auto. Qed.

Lemma bind_assoc {X A B C} (m : M X A) (k : A -> M X B) (j : B -> M X C) e x :
  bind (bind m k) j e x = bind m (fun a => bind (k a) j) e x.
Proof. unfold bind. destruct (m e x); auto. Qed.

Lemma effect_bind {X A B C} (m : M X A) (k : A -> M X B) (k' : A -> M X C)
    e x :
  (forall a e' x',
     m e x = Ret a e' x' -> effect (k a e' x') = effect (k' a e' x')) ->
  effect (bind m k e x) = effect (bind m k' e x).
Proof. intros Hk. unfold bind. destruct (m e x); auto. Qed.

Lemma bind_RawMemory_new_cong {X B} n (k k' : RawMemory T -> M X B) e x :
  (forall p e', k (mkRawMemory p n (replicate n None)) e' x =
                k' (mkRawMemory p n (replicate n None)) e' x) ->
  bind (RawMemory_new n) k e x = bind (RawMemory_new n) k' e x.
Proof.
  intros Hk. unfold bind at 1 2.
  destruct (RawMemory_new_cases n e x) as [(p & e' & ->)|(e' & ->)]; auto.
Qed.

Lemma scope_cong {X L A} (init : L) fini (b b' : M (X * L) A) e x :
  b e (x, init) = b' e (x, init) ->
  scope init fini b e x = scope init fini b' e x.
Proof. intros Hb. unfold scope. by rewrite Hb. Qed.

Lemma place_back_shape args e (v : Vector T) :
  wp (place_back args v)
     (fun _ _ v' => size_ v' = size_ v /\ size_ v < Capacity v')
     (fun _ _ => True) True e v.
Proof. unfold place_back. wp_go; arith. Qed.

Lemma EmplaceBack_effect args e (v : Vector T) :
  effect (EmplaceBack args e v) = effect ((place_back args v >> incr_size) e v).
Proof.
  change (EmplaceBack args e v) with
    ((place_back args v >> incr_size >>
      let* v' := get in
      let* i := RawMemory_index (data_ v') (size_ v' - 1) in
      ret (GetAddress (data_ v') + i)) e v).
  apply effect_bind; intros [] e' v' Hpb.
  pose proof (place_back_shape args e v) as Hs. unfold wp in Hs.
  rewrite Hpb in Hs. destruct Hs as [Hs Hc]. unfold Capacity in Hc.
  unfold bind, incr_size, get, RawMemory_index, assert. simpl.
  replace (size_ v' + 1 - 1 <? capacity_ (data_ v')) with true; [done|].
  symmetry. apply Nat.ltb_lt. lia.
Qed.

Lemma construct_across_by_value i (c : Ctor T) e (x : Vector T * RawMemory T) :
  by_value c ->
  zoom relocation (construct_across i c) e x =
  zoom new_cells (construct_at i c) e x.
Proof.
  intros Hc. destruct x as [[[pv cv bv] sv] [p1 c1 b1]].
  unfold construct_across, construct_at, zoom, store, cell_ok, bind; simpl.
  destruct (i <? length b1) eqn:Hi; [|done].
  destruct c as [a|y|[y|k]]; simpl; try done.
  - unfold call_args_ctor, call. simpl.
    destruct (args_ctor a (world e)).2; simpl; [by rewrite Hi|done].
  - unfold call_copy_ctor, call. simpl.
    destruct (copy_ctor y (world e)).2; simpl; [by rewrite Hi|done].
  - unfold bind, call_move_ctor, call_total. simpl.
    destruct (move_ctor y (world e)).2.2; simpl; [by rewrite Hi|done].
Qed.

Lemma PushBack_as_place_back value e (v : Vector T) :
  PushBack value e v = (place_back (CopyOf value) v >> incr_size) e v.
Proof.
  unfold PushBack. unfold bind at 1. unfold get at 1.
  apply bind_cong. unfold place_back.
  destruct (Nat.eqb_spec (size_ v) (Capacity v)) as [Hfull|Hroom].
  - apply bind_RawMemory_new_cong. intros p e'.
    apply scope_cong, bind_cong.
    unfold RawMemory_index, RawMemory_plus, CopyConstruct; simpl.
    pose proof (grown_gt (size_ v)) as Hg.
    replace (size_ v <? grown (size_ v)) with true
      by (symmetry; apply Nat.ltb_lt; lia).
    replace (size_ v <=? grown (size_ v)) with true
      by (symmetry; apply Nat.leb_le; lia).
    apply bind_cong_k. intros i e1 x1 _. symmetry.
    by apply construct_across_by_value.
  - unfold RawMemory_index, RawMemory_plus, CopyConstruct.
    replace (size_ v <? capacity_ (data_ v))
      with (size_ v <=? capacity_ (data_ v)); [done|].
    unfold Capacity in Hroom.
    destruct (Nat.leb_spec (size_ v) (capacity_ (data_ v))),
      (Nat.ltb_spec (size_ v) (capacity_ (data_ v))); try done; lia.
Qed.

Lemma bind_RawMemory_new_run {X B} n (k k' : RawMemory T -> M X B) e x :
  n <> 0 ->
  (forall p,
     (operator_new n (world e)).2 = Some p ->
     k (mkRawMemory p n (replicate n None))
       (log (EvNew n) (operator_new n (world e)).1 e) x =
     k' (mkRawMemory p n (replicate n None))
        (log (EvNew n) (operator_new n (world e)).1 e) x) ->
  bind (RawMemory_new n) k e x = bind (RawMemory_new n) k' e x.
Proof.
  intros Hn Hk. unfold bind at 1 2. unfold RawMemory_new, Allocate, bind.
  destruct (Nat.eqb_spec n 0) as [|_]; [done|]. unfold call.
  destruct (operator_new n (world e)).2 as [p|] eqn:Hp; [|done].
  by apply Hk.
Qed.

(** the [try] of [PushBack(T&&)] when the move constructor does not throw *)
Lemma move_or_copy_across value (nd : RawMemory T) i e (x : block T * block T) :
  (forall y, referent x.1 value = Some y ->
     (move_ctor y (world e)).2.2 <> None) ->
  (zoom snd_lens (cell_ok i) >>
   let* r := zoom fst_lens (move_from value) in
   match r.2 with
   | Some y => zoom snd_lens (store i y)
   | None =>
       let* j := RawMemory_index nd i in
       zoom snd_lens (CopyConstruct j r.1)
   end) e x = construct_across i (MoveOf value) e x.
Proof.
  destruct x as [b1 b2]. intros Hmove.
  unfold construct_across, construct, zoom, cell_ok, bind; simpl.
  destruct (i <? length b2) eqn:Hi; [|done].
  destruct value as [y|k]; simpl in *.
  - unfold call_move_ctor, call_total. simpl.
    specialize (Hmove y eq_refl).
    by destruct (move_ctor y (world e)).2.2.
  - unfold load, bind. destruct (b1 !! k) as [[y|]|] eqn:Hk; try done.
    unfold call_move_ctor, call_total, store, cell_ok, bind. simpl.
    destruct (k <? length b1) eqn:Hkl; [|done]. simpl.
    specialize (Hmove y eq_refl).
    by destruct (move_ctor y (world e)).2.2.
Qed.

Lemma move_or_copy_into_new value (nd : RawMemory T) s e
    (x : Vector T * RawMemory T) :
  (forall y, referent (storage (data_ x.1)) value = Some y ->
     (move_ctor y (world e)).2.2 <> None) ->
  (let* i := RawMemory_plus nd s in
   zoom relocation
     (zoom snd_lens (cell_ok i) >>
      let* r := zoom fst_lens (move_from value) in
      match r.2 with
      | Some y => zoom snd_lens (store i y)
      | None =>
          let* j := RawMemory_index nd s in
          zoom snd_lens (CopyConstruct j r.1)
      end)) e x =
  (let* i := RawMemory_plus nd s in
   zoom relocation (construct_across i (MoveOf value))) e x.
Proof.
  intros Hmove. apply bind_cong_k. intros i e1 x1 Hi.
  assert (i = s /\ e1 = e /\ x1 = x) as (-> & -> & ->).
  { unfold RawMemory_plus, assert, bind, ret, undef in Hi.
    destruct (s <=? _); [|done]. by injection Hi as <- <- <-. }
  unfold zoom at 1 4. by rewrite move_or_copy_across.
Qed.

(** [PushBack(T&&)] is [place_back] with the move constructor, unless it
    reaches its [catch]: the relocation copies, the vector is full, the block
    has been allocated and the move constructor throws *)
Lemma PushBack_rvalue_as_place_back value e (v : Vector T) :
  is_nothrow_move_constructible || negb is_copy_constructible = true \/
  size_ v <> Capacity v \/
  (operator_new (grown (size_ v)) (world e)).2 = None \/
  (forall x, referent (storage (data_ v)) value = Some x ->
     (move_ctor x (operator_new (grown (size_ v)) (world e)).1).2.2 <> None) ->
  PushBack_rvalue value e v = (place_back (MoveOf value) v >> incr_size) e v.
Proof.
  intros Hcase.
  unfold PushBack_rvalue. unfold bind at 1. unfold get at 1.
  apply bind_cong. unfold place_back.
  destruct (Nat.eqb_spec (size_ v) (Capacity v)) as [Hfull|Hroom];
    [|reflexivity].
  apply bind_RawMemory_new_run.
  { pose proof (grown_gt (size_ v)). lia. }
  intros p Hp.
  apply scope_cong. unfold SafeMove.
  destruct (is_nothrow_move_constructible || negb is_copy_constructible)
    eqn:Hflag.
  - rewrite bind_assoc. apply bind_cong_k.
    intros [] e1 [[[pv cv bv] sv] [p1 c1 b1]] _.
    unfold bind, zoom. simpl.
    destruct (uninitialized_move_n _ _ _ _ _) as [[] e2 [b2 b3]|e2 [b2 b3]|];
      try done.
    simpl. destruct (destroy_n _ _ _ _); done.
  - destruct Hcase as [?|[?|[Hnone|Hmove]]]; try done; [congruence|].
    rewrite bind_assoc.
    etrans; [by apply bind_cong, move_or_copy_into_new|].
    apply bind_cong_k. intros [] e1 [[[pv cv bv] sv] [p1 c1 b1]] _.
    unfold bind, zoom, get. simpl.
    destruct (uninitialized_copy_n _ _ _ _ _ _) as [[] e2 b2|e2 b2|]; try done.
    simpl. destruct (destroy_n _ _ _ _); done.
Qed.

Lemma Emplace_at_end args e (v : Vector T) :
  Emplace (end_ v) args e v = EmplaceBack args e v.
Proof.
  unfold Emplace. unfold bind at 1. unfold get at 1. rewrite Nat.eqb_refl.
  unfold bind at 1.
  replace ((begin v <=? end_ v) && (end_ v <=? end_ v)) with true; [done|].
  symmetry. apply andb_true_iff.
  split; apply Nat.leb_le; unfold begin, end_; lia.
Qed.

(** C8, as the code has it. [Emplace] at the end iterator is
    [EmplaceBack] with the same arguments, result included.  [Insert] of a
    [const T&] at the end does what [PushBack(const T&)] does.  [Insert] of a
    [T&&] at the end does what [PushBack(T&&)] does whenever the relocation
    moves, or no growth is needed, or the allocation fails, or the move
    construction of the value, which the call makes once the block is
    allocated, does not throw. *)
Theorem insertion_at_end_agrees (args : Ctor T) (value : T)
    (rvalue : Rvalue T) (e : Env) (v : Vector T) :
  Emplace (end_ v) args e v = EmplaceBack args e v /\
  effect (Insert (end_ v) value e v) = effect (PushBack value e v) /\
  (is_nothrow_move_constructible || negb is_copy_constructible = true \/
   size_ v <> Capacity v \/
   (operator_new (grown (size_ v)) (world e)).2 = None \/
   (forall x, referent (storage (data_ v)) rvalue = Some x ->
      (move_ctor x (operator_new (grown (size_ v)) (world e)).1).2.2
        <> None) ->
   effect (Insert_rvalue (end_ v) rvalue e v) =
   effect (PushBack_rvalue rvalue e v)).
Proof.
  split; [apply Emplace_at_end|]. split.
  - unfold Insert.
    by rewrite Emplace_at_end, EmplaceBack_effect, PushBack_as_place_back.
  - intros Hcase. unfold Insert_rvalue.
    by rewrite Emplace_at_end, EmplaceBack_effect,
      PushBack_rvalue_as_place_back.
Qed.

End Simple.

(** * Cells: what the operations on a block do *)

Section Cells.
Context {T : Type} `{Element T}.

Lemma wp_cell_ok i (Q : unit -> Env -> block T -> Prop) R (U : Prop) e b :
  (i < length b -> Q tt e b) -> (length b <= i -> U) -> wp (cell_ok i) Q R U e b.
Proof.
  intros HQ HU. unfold wp, cell_ok. destruct (Nat.ltb_spec i (length b)); auto.
Qed.

Lemma wp_load i (Q : T -> Env -> block T -> Prop) R (U : Prop) e b :
  match b !! i with Some (Some x) => Q x e b | _ => U end ->
  wp (load i) Q R U e b.
Proof. unfold wp, load. by destruct (b !! i) as [[x|]|]. Qed.

Lemma wp_peek {X} (src : block T) i (Q : T -> Env -> X -> Prop) R (U : Prop) e x :
  match src !! i with Some (Some y) => Q y e x | _ => U end ->
  wp (peek src i) Q R U e x.
Proof. unfold wp, peek. by destruct (src !! i) as [[y|]|]. Qed.

Lemma wp_store i x (Q : unit -> Env -> block T -> Prop) R (U : Prop) e b :
  (i < length b -> Q tt e (<[i := Some x]> b)) -> (length b <= i -> U) ->
  wp (store i x) Q R U e b.
Proof.
  intros HQ HU. unfold store. apply wp_bind, wp_cell_ok; auto.
Qed.

Lemma wp_release i (Q : unit -> Env -> block T -> Prop) R (U : Prop) e b :
  (i < length b -> Q tt e (<[i := None]> b)) -> (length b <= i -> U) ->
  wp (release i) Q R U e b.
Proof.
  intros HQ HU. unfold release. apply wp_bind, wp_cell_ok; auto.
Qed.

Lemma wp_call_dtor {X} x (Q : unit -> Env -> X -> Prop) R U e st :
  Q tt (destroy x e) st -> wp (call_dtor x) Q R U e st.
Proof. done. Qed.

Lemma wp_destroy_at i (Q : unit -> Env -> block T -> Prop) R (U : Prop) e b :
  match b !! i with
  | Some (Some x) => Q tt (destroy x e) (<[i := None]> b)
  | _ => U
  end ->
  wp (destroy_at i) Q R U e b.
Proof.
  intros HQ. unfold destroy_at. apply wp_bind, wp_load.
  destruct (b !! i) as [[x|]|] eqn:Hi; try done.
  apply wp_bind, wp_call_dtor, wp_release; [done|].
  intros Hlen. apply lookup_lt_Some in Hi. lia.
Qed.

Lemma destroy_n_no_throw n : forall first e (b : block T),
  wp (destroy_n first n) (fun _ _ _ => True) (fun _ _ => False) True e b.
Proof.
  induction n as [|n IH]; intros first e b; simpl; [done|].
  apply wp_bind, wp_destroy_at.
  destruct (b !! first) as [[x|]|]; [apply IH|done|done].
Qed.

(** [T(std::move(value))] changes the element it moves from and no other
    cell *)
Lemma move_from_frame value (Q : T * option T -> Env -> block T -> Prop) R
    (U : Prop) e b :
  (forall r e' b',
     after_move value b b' ->
     (r.2 = None -> exists x w, (move_ctor x w).2.2 = None) ->
     Q r e' b') ->
  U -> wp (move_from value) Q R U e b.
Proof.
  intros HQ HU. destruct value as [x|k]; simpl.
  - apply wp_call_total. intros e'. apply HQ; [done|].
    intros Hr. by exists x, (world e).
  - apply wp_bind, wp_load. destruct (b !! k) as [[x|]|] eqn:Hk; try done.
    apply wp_bind, wp_call_total. intros e'.
    apply wp_bind, wp_store; [intros _|].
    + apply wp_ret. apply HQ; [by exists x, (world e)|].
      intros Hr. by exists x, (world e).
    + intros Hlen. apply lookup_lt_Some in Hk. lia.
Qed.

(** a constructor call changes the element it moves from, if there is one,
    and no other cell; if it throws after a change, a move constructor has
    thrown *)
Lemma construct_frame c (Q : T -> Env -> block T -> Prop) R (U : Prop) e b :
  (forall y e' b', after_ctor c b b' -> Q y e' b') ->
  (forall e' b',
     after_ctor c b b' ->
     b' = b \/ (exists x w, (move_ctor x w).2.2 = None) ->
     R e' b') ->
  U -> wp (construct c) Q R U e b.
Proof.
  intros HQ HR HU. destruct c as [a|x|value]; simpl.
  - apply wp_call; [intros; by apply HQ|intros; apply HR; [done|by left]].
  - apply wp_call; [intros; by apply HQ|intros; apply HR; [done|by left]].
  - apply wp_bind, move_from_frame; [|done].
    intros [x' [y|]] e' b' Hb Hthrow; simpl in *.
    + apply wp_ret. by apply HQ.
    + apply wp_throw. apply HR; [done|]. right. by apply Hthrow.
Qed.

Lemma after_ctor_length c (b b' : block T) :
  after_ctor c b b' -> length b' = length b.
Proof.
  destruct c as [a|x|[x|k]]; simpl; try by intros ->.
  intros (x & w & _ & ->). by rewrite length_insert.
Qed.

Lemma construct_at_throw i c e (b : block T) :
  wp (construct_at i c) (fun _ _ _ => True)
     (fun _ b' =>
        after_ctor c b b' /\
        (b' = b \/ exists x w, (move_ctor x w).2.2 = None)) True e b.
Proof.
  unfold construct_at. apply wp_bind, wp_cell_ok; [|done]. intros Hi.
  apply wp_bind, construct_frame; [|done|done]. intros y e' b' Hb.
  by apply wp_store.
Qed.

Lemma construct_across_throw i c e (x : block T * block T) :
  wp (construct_across i c)
     (fun _ _ x' => after_ctor c x.1 x'.1)
     (fun _ x' =>
        after_ctor c x.1 x'.1 /\
        (x'.1 = x.1 \/ exists y w, (move_ctor y w).2.2 = None)) True e x.
Proof.
  destruct x as [b1 b2]. unfold construct_across.
  apply wp_bind, wp_zoom, wp_cell_ok; [|done]. intros Hi.
  apply wp_bind, wp_zoom, construct_frame; [|done|done].
  intros y e' b' Hb. by apply wp_zoom, wp_store.
Qed.

Lemma uninitialized_move_n_no_throw n :
  (forall x w, (move_ctor x w).2.2 <> None) ->
  forall first d_first e (x : block T * block T),
    wp (uninitialized_move_n first n d_first)
       (fun _ _ _ => True) (fun _ _ => False) True e x.
Proof.
  intros Hmove. induction n as [|n IH]; intros first d_first e x; simpl; [done|].
  apply wp_bind. unfold move_construct_across.
  apply wp_bind, wp_zoom, wp_cell_ok; [|done]. intros _.
  apply wp_bind, wp_zoom, wp_load. simpl.
  destruct (x.1 !! first) as [[y|]|]; try done. 
  apply wp_bind, wp_call_total. intros e'.
  apply wp_bind, wp_zoom, wp_store; [|done]. intros _.
  specialize (Hmove y (world e)).
  destruct (move_ctor y (world e)).2.2 as [z|]; [|done].
  apply wp_zoom, wp_store; [|done]. intros _.
  apply wp_on_throw. eapply wp_mono; [apply IH|..]; done.
Qed.

Lemma SafeMove_throw from size to e (x : block T * block T) :
  nothrow_move_sound ->
  is_nothrow_move_constructible = true \/ is_copy_constructible = true ->
  wp (SafeMove from size to) (fun _ _ _ => True)
     (fun _ x' => x'.1 = x.1 /\ is_nothrow_move_constructible = false)
     True e x.
Proof.
  intros Hsound Htraits. unfold SafeMove. apply wp_bind.
  destruct (is_nothrow_move_constructible || negb is_copy_constructible)
    eqn:Hflag.
  - assert (is_nothrow_move_constructible = true) as Hnt.
    { destruct Htraits as [?|Hc]; [done|]. rewrite Hc in Hflag. simpl in Hflag.
      by rewrite orb_false_r in Hflag. }
    eapply wp_mono; [apply uninitialized_move_n_no_throw; by apply Hsound|..];
      try done.
    intros _ e' x' _. apply wp_zoom.
    eapply wp_mono; [apply destroy_n_no_throw|..]; done.
  - apply orb_false_iff in Hflag as [Hnt _].
    apply wp_bind, wp_get, wp_zoom. apply wp_true; [|done].
    intros _ e' b'. apply wp_zoom.
    eapply wp_mono; [apply destroy_n_no_throw|..]; done.
Qed.

End Cells.

(** * The strong guarantee of [PushBack] and [EmplaceBack] *)

Section StrongGuarantee.
Context {T : Type} `{Element T}.

Lemma update_cells_same (v : Vector T) : update cells (storage (data_ v)) v = v.
Proof. by destruct v as [[p c b] n]. Qed.

(** what an exceptional exit leaves of the vector [v]: the cells [b'] in the
    same block, which are those of [v] but for an element that the
    constructor call [args] has moved from; if the move constructor is
    [noexcept], they are those of [v] *)
Abbreviation left_by args v :=
  (fun (_ : Env) (v' : Vector T) =>
     exists b',
       v' = update cells b' v /\
       (b' = storage (data_ v) \/ after_ctor args (storage (data_ v)) b') /\
       (is_nothrow_move_constructible = true -> b' = storage (data_ v))).

Lemma left_by_same args e (v : Vector T) : left_by args v e v.
Proof. exists (storage (data_ v)). rewrite update_cells_same. auto. Qed.

Lemma relocate_throw size (v : Vector T) (nd : RawMemory T) e
    (Q : unit -> Env -> Vector T * RawMemory T -> Prop) :
  nothrow_move_sound ->
  is_nothrow_move_constructible = true \/ is_copy_constructible = true ->
  (forall e' x', Q tt e' x') ->
  wp (zoom relocation (SafeMove 0 size 0)) Q
     (fun _ x' => x'.1 = v /\ is_nothrow_move_constructible = false) True
     e (v, nd).
Proof.
  intros Hsound Htraits HQ. apply wp_zoom.
  eapply wp_mono; [by apply SafeMove_throw| | |done]; cbv beta.
  - intros [] e' x' _. apply HQ.
  - intros e' [b1 b2] [Hb Hnt]. change (b1 = storage (data_ v)) in Hb. subst b1.
    split; [apply update_cells_same|done].
Qed.

Lemma place_back_strong args e (v : Vector T) :
  nothrow_move_sound ->
  is_nothrow_move_constructible = true \/ is_copy_constructible = true ->
  wp (place_back args v) (fun _ _ _ => True) (left_by args v) True e v.
Proof.
  intros Hsound Htraits. unfold place_back.
  destruct (size_ v =? Capacity v).
  - apply wp_bind, wp_RawMemory_new; [intros p e1|intros e1];
      [|apply (left_by_same args e)].
    apply wp_scope, wp_bind. unfold RawMemory_plus.
    apply wp_bind, wp_bind, wp_assert; [intros _|done]. apply wp_ret, wp_zoom.
    eapply wp_mono; [apply construct_across_throw| | |done]; cbv beta.
    + intros [] e2 [b1 b2] Hb1. simpl in Hb1. apply wp_bind. simpl (update _ _ _).
      eapply wp_mono;
        [apply (relocate_throw _ _ _ _ (fun _ _ _ => True)); done| | |done];
        cbv beta.
      * intros [] e3 x3 _. by apply wp_zoom, wp_RawMemory_Swap.
      * intros e3 x3 [-> Hnt]. simpl.
        exists b1. split; [done|]. split; [by right|]. congruence.
    + intros e2 [b1 b2] [Hb1 Hthrow]. simpl in *.
      exists b1. split; [done|]. split; [by right|]. intros Hnt.
      destruct Hthrow as [|(x & w & Hx)]; [done|]. by destruct (Hsound Hnt x w).
  - unfold RawMemory_plus.
    apply wp_bind, wp_bind, wp_assert; [intros _|done]. apply wp_ret, wp_zoom.
    eapply wp_mono; [apply construct_at_throw|..]; cbv beta; try done.
    intros e' b' [Hb Hthrow]. exists b'. split; [done|]. split; [by right|].
    intros Hnt.
    destruct Hthrow as [|(x & w & Hx)]; [done|]. by destruct (Hsound Hnt x w).
Qed.

Lemma new_cells_only {A} (m : M (block T) A) e (v : Vector T) nd
    (Q : A -> Env -> Vector T * RawMemory T -> Prop) R :
  (forall a e' nd', Q a e' (v, nd')) ->
  (forall e' nd', R e' (v, nd')) ->
  wp (zoom new_cells m) Q R True e (v, nd).
Proof.
  intros HQ HR. apply wp_zoom, wp_true; [intros; apply HQ|intros; apply HR].
Qed.

Lemma destroy_old_cells n e (x : Vector T * RawMemory T)
    (Q : unit -> Env -> Vector T * RawMemory T -> Prop) R :
  (forall e' x', Q tt e' x') ->
  wp (zoom old_cells (destroy_n 0 n)) Q R True e x.
Proof.
  intros HQ. apply wp_zoom.
  eapply wp_mono; [apply destroy_n_no_throw|..]; cbv beta; try done.
  intros [] e' b' _. apply HQ.
Qed.

Lemma PushBack_rvalue_strong value e (v : Vector T) :
  nothrow_move_sound ->
  is_nothrow_move_constructible = true \/ is_copy_constructible = true ->
  wp (PushBack_rvalue value) (fun _ _ _ => True) (left_by (MoveOf value) v)
     True e v.
Proof.
  intros Hsound Htraits. unfold PushBack_rvalue. repeat wp_pure.
  destruct (size_ v =? Capacity v).
  - apply wp_bind, wp_RawMemory_new; [intros p e1|intros e1];
      [|apply (left_by_same _ e)].
    apply wp_scope. repeat wp_pure.
    destruct (is_nothrow_move_constructible || negb is_copy_constructible)
      eqn:Hflag.
    + assert (is_nothrow_move_constructible = true) as Hnt.
      { destruct Htraits as [?|Hc]; [done|].
        by rewrite Hc, orb_false_r in Hflag. }
      unfold RawMemory_plus.
      apply wp_bind, wp_bind, wp_bind, wp_assert; [intros _|done].
      apply wp_ret, wp_zoom.
      eapply wp_mono; [apply construct_across_throw| | |done]; cbv beta.
      * intros [] e2 [b1 b2] Hb1. apply wp_zoom.
        eapply wp_mono;
          [apply uninitialized_move_n_no_throw; by apply Hsound|..]; try done.
        intros [] e3 x3 _. apply wp_bind, destroy_old_cells. intros e4 x4.
        by repeat wp_step.
      * intros e2 [b1 b2] [Hb1 Hthrow]. simpl in *.
        destruct Hthrow as [->|(x & w & Hx)];
          [|by destruct (Hsound Hnt x w)].
        exists (storage (data_ v)). auto.
    + apply orb_false_iff in Hflag as [Hnt _].
      unfold RawMemory_plus.
      apply wp_bind, wp_bind, wp_bind, wp_assert; [intros _|done].
      apply wp_ret, wp_zoom, wp_bind, wp_zoom, wp_cell_ok; [intros _|done].
      apply wp_bind, wp_zoom, move_from_frame; [|done].
      intros [x' oy] e2 b1 Hb1 _. simpl in Hb1. simpl.
      assert (forall e' (x3 : Vector T * RawMemory T),
        x3.1 = update cells b1 v -> left_by (MoveOf value) v e' x3.1) as Hleft.
      { intros e' x3 ->. exists b1. split; [done|]. split; [by right|].
        congruence. }
      destruct oy as [y|].
      * apply wp_zoom, wp_store; [intros _|done]. cbv beta.
        apply wp_bind, wp_get. simpl (update _ _ _).
        apply new_cells_only.
        -- intros [] e3 nd3.
           apply wp_bind, destroy_old_cells. intros e4 x4.
           by repeat wp_step.
        -- intros e3 nd3. by apply (Hleft e3 (_, nd3)).
      * unfold RawMemory_index. apply wp_bind, wp_bind, wp_assert;
          [intros _|done].
        apply wp_ret, wp_zoom. unfold CopyConstruct.
        eapply wp_mono; [apply construct_at_throw| | |done]; cbv beta.
        -- intros [] e3 b3 _. cbv beta.
           apply wp_bind, wp_get. simpl (update _ _ _).
           apply new_cells_only.
           ++ intros [] e4 nd4.
              apply wp_bind, destroy_old_cells. intros e5 x5.
              by repeat wp_step.
           ++ intros e4 nd4. by apply (Hleft e4 (_, nd4)).
        -- intros e3 b3 _. simpl. exists b1. split; [done|].
           split; [by right|]. congruence.
  - unfold RawMemory_plus.
    apply wp_bind, wp_bind, wp_assert; [intros _|done]. apply wp_ret, wp_zoom.
    eapply wp_mono; [apply construct_at_throw|..]; cbv beta; try done.
    intros e' b' [Hb Hthrow]. exists b'. split; [done|]. split; [by right|].
    intros Hnt.
    destruct Hthrow as [|(x & w & Hx)]; [done|]. by destruct (Hsound Hnt x w).
Qed.


Lemma after_ctor_by_value c (b b' : block T) :
  by_value c -> after_ctor c b b' -> b' = b.
Proof. by destruct c as [a|x|[x|k]]. Qed.

Lemma left_by_fields args e (v v' : Vector T) :
  left_by args v e v' ->
  (is_nothrow_move_constructible = true \/ by_value args -> v' = v) /\
  Size v' = Size v /\ Capacity v' = Capacity v /\ begin v' = begin v /\
  (storage (data_ v') = storage (data_ v) \/
   after_ctor args (storage (data_ v)) (storage (data_ v'))).
Proof.
  intros (b' & -> & Hb & Hnt). split; [|done].
  intros [Hn|Hv].
  - rewrite (Hnt Hn). apply update_cells_same.
  - destruct Hb as [->|Hb]; [apply update_cells_same|].
    rewrite (after_ctor_by_value _ _ _ Hv Hb). apply update_cells_same.
Qed.

(** C3, as the code has it.  [args] is the constructor call the operation
    makes for the new element: the copy of [value] for [PushBack(const T&)],
    the move of [rvalue] for [PushBack(T&&)].  If the move constructor of
    [T] does not throw, or [T] can be copied, and the operation exits with an
    exception, whether from the allocation, from the construction of the new
    element or from a copy while relocating, then size, capacity and block
    are those before the call, and so are the cells, but for an element of
    the vector that the call was given as a [T&&] and has moved from.  If
    the move constructor is [noexcept], or the argument is no such element,
    the vector is the one before the call. *)
Theorem push_back_strong_guarantee (value : T) (rvalue : Rvalue T)
    (args : Ctor T) (e e' : Env) (v v' : Vector T) :
  nothrow_move_sound ->
  is_nothrow_move_constructible = true \/ is_copy_constructible = true ->
  PushBack value e v = Throw e' v' /\ args = CopyOf value \/
  PushBack_rvalue rvalue e v = Throw e' v' /\ args = MoveOf rvalue \/
  EmplaceBack args e v = Throw e' v' ->
  (is_nothrow_move_constructible = true \/ by_value args -> v' = v) /\
  Size v' = Size v /\ Capacity v' = Capacity v /\ begin v' = begin v /\
  (storage (data_ v') = storage (data_ v) \/
   after_ctor args (storage (data_ v)) (storage (data_ v'))).
Proof.
  intros Hsound Htraits Hrun. apply (left_by_fields args e').
  destruct Hrun as [[Hp ->]|[[Hp ->]|Hp]].
  - rewrite PushBack_as_place_back in Hp.
    pose proof (place_back_strong (CopyOf value) e v Hsound Htraits) as Hwp.
    unfold wp in Hwp. unfold bind in Hp.
    destruct (place_back _ _ e v) as [[] e1 v1|e1 v1|];
      [discriminate| |discriminate].
    injection Hp as <- <-. exact Hwp.
  - pose proof (PushBack_rvalue_strong rvalue e v Hsound Htraits) as Hwp.
    unfold wp in Hwp. by rewrite Hp in Hwp.
  - pose proof (EmplaceBack_effect args e v) as Heff. rewrite Hp in Heff.
    pose proof (place_back_strong args e v Hsound Htraits) as Hwp.
    unfold wp in Hwp. unfold bind in Heff. simpl in Heff.
    destruct (place_back _ _ e v) as [[] e1 v1|e1 v1|];
      [discriminate| |discriminate].
    simpl in Heff. injection Heff as <- <-. exact Hwp.
Qed.

End StrongGuarantee.

(** * Growth of the capacity *)

Section Growth.
Context {T : Type} `{Element T}.

Lemma pow2_pos k : 0 < 2 ^ k.
Proof. induction k; simpl; lia. Qed.









Abbreviation grows_to v e :=
  (fun (_ : Env) (v' : Vector T) =>
     Capacity v' = Nat.max 1 (Capacity v * 2) /\
     (operator_new (Nat.max 1 (Capacity v * 2)) (world e)).2 =
       Some (buffer_ (data_ v'))).





End Growth.

(** * [Erase] *)

Section Erase.
Context {T : Type} `{Element T}.

Lemma wp_call_exact {X A} ev (f : World -> World * option A)
    (Q : A -> Env -> X -> Prop) R U e x :
  match (f (world e)).2 with
  | Some y => Q y (log ev (f (world e)).1 e) x
  | None => R (log ev (f (world e)).1 e) x
  end ->
  wp (call ev f) Q R U e x.
Proof. unfold wp, call. by destruct (f (world e)).2. Qed.

Lemma wp_call_total_exact {X A} ev (f : World -> World * A)
    (Q : A -> Env -> X -> Prop) R U e x :
  Q (f (world e)).2 (log ev (f (world e)).1 e) x ->
  wp (call_total ev f) Q R U e x.
Proof. done. Qed.

Lemma wp_move_assign_at dst src (Q : unit -> Env -> block T -> Prop) R
    (U : Prop) e b :
  match b !! dst, b !! src with
  | Some (Some x), Some (Some y) =>
      let r := move_assign x y (world e) in
      let e' := log EvMoveAssign r.1 e in
      let b' := <[dst := Some r.2.1.1]> (<[src := Some r.2.1.2]> b) in
      if r.2.2 then Q tt e' b' else R e' b'
  | _, _ => U
  end ->
  wp (move_assign_at dst src) Q R U e b.
Proof.
  intros HQ. unfold move_assign_at. apply wp_bind, wp_load.
  destruct (b !! dst) as [[x|]|] eqn:Hdst; try done.
  apply wp_bind, wp_load.
  destruct (b !! src) as [[y|]|] eqn:Hsrc; try done.
  apply wp_bind, wp_call_total_exact.
  apply lookup_lt_Some in Hdst, Hsrc.
  apply wp_bind, wp_store; [intros _|lia].
  apply wp_bind, wp_store; [intros _|rewrite length_insert; lia].
  simpl in HQ.
  destruct (move_assign x y (world e)).2.2; done.
Qed.

Lemma log_trace ev w e : trace (log ev w e) = trace e ++ [ev].
Proof. done. Qed.

Lemma move_range_spec (VS : Prop) n :
  (VS -> forall d s w,
     (move_assign d s w).2.2 = true -> (move_assign d s w).2.1.1 = s) ->
  forall d e (b : block T),
  (forall k, d <= k <= d + n -> live b k) ->
  wp (move_range (S d) n d)
     (fun _ e' b' =>
        trace e' = trace e ++ replicate n EvMoveAssign /\
        length b' = length b /\
        (forall k, k < d \/ d + n < k -> b' !! k = b !! k) /\
        live b' (d + n) /\
        (VS -> forall k, d <= k < d + n -> b' !! k = b !! S k))
     (fun _ _ => exists x y w, (move_assign x y w).2.2 = false)
     False e b.
Proof.
  intros Hvs. induction n as [|n IH]; intros d e b Hlive; simpl.
  - apply wp_ret. rewrite app_nil_r, Nat.add_0_r.
    repeat split; [|lia..]. apply Hlive. lia.
  - apply wp_bind, wp_move_assign_at.
    destruct (Hlive d) as [x Hx]; [lia|]. destruct (Hlive (S d)) as [y Hy]; [lia|].
    rewrite Hx, Hy. cbv zeta.
    destruct (move_assign x y (world e)) as [w [[x' y'] ok]] eqn:Hma. simpl.
    destruct ok; [|by exists x, y, (world e); rewrite Hma].
    pose proof (lookup_lt_Some _ _ _ Hx) as Hdl.
    pose proof (lookup_lt_Some _ _ _ Hy) as Hsl.
    eapply wp_mono; [apply IH|..]; cbv beta; try done.
    + intros k Hk. unfold live. destruct (decide (k = S d)) as [->|Hne].
      * exists y'. rewrite list_lookup_insert_ne by lia.
        by rewrite list_lookup_insert_eq.
      * rewrite !list_lookup_insert_ne by lia. apply Hlive. lia.
    + intros [] e' b' (Htr & Hlen & Hframe & Hlast & Hshift).
      rewrite log_trace in Htr. rewrite !length_insert in Hlen.
      split; [by rewrite Htr, <- app_assoc|]. split; [done|].
      split; [|split].
      * intros k Hk. rewrite Hframe by lia.
        by rewrite !list_lookup_insert_ne by lia.
      * by replace (d + S n) with (S d + n) by lia.
      * intros Hv k Hk. destruct (decide (k = d)) as [->|Hne].
        -- rewrite Hframe by lia. rewrite list_lookup_insert_eq
             by (rewrite length_insert; lia).
           rewrite Hy. do 2 f_equal.
           pose proof (Hvs Hv x y (world e)) as Heq. rewrite Hma in Heq.
           by apply Heq.
        -- rewrite Hshift by (done || lia).
           by rewrite !list_lookup_insert_ne by lia.
Qed.

(** C5. On a well-formed vector of size [s] and for a position at index
    [i < s], [Erase] has defined behaviour.  When it returns, the element
    operations it has called are [s - 1 - i] move assignments followed by one
    destructor call, on the last cell in use, which is raw memory afterwards;
    the size is [s - 1], the result is [begin() + i], and,
    [T] having value semantics, the elements are those before the call with
    the one at index [i] removed, the later ones one cell down.  It exits with
    an exception only if a move assignment of [T] throws. *)
Theorem Erase_spec (args_value : Args -> T) (v : Vector T) (i : nat) (e : Env) :
  well_formed v -> i < Size v ->
  match Erase (begin v + i) e v with
  | Ret pos e' v' =>
      Size v' = Size v - 1 /\
      trace e' =
        trace e ++ replicate (Size v - 1 - i) EvMoveAssign ++ [EvDtor] /\
      pos = begin v' + i /\
      storage (data_ v') !! (Size v - 1) = Some None /\
      (ValueSemantics args_value -> elements v' = delete i (elements v))
  | Throw _ _ => exists x y w, (move_assign x y w).2.2 = false
  | Undef => False
  end.
Proof.
  intros (Hlen & Hcap & Hlive) Hi. unfold Size in *.
  change (wp (Erase (begin v + i))
    (fun pos e' v' =>
       size_ v' = size_ v - 1 /\
       trace e' =
         trace e ++ replicate (size_ v - 1 - i) EvMoveAssign ++ [EvDtor] /\
       pos = begin v' + i /\
       storage (data_ v') !! (size_ v - 1) = Some None /\
       (ValueSemantics args_value -> elements v' = delete i (elements v)))
    (fun _ _ => exists x y w, (move_assign x y w).2.2 = false) False e v).
  unfold Erase. apply wp_bind, wp_get, wp_bind, wp_assert.
  2:{ intros Hb. apply andb_false_iff in Hb as [Hb|Hb].
      - apply Nat.leb_gt in Hb. lia.
      - apply Nat.ltb_ge in Hb. unfold end_, begin in Hb. lia. }
  intros _. unfold index_of, size_t_sub. apply wp_bind, wp_bind, wp_get.
  destruct (Nat.leb_spec (begin v) (begin v + i)) as [_|]; [|lia].
  apply wp_ret. replace (begin v + i - begin v) with i by lia.
  apply wp_bind, wp_zoom. unfold std_move.
  destruct (Nat.leb_spec (i + 1) (size_ v)) as [_|]; [|lia].
  replace (i + 1) with (S i) by lia.
  eapply wp_mono;
    [apply (move_range_spec (ValueSemantics args_value)
              (size_ v - S i) (fun V => move_assign_value _ V) i e
              (storage (data_ v)))| | |done]; cbv beta.
  { intros k Hk. apply Hlive. lia. }
  2:{ done. }
  intros [] e1 b1 (Htr & Hlen1 & Hframe & Hlast & Hshift).
  replace (i + (size_ v - S i)) with (size_ v - 1) in * by lia.
  unfold RawMemory_index. apply wp_bind, wp_bind, wp_bind, wp_assert.
  2:{ intros Hb. apply Nat.ltb_ge in Hb. lia. }
  intros _. apply wp_ret, wp_zoom, wp_destroy_at.
  change (view cells (update cells b1 v)) with b1.
  destruct Hlast as [z Hz]. rewrite Hz.
  apply wp_bind, wp_decr_size, wp_bind, wp_get, wp_ret. simpl.
  split; [done|]. split.
  { replace (size_ v - 1 - i) with (size_ v - S i) by lia.
    rewrite Htr. by rewrite <- app_assoc. }
  split; [done|]. split.
  { apply list_lookup_insert_eq. by apply lookup_lt_Some in Hz. }
  intros Hvs. unfold elements. simpl.
  rewrite take_insert_ge by lia.
  apply list_eq. intros k.
  destruct (decide (k < size_ v - 1)) as [Hk|Hk].
  - rewrite lookup_take_lt by done.
    destruct (decide (k < i)) as [Hki|Hki].
    + rewrite list_lookup_delete_lt by done.
      rewrite lookup_take_lt by lia. apply Hframe. lia.
    + rewrite list_lookup_delete_ge by lia.
      rewrite lookup_take_lt by lia. apply Hshift; [done|lia].
  - rewrite lookup_take_ge by lia.
    rewrite list_lookup_delete_ge by lia.
    by rewrite lookup_take_ge by lia.
Qed.
End Erase.

(** * Where a new element is *)

Section Position.
Context {T : Type} `{Element T}.
Variable args_value : Args -> T.

Abbreviation VS := (ValueSemantics args_value).

Lemma construct_value (c : Ctor T) (Q : T -> Env -> block T -> Prop) R
    (U : Prop) e b :
  (forall y e' b',
     (VS -> Some y = ctor_value args_value b c) -> length b' = length b ->
     Q y e' b') ->
  (forall e' b', R e' b') -> U ->
  wp (construct c) Q R U e b.
Proof.
  intros HQ HR HU. destruct c as [a|y|[y|k]]; simpl.
  - apply wp_call_exact.
    destruct (args_ctor a (world e)).2 as [z|] eqn:Hz; [|done].
    apply HQ; [|done]. intros V. simpl. f_equal.
    exact (args_ctor_value _ V a (world e) z Hz).
  - apply wp_call_exact.
    destruct (copy_ctor y (world e)).2 as [z|] eqn:Hz; [|done].
    apply HQ; [|done]. intros V. simpl. f_equal.
    exact (copy_ctor_value _ V y (world e) z Hz).
  - apply wp_bind, wp_call_total_exact.
    destruct (move_ctor y (world e)).2.2 as [z|] eqn:Hz;
      [apply wp_ret|by apply wp_throw].
    apply HQ; [|done]. intros V. simpl. f_equal.
    exact (move_ctor_value _ V y (world e) z Hz).
  - apply wp_bind, wp_bind, wp_load.
    destruct (b !! k) as [[y|]|] eqn:Hk; try done.
    apply wp_bind, wp_call_total_exact.
    apply wp_bind, wp_store; [intros _|].
    2:{ intros Hlen. apply lookup_lt_Some in Hk. lia. }
    apply wp_ret.
    destruct (move_ctor y (world e)).2.2 as [z|] eqn:Hz;
      [apply wp_ret|by apply wp_throw].
    apply HQ; [|by rewrite length_insert]. intros V. simpl. rewrite Hk.
    simpl. f_equal.
    exact (move_ctor_value _ V y (world e) z Hz).
Qed.

Lemma construct_at_cell i c e (b : block T) :
  wp (construct_at i c)
     (fun _ _ b' => VS -> b' !! i = Some (ctor_value args_value b c))
     (fun _ _ => True) True e b.
Proof.
  unfold construct_at. apply wp_bind, wp_cell_ok; [|done]. intros Hi.
  apply wp_bind, construct_value; [|done|done]. intros y e' b' Hy Hlen.
  apply wp_store; [|done]. intros _ V.
  rewrite <- (Hy V). apply list_lookup_insert_eq. lia.
Qed.

Lemma construct_across_cell i c e (x : block T * block T) :
  wp (construct_across i c)
     (fun _ _ x' =>
        length x'.2 = length x.2 /\
        (VS -> x'.2 !! i = Some (ctor_value args_value x.1 c)))
     (fun _ _ => True) True e x.
Proof.
  destruct x as [b1 b2]. unfold construct_across.
  apply wp_bind, wp_zoom, wp_cell_ok; [|done]. intros Hi. simpl in Hi.
  apply wp_bind, wp_zoom, construct_value; [|done|done].
  intros y e' b' Hy Hlen. apply wp_zoom, wp_store; [|done]. intros _.
  simpl in Hy. simpl.
  split; [by rewrite length_insert|]. intros V.
  rewrite <- (Hy V). apply list_lookup_insert_eq. lia.
Qed.

Lemma uninitialized_copy_n_frame src n : forall first d e (b : block T),
  wp (uninitialized_copy_n src first n d)
     (fun _ _ b' => forall k, k < d \/ d + n <= k -> b' !! k = b !! k)
     (fun _ _ => True) True e b.
Proof.
  induction n as [|n IH]; intros first d e b; simpl; [by apply wp_ret|].
  apply wp_bind, wp_bind, wp_cell_ok; [|done]. intros Hd.
  apply wp_bind, wp_peek. destruct (src !! first) as [[x|]|]; try done.
  apply wp_bind, wp_call; [|done]. intros y e1.
  apply wp_store; [|done]. intros _. apply wp_on_throw.
  eapply wp_mono; [apply IH|..]; cbv beta; try done.
  - intros [] e2 b2 Hframe k Hk. rewrite Hframe by lia.
    by rewrite list_lookup_insert_ne by lia.
  - intros e2 b2 _. by apply wp_true.
Qed.

Lemma uninitialized_move_n_frame n : forall first d e (x : block T * block T),
  wp (uninitialized_move_n first n d)
     (fun _ _ x' => forall k, k < d \/ d + n <= k -> x'.2 !! k = x.2 !! k)
     (fun _ _ => True) True e x.
Proof.
  induction n as [|n IH]; intros first d e [b1 b2]; simpl; [by apply wp_ret|].
  apply wp_bind. unfold move_construct_across.
  apply wp_bind, wp_zoom, wp_cell_ok; [|done]. intros _.
  apply wp_bind, wp_zoom, wp_load. simpl.
  destruct (b1 !! first) as [[y|]|]; try done.
  apply wp_bind, wp_call_total. intros e'.
  apply wp_bind, wp_zoom, wp_store; [|done]. intros _. simpl.
  destruct (move_ctor y (world e)).2.2 as [z|]; [|done].
  apply wp_zoom, wp_store; [|done]. intros _. simpl.
  apply wp_on_throw.
  eapply wp_mono; [apply IH|..]; cbv beta; try done.
  - intros [] e2 [b3 b4] Hframe k Hk. simpl in *. rewrite Hframe by lia.
    by rewrite list_lookup_insert_ne by lia.
  - intros e2 b2' _. by apply wp_true.
Qed.

Lemma SafeMove_frame from n to e (x : block T * block T) :
  wp (SafeMove from n to)
     (fun _ _ x' => forall k, k < to \/ to + n <= k -> x'.2 !! k = x.2 !! k)
     (fun _ _ => True) True e x.
Proof.
  unfold SafeMove. apply wp_bind.
  destruct (is_nothrow_move_constructible || negb is_copy_constructible).
  - eapply wp_mono; [apply uninitialized_move_n_frame|..]; cbv beta; try done.
    intros [] e1 x1 Hframe. apply wp_zoom, wp_true; done.
  - apply wp_bind, wp_get, wp_zoom.
    eapply wp_mono; [apply uninitialized_copy_n_frame|..]; cbv beta; try done.
    intros [] e1 b1 Hframe. apply wp_zoom, wp_true; done.
Qed.


Abbreviation holds_new v v' index args :=
  (VS -> storage (data_ v') !! index =
         Some (ctor_value args_value (storage (data_ v)) args)).

Lemma EmplaceBack_position args e (v : Vector T) :
  wp (EmplaceBack args)
     (fun p _ v' =>
        p = begin v' + (size_ v' - 1) /\ size_ v' = size_ v + 1 /\
        holds_new v v' (size_ v) args)
     (fun _ _ => True) True e v.
Proof.
  unfold EmplaceBack. apply wp_bind, wp_get, wp_bind.
  destruct (size_ v =? Capacity v).
  - apply wp_bind, wp_RawMemory_new; [intros p e1|done]. apply wp_scope.
    apply wp_bind. unfold RawMemory_plus.
    apply wp_bind, wp_bind, wp_assert; [intros Hle|done].
    apply wp_ret, wp_zoom.
    eapply wp_mono; [apply construct_across_cell| |done|done]; cbv beta.
    intros [] e2 [b1 b2] (Hlen & Hy). simpl in Hlen, Hy.
    apply wp_bind, wp_zoom.
    eapply wp_mono; [apply SafeMove_frame| |done|done]; cbv beta.
    intros [] e3 [b3 b4] Hframe. apply wp_zoom, wp_RawMemory_Swap. simpl.
    apply wp_bind, wp_incr_size, wp_bind, wp_get.
    unfold RawMemory_index. apply wp_bind, wp_bind, wp_assert; [intros _|done].
    apply wp_ret, wp_ret. simpl.
    split; [done|]. split; [done|]. intros V.
    simpl in Hframe. rewrite Hframe by lia. by apply Hy.
  - unfold RawMemory_plus.
    apply wp_bind, wp_bind, wp_assert; [intros Hle|done].
    apply wp_ret, wp_zoom.
    eapply wp_mono; [apply construct_at_cell| |done|done]; cbv beta.
    intros [] e2 b2 Hy.
    apply wp_bind, wp_incr_size, wp_bind, wp_get.
    unfold RawMemory_index. apply wp_bind, wp_bind, wp_assert; [intros _|done].
    apply wp_ret, wp_ret. simpl.
    split; [done|]. split; [done|]. intros V. by apply Hy.
Qed.

Lemma EmplaceWithReallocate_position pos args e (v : Vector T) :
  wp (EmplaceWithReallocate pos args)
     (fun p _ v' =>
        p = begin v' + (pos - begin v) /\ size_ v' = size_ v + 1 /\
        holds_new v v' (pos - begin v) args)
     (fun _ _ => True) True e v.
Proof.
  unfold EmplaceWithReallocate, index_of, size_t_sub at 1.
  apply wp_bind, wp_get.
  apply wp_bind, wp_bind, wp_get.
  destruct (begin v <=? pos); [apply wp_ret|done].
  set (index := pos - begin v).
  apply wp_bind, wp_RawMemory_new; [intros p e1|done].
  apply wp_bind, wp_scope.
  apply wp_bind. unfold RawMemory_plus at 1.
  apply wp_bind, wp_bind, wp_assert; [intros Hle|done].
  apply wp_ret, wp_zoom.
  eapply wp_mono; [apply construct_across_cell| |done|done]; cbv beta.
  intros [] e2 [b1 b2] (Hlen & Hy). simpl in Hlen, Hy.
  apply wp_bind, wp_on_throw, wp_zoom.
  eapply wp_mono; [apply SafeMove_frame| | |done]; cbv beta.
  2:{ intros e3 x3 _. by apply wp_true. }
  intros [] e3 [b3 b4] Hframe1. simpl in Hframe1.
  apply wp_bind, wp_on_throw. unfold RawMemory_plus.
  apply wp_bind, wp_bind, wp_assert; [intros _|done]. apply wp_ret.
  apply wp_bind. unfold size_t_sub.
  destruct (index <=? size_ v); [apply wp_ret|done].
  apply wp_bind, wp_bind, wp_assert; [intros _|done]. apply wp_ret.
  apply wp_zoom.
  eapply wp_mono; [apply SafeMove_frame| | |done]; cbv beta.
  2:{ intros e4 x4 _. by apply wp_true. }
  intros [] e4 [b5 b6] Hframe2. simpl in Hframe2.
  apply wp_zoom, wp_RawMemory_Swap. simpl.
  apply wp_bind, wp_incr_size, wp_bind, wp_get, wp_ret. simpl.
  split; [done|]. split; [done|]. intros V.
  rewrite Hframe2, Hframe1 by lia. by apply Hy.
Qed.

Lemma move_assign_from_local_cell dst e (x : block T * T) :
  wp (move_assign_from_local dst)
     (fun _ _ x' =>
        exists d', x'.1 = <[dst := Some d']> x.1 /\ dst < length x.1 /\
                   (VS -> d' = x.2))
     (fun _ _ => True) True e x.
Proof.
  destruct x as [b t]. unfold move_assign_from_local.
  apply wp_bind, wp_zoom, wp_load. simpl.
  destruct (b !! dst) as [[d|]|] eqn:Hd; try done.
  apply wp_bind, wp_zoom, wp_get. simpl.
  apply wp_bind, wp_call_total_exact.
  apply wp_bind, wp_zoom, wp_put. simpl.
  apply wp_bind, wp_zoom, wp_store; [intros Hlt|done]. simpl.
  destruct (move_assign d t (world e)).2.2 eqn:Hok; [apply wp_ret|done].
  eexists. split; [done|]. split; [done|].
  intros V. exact (move_assign_value _ V d t (world e) Hok).
Qed.

Lemma EmplaceWithoutReallocate_position pos args e (v : Vector T) :
  wp (EmplaceWithoutReallocate pos args)
     (fun p _ v' =>
        p = begin v' + (pos - begin v) /\ size_ v' = size_ v + 1 /\
        holds_new v v' (pos - begin v) args)
     (fun _ _ => True) True e v.
Proof.
  unfold EmplaceWithoutReallocate, index_of, size_t_sub at 1.
  apply wp_bind, wp_get.
  apply wp_bind, wp_bind, wp_get.
  destruct (begin v <=? pos); [apply wp_ret|done].
  set (index := pos - begin v).
  apply wp_bind, wp_zoom, construct_value; [intros y e1 b1 Hy _|done|done].
  apply wp_bind, wp_scope.
  apply wp_bind, wp_bind. unfold size_t_sub at 1.
  destruct (1 <=? size_ v); [apply wp_ret|done].
  unfold RawMemory_index at 1.
  apply wp_bind, wp_bind, wp_assert; [intros _|done]. apply wp_ret.
  apply wp_zoom, wp_true; [|done]. intros [] e2 b2.
  apply wp_bind, wp_bind. unfold size_t_sub at 1.
  destruct (1 <=? size_ v); [apply wp_ret|done].
  apply wp_zoom, wp_true; [|done]. intros [] e3 b3.
  unfold RawMemory_index.
  apply wp_bind, wp_bind, wp_assert; [intros _|done]. apply wp_ret.
  apply wp_zoom.
  eapply wp_mono; [apply move_assign_from_local_cell| |done|done]; cbv beta.
  intros [] e4 [b4 t4] (d' & Hb4 & Hlt & Hd'). simpl in *. subst b4.
  apply wp_bind, wp_incr_size, wp_bind, wp_get, wp_ret. simpl.
  split; [done|]. split; [done|]. intros V.
  rewrite list_lookup_insert_eq by done. by rewrite Hd', Hy.
Qed.

Lemma Emplace_position pos args e (v : Vector T) :
  wp (Emplace pos args)
     (fun p _ v' =>
        p = begin v' + (pos - begin v) /\ size_ v' = size_ v + 1 /\
        holds_new v v' (pos - begin v) args)
     (fun _ _ => True) True e v.
Proof.
  unfold Emplace. apply wp_bind, wp_get.
  destruct (Nat.eqb_spec pos (end_ v)) as [->|Hne].
  - apply wp_bind, wp_assert; [intros _|done].
    eapply wp_mono; [apply EmplaceBack_position| |done|done]; cbv beta.
    intros p e' v' (-> & Hs & Hcell).
    replace (end_ v - begin v) with (size_ v) by (unfold end_, begin; lia).
    split; [f_equal; lia|done].
  - destruct (size_ v =? Capacity v).
    + apply EmplaceWithReallocate_position.
    + apply EmplaceWithoutReallocate_position.
Qed.

(** C10. A successful insertion reports where the new element is.
    [EmplaceBack] returns the address of the last element, [begin() + size - 1]
    after the call; [Emplace] and both [Insert]s return [begin()], taken after
    the call, plus the index [pos - begin()] taken before it.  [T] having
    value semantics, the cell at that index holds the value the call was
    given: for a [T&&], the value of the object it referred to before the
    call.  The size has grown by one. *)
Theorem insertion_reports_position (args : Ctor T) (value : T)
    (rvalue : Rvalue T) (pos p : nat) (e e' : Env) (v v' : Vector T) :
  (EmplaceBack args e v = Ret p e' v' ->
   Size v' = Size v + 1 /\ p = begin v' + (Size v' - 1) /\
   (VS -> storage (data_ v') !! (Size v' - 1) =
            Some (ctor_value args_value (storage (data_ v)) args))) /\
  (Emplace pos args e v = Ret p e' v' ->
   Size v' = Size v + 1 /\ p = begin v' + (pos - begin v) /\
   (VS -> storage (data_ v') !! (pos - begin v) =
            Some (ctor_value args_value (storage (data_ v)) args))) /\
  (Insert pos value e v = Ret p e' v' ->
   Size v' = Size v + 1 /\ p = begin v' + (pos - begin v) /\
   (VS -> storage (data_ v') !! (pos - begin v) = Some (Some value))) /\
  (Insert_rvalue pos rvalue e v = Ret p e' v' ->
   Size v' = Size v + 1 /\ p = begin v' + (pos - begin v) /\
   (VS -> storage (data_ v') !! (pos - begin v) =
            Some (referent (storage (data_ v)) rvalue))).
Proof.
  split; [|split; [|split]].
  - intros Hrun. pose proof (EmplaceBack_position args e v) as Hwp.
    unfold wp in Hwp. rewrite Hrun in Hwp. destruct Hwp as (-> & Hs & Hcell).
    unfold Size. rewrite Hs. replace (size_ v + 1 - 1) with (size_ v) by lia.
    done.
  - intros Hrun. pose proof (Emplace_position pos args e v) as Hwp.
    unfold wp in Hwp. rewrite Hrun in Hwp. destruct Hwp as (-> & Hs & Hcell).
    done.
  - intros Hrun.
    pose proof (Emplace_position pos (CopyOf value) e v) as Hwp.
    unfold wp in Hwp. unfold Insert in Hrun. rewrite Hrun in Hwp.
    destruct Hwp as (-> & Hs & Hcell). done.
  - intros Hrun.
    pose proof (Emplace_position pos (MoveOf rvalue) e v) as Hwp.
    unfold wp in Hwp. unfold Insert_rvalue in Hrun. rewrite Hrun in Hwp.
    destruct Hwp as (-> & Hs & Hcell). done.
Qed.

End Position.

(** * What the operations do, step by step

    Exact specifications of the algorithms on blocks and of the member
    functions on well-formed vectors: the trace, the cells, and what an
    exceptional exit leaves. *)

Section Exact.
Context {T : Type} `{Element T}.

(** what is known of the objects the constructors make: nothing ([V] is
    [False]) or that they equal their source ([V] is value semantics) *)
Variable V : Prop.
Hypothesis copy_law :
  V -> forall x w y, (copy_ctor x w).2 = Some y -> y = x.
Hypothesis move_law :
  V -> forall x w y, (move_ctor x w).2.2 = Some y -> y = x.
Hypothesis copy_assign_law :
  V -> forall d s w,
    (copy_assign d s w).2.2 = true -> (copy_assign d s w).2.1 = s.
Hypothesis move_assign_law :
  V -> forall d s w,
    (move_assign d s w).2.2 = true -> (move_assign d s w).2.1.1 = s.

(** two specifications of one computation hold together *)
Lemma wp_both {X A} {m : M X A} {Q1 Q2 R1 R2} {U1 : Prop} (U2 : Prop) {e x} :
  wp m Q1 R1 U1 e x -> wp m Q2 R2 U2 e x ->
  wp m (fun a e' x' => Q1 a e' x' /\ Q2 a e' x')
       (fun e' x' => R1 e' x' /\ R2 e' x') U1 e x.
Proof. unfold wp. destruct (m e x); auto. Qed.

Lemma trace_destroy (x : T) e : trace (destroy x e) = trace e ++ [EvDtor].
Proof. done. Qed.

Lemma replicate_cons_app {A} n (a : A) : a :: replicate n a = replicate n a ++ [a].
Proof. induction n as [|n IH]; simpl; [done|]. by rewrite <- IH. Qed.

(** [std::destroy_n] on [n] live cells: [n] destructor calls, the cells are
    raw memory afterwards and no other cell changes; it does not throw *)
Lemma destroy_n_spec n : forall first e (b : block T),
  (forall k, first <= k < first + n -> live b k) ->
  wp (destroy_n first n)
     (fun _ e' b' =>
        trace e' = trace e ++ replicate n EvDtor /\
        length b' = length b /\
        (forall k, first <= k < first + n -> b' !! k = Some None) /\
        (forall k, k < first \/ first + n <= k -> b' !! k = b !! k))
     (fun _ _ => False) False e b.
Proof.
  induction n as [|n IH]; intros first e b Hlive; simpl.
  - apply wp_ret. rewrite app_nil_r. repeat split; (lia || done).
  - apply wp_bind, wp_destroy_at.
    destruct (Hlive first) as [x Hx]; [lia|]. rewrite Hx.
    pose proof (lookup_lt_Some _ _ _ Hx) as Hlt.
    eapply wp_mono; [apply IH|..]; cbv beta; try done.
    + intros k Hk. unfold live. rewrite list_lookup_insert_ne by lia.
      apply Hlive. lia.
    + intros [] e' b' (Htr & Hlen & Hraw & Hframe).
      rewrite trace_destroy in Htr. rewrite length_insert in Hlen.
      split; [by rewrite Htr, <- app_assoc|]. split; [done|]. split.
      * intros k Hk. destruct (decide (k = first)) as [->|Hne].
        -- rewrite Hframe by lia. by apply list_lookup_insert_eq.
        -- apply Hraw. lia.
      * intros k Hk. rewrite Hframe by lia.
        by rewrite list_lookup_insert_ne by lia.
Qed.


(** [std::uninitialized_copy_n] from live cells into a range of the block:
    [n] copies.  When copy [j + 1] throws, the [j] objects made are destroyed,
    so that cells [d .. d + j) are raw and no other cell has changed. *)
Lemma uninitialized_copy_n_spec src n : forall first d e (b : block T),
  (forall k, k < n -> live src (first + k)) ->
  d + n <= length b ->
  wp (uninitialized_copy_n src first n d)
     (fun _ e' b' =>
        trace e' = trace e ++ replicate n EvCopyCtor /\
        length b' = length b /\
        (forall k, k < d \/ d + n <= k -> b' !! k = b !! k) /\
        (forall k, k < n -> live b' (d + k)) /\
        (V -> forall k, k < n -> b' !! (d + k) = src !! (first + k)))
     (fun e' b' =>
        exists j, j < n /\
          trace e' =
            trace e ++ replicate (S j) EvCopyCtor ++ replicate j EvDtor /\
          length b' = length b /\
          (forall k, d <= k < d + j -> b' !! k = Some None) /\
          (forall k, k < d \/ d + j <= k -> b' !! k = b !! k))
     False e b.
Proof using copy_law.
  induction n as [|n IH]; intros first d e b Hsrc Hroom; simpl.
  - apply wp_ret. rewrite app_nil_r. repeat split; (lia || done).
  - apply wp_bind, wp_bind, wp_cell_ok; [intros _|lia].
    apply wp_bind, wp_peek.
    destruct (Hsrc 0) as [x Hx]; [lia|]. rewrite Nat.add_0_r in Hx. rewrite Hx.
    apply wp_bind, wp_call_exact.
    destruct (copy_ctor x (world e)) as [w [y|]] eqn:Hcc; cbn [fst snd].
    2:{ exists 0. rewrite log_trace, app_nil_r. repeat split; (lia || done). }
    apply wp_store; [intros _|lia]. apply wp_on_throw.
    eapply wp_mono; [apply (IH (S first) (S d))|..]; cbv beta; try done.
    + intros k Hk. replace (S first + k) with (first + S k) by lia.
      apply Hsrc. lia.
    + rewrite length_insert. lia.
    + intros [] e' b' (Htr & Hlen & Hframe & Hlive & Hval).
      rewrite log_trace in Htr. rewrite length_insert in Hlen.
      split; [by rewrite Htr, <- app_assoc|]. split; [done|].
      assert (b' !! d = Some (Some y)) as Hd.
      { rewrite Hframe by lia. apply list_lookup_insert_eq. lia. }
      split; [|split].
      * intros k Hk. rewrite Hframe by lia.
        by rewrite list_lookup_insert_ne by lia.
      * intros [|k] Hk; [rewrite Nat.add_0_r; by exists y|].
        replace (d + S k) with (S d + k) by lia. apply Hlive. lia.
      * intros HV [|k] Hk.
        -- rewrite !Nat.add_0_r, Hd, Hx. do 2 f_equal.
           apply (copy_law HV x (world e)). by rewrite Hcc.
        -- replace (d + S k) with (S d + k) by lia.
           replace (first + S k) with (S first + k) by lia.
           apply Hval; [done|lia].
    + intros e' b' (j & Hj & Htr & Hlen & Hraw & Hframe).
      rewrite log_trace in Htr. rewrite length_insert in Hlen.
      apply wp_destroy_at. rewrite Hframe by lia.
      rewrite list_lookup_insert_eq by lia.
      exists (S j). split; [lia|]. split; [|split; [|split]].
      * rewrite trace_destroy, Htr. simpl.
        rewrite <- !app_assoc. simpl. do 2 f_equal.
        rewrite <- app_assoc. f_equal. by rewrite replicate_cons_app.
      * by rewrite length_insert.
      * intros k Hk. destruct (decide (k = d)) as [->|Hne].
        -- apply list_lookup_insert_eq. lia.
        -- rewrite list_lookup_insert_ne by lia. apply Hraw. lia.
      * intros k Hk. rewrite list_lookup_insert_ne by lia.
        rewrite Hframe by lia. by rewrite list_lookup_insert_ne by lia.
Qed.


(** [std::uninitialized_value_construct_n], in the same way *)
Lemma uninitialized_value_construct_n_spec n : forall d e (b : block T),
  d + n <= length b ->
  wp (uninitialized_value_construct_n d n)
     (fun _ e' b' =>
        trace e' = trace e ++ replicate n EvDefaultCtor /\
        length b' = length b /\
        (forall k, k < d \/ d + n <= k -> b' !! k = b !! k) /\
        (forall k, k < n -> live b' (d + k)))
     (fun e' b' =>
        exists j, j < n /\
          trace e' =
            trace e ++ replicate (S j) EvDefaultCtor ++ replicate j EvDtor /\
          length b' = length b /\
          (forall k, d <= k < d + j -> b' !! k = Some None) /\
          (forall k, k < d \/ d + j <= k -> b' !! k = b !! k))
     False e b.
Proof.
  induction n as [|n IH]; intros d e b Hroom; simpl.
  - apply wp_ret. rewrite app_nil_r. repeat split; (lia || done).
  - apply wp_bind, wp_bind, wp_cell_ok; [intros _|lia].
    apply wp_bind, wp_call_exact.
    destruct (default_ctor (world e)) as [w [y|]] eqn:Hcc; cbn [fst snd].
    2:{ exists 0. rewrite log_trace, app_nil_r. repeat split; (lia || done). }
    apply wp_store; [intros _|lia]. apply wp_on_throw.
    eapply wp_mono; [apply (IH (S d))|..]; cbv beta; try done.
    + rewrite length_insert. lia.
    + intros [] e' b' (Htr & Hlen & Hframe & Hlive).
      rewrite log_trace in Htr. rewrite length_insert in Hlen.
      split; [by rewrite Htr, <- app_assoc|]. split; [done|].
      assert (b' !! d = Some (Some y)) as Hd.
      { rewrite Hframe by lia. apply list_lookup_insert_eq. lia. }
      split.
      * intros k Hk. rewrite Hframe by lia.
        by rewrite list_lookup_insert_ne by lia.
      * intros [|k] Hk; [rewrite Nat.add_0_r; by exists y|].
        replace (d + S k) with (S d + k) by lia. apply Hlive. lia.
    + intros e' b' (j & Hj & Htr & Hlen & Hraw & Hframe).
      rewrite log_trace in Htr. rewrite length_insert in Hlen.
      apply wp_destroy_at. rewrite Hframe by lia.
      rewrite list_lookup_insert_eq by lia.
      exists (S j). split; [lia|]. split; [|split; [|split]].
      * rewrite trace_destroy, Htr. simpl.
        rewrite <- !app_assoc. simpl. do 2 f_equal.
        rewrite <- app_assoc. f_equal. by rewrite replicate_cons_app.
      * by rewrite length_insert.
      * intros k Hk. destruct (decide (k = d)) as [->|Hne].
        -- apply list_lookup_insert_eq. lia.
        -- rewrite list_lookup_insert_ne by lia. apply Hraw. lia.
      * intros k Hk. rewrite list_lookup_insert_ne by lia.
        rewrite Hframe by lia. by rewrite list_lookup_insert_ne by lia.
Qed.

Lemma live_insert (b : block T) i k (y : T) :
  live b k -> live (<[i := Some y]> b) k.
Proof.
  intros [x Hx]. unfold live. destruct (decide (k = i)) as [->|Hne].
  - exists y. apply list_lookup_insert_eq. by apply lookup_lt_Some in Hx.
  - exists x. by rewrite list_lookup_insert_ne.
Qed.

(** [std::uninitialized_move_n]: the source cells stay live, holding what the
    move constructor left in them *)
Lemma uninitialized_move_n_spec n : forall first d e (x : block T * block T),
  (forall k, k < n -> live x.1 (first + k)) ->
  d + n <= length x.2 ->
  wp (uninitialized_move_n first n d)
     (fun _ e' x' =>
        trace e' = trace e ++ replicate n EvMoveCtor /\
        length x'.1 = length x.1 /\
        (forall k, k < first \/ first + n <= k -> x'.1 !! k = x.1 !! k) /\
        (forall k, k < n -> live x'.1 (first + k)) /\
        length x'.2 = length x.2 /\
        (forall k, k < d \/ d + n <= k -> x'.2 !! k = x.2 !! k) /\
        (forall k, k < n -> live x'.2 (d + k)) /\
        (V -> forall k, k < n -> x'.2 !! (d + k) = x.1 !! (first + k)))
     (fun e' x' =>
        length x'.1 = length x.1 /\
        (forall k, live x.1 k -> live x'.1 k) /\
        (forall k, k < first \/ first + n <= k -> x'.1 !! k = x.1 !! k) /\
        exists j, j < n /\
          trace e' =
            trace e ++ replicate (S j) EvMoveCtor ++ replicate j EvDtor /\
          length x'.2 = length x.2 /\
          (forall k, d <= k < d + j -> x'.2 !! k = Some None) /\
          (forall k, k < d \/ d + j <= k -> x'.2 !! k = x.2 !! k))
     False e x.
Proof using move_law.
  induction n as [|n IH]; intros first d e [b1 b2] Hsrc Hroom;
    cbn [fst snd] in *; simpl.
  - apply wp_ret. rewrite app_nil_r. repeat split; (lia || done).
  - apply wp_bind. unfold move_construct_across.
    apply wp_bind, wp_zoom, wp_cell_ok; [intros _|simpl; lia].
    apply wp_bind, wp_zoom, wp_load. cbn [view update fst_lens snd_lens fst snd].
    destruct (Hsrc 0) as [y Hy]; [lia|]. rewrite Nat.add_0_r in Hy. rewrite Hy.
    pose proof (lookup_lt_Some _ _ _ Hy) as Hlt.
    apply wp_bind, wp_call_total_exact.
    destruct (move_ctor y (world e)) as [w [y' oz]] eqn:Hmc; cbn [fst snd].
    apply wp_bind, wp_zoom, wp_store; [intros _|simpl; lia].
    cbn [view update fst_lens snd_lens fst snd].
    destruct oz as [z|].
    2:{ apply wp_throw. cbn [fst snd]. rewrite length_insert.
        split; [done|]. split; [intros k; apply live_insert|].
        split; [intros k Hk; by rewrite list_lookup_insert_ne by lia|].
        exists 0. rewrite log_trace, app_nil_r.
        repeat split; (lia || done). }
    apply wp_zoom, wp_store; [intros _|simpl; lia].
    cbn [view update fst_lens snd_lens fst snd].
    apply wp_on_throw.
    eapply wp_mono; [apply (IH (S first) (S d))|..]; cbn [fst snd]; cbv beta;
      try done.
    + intros k Hk. replace (S first + k) with (first + S k) by lia.
      apply live_insert, Hsrc. lia.
    + rewrite length_insert. lia.
    + intros [] e' [c1 c2]
        (Htr & Hlen1 & Hframe1 & Hlive1 & Hlen2 & Hframe2 & Hlive2 & Hval).
      cbn [fst snd] in *.
      rewrite log_trace in Htr. rewrite length_insert in Hlen1, Hlen2.
      split; [by rewrite Htr, <- app_assoc|]. split; [done|].
      assert (c2 !! d = Some (Some z)) as Hd.
      { rewrite Hframe2 by lia. apply list_lookup_insert_eq. lia. }
      assert (c1 !! first = Some (Some y')) as Hf.
      { rewrite Hframe1 by lia. apply list_lookup_insert_eq. lia. }
      split; [|split; [|split; [done|split; [|split]]]].
      * intros k Hk. rewrite Hframe1 by lia.
        by rewrite list_lookup_insert_ne by lia.
      * intros [|k] Hk; [rewrite Nat.add_0_r; by exists y'|].
        replace (first + S k) with (S first + k) by lia. apply Hlive1. lia.
      * intros k Hk. rewrite Hframe2 by lia.
        by rewrite list_lookup_insert_ne by lia.
      * intros [|k] Hk; [rewrite Nat.add_0_r; by exists z|].
        replace (d + S k) with (S d + k) by lia. apply Hlive2. lia.
      * intros HV [|k] Hk.
        -- rewrite !Nat.add_0_r, Hd, Hy. do 2 f_equal.
           apply (move_law HV y (world e)). by rewrite Hmc.
        -- replace (d + S k) with (S d + k) by lia.
           replace (first + S k) with (S first + k) by lia.
           rewrite Hval by (done || lia).
           by rewrite list_lookup_insert_ne by lia.
    + intros e' [c1 c2]
        (Hlen1 & Hlive1 & Hsrc1 & j & Hj & Htr & Hlen2 & Hraw & Hframe).
      cbn [fst snd] in *.
      rewrite log_trace in Htr. rewrite length_insert in Hlen1, Hlen2.
      apply wp_zoom, wp_destroy_at.
      cbn [view update fst_lens snd_lens fst snd].
      rewrite Hframe by lia. rewrite list_lookup_insert_eq by lia.
      split; [done|]. split; [intros k Hk; by apply Hlive1, live_insert|].
      split.
      { intros k Hk. rewrite Hsrc1 by lia.
        by rewrite list_lookup_insert_ne by lia. }
      exists (S j). split; [lia|]. split; [|split; [|split]].
      * rewrite trace_destroy, Htr. simpl.
        rewrite <- !app_assoc. simpl. do 2 f_equal.
        rewrite <- app_assoc. f_equal. by rewrite replicate_cons_app.
      * by rewrite length_insert.
      * intros k Hk. destruct (decide (k = d)) as [->|Hne].
        -- apply list_lookup_insert_eq. lia.
        -- rewrite list_lookup_insert_ne by lia. apply Hraw. lia.
      * intros k Hk. rewrite list_lookup_insert_ne by lia.
        rewrite Hframe by lia. by rewrite list_lookup_insert_ne by lia.
Qed.


(** [SafeMove]: [n] relocations, then [n] destructor calls on the source
    cells, which are raw memory afterwards.  When a relocation throws, the
    source cells are live and the target range holds no object made here. *)
Lemma SafeMove_spec from n to e (x : block T * block T) :
  (forall k, k < n -> live x.1 (from + k)) ->
  to + n <= length x.2 ->
  wp (SafeMove from n to)
     (fun _ e' x' =>
        trace e' =
          trace e ++ replicate n relocation_event ++ replicate n EvDtor /\
        length x'.1 = length x.1 /\
        (forall k, from <= k < from + n -> x'.1 !! k = Some None) /\
        (forall k, k < from \/ from + n <= k -> x'.1 !! k = x.1 !! k) /\
        length x'.2 = length x.2 /\
        (forall k, k < to \/ to + n <= k -> x'.2 !! k = x.2 !! k) /\
        (forall k, k < n -> live x'.2 (to + k)) /\
        (V -> forall k, k < n -> x'.2 !! (to + k) = x.1 !! (from + k)))
     (fun e' x' =>
        length x'.1 = length x.1 /\
        (forall k, live x.1 k -> live x'.1 k) /\
        (forall k, k < from \/ from + n <= k -> x'.1 !! k = x.1 !! k) /\
        length x'.2 = length x.2 /\
        exists j, j < n /\
          trace e' =
            trace e ++ replicate (S j) relocation_event ++ replicate j EvDtor /\
          (forall k, to <= k < to + j -> x'.2 !! k = Some None) /\
          (forall k, k < to \/ to + j <= k -> x'.2 !! k = x.2 !! k))
     False e x.
Proof using copy_law move_law.
  destruct x as [b1 b2]. cbn [fst snd]. intros Hsrc Hroom.
  unfold SafeMove, relocation_event. apply wp_bind.
  destruct (is_nothrow_move_constructible || negb is_copy_constructible).
  - eapply wp_mono;
      [apply (uninitialized_move_n_spec n from to e (b1, b2)); done|..];
      cbn [fst snd]; cbv beta; try done.
    + intros [] e1 [c1 c2]
        (Htr & Hlen1 & Hframe1 & Hlive1 & Hlen2 & Hframe2 & Hlive2 & Hval).
      cbn [fst snd] in *. apply wp_zoom.
      cbn [view update fst_lens snd_lens fst snd].
      eapply wp_mono; [apply destroy_n_spec|..]; cbv beta; try done.
      * intros k Hk. replace k with (from + (k - from)) by lia.
        apply Hlive1. lia.
      * intros [] e2 d1 (Htr' & Hlen' & Hraw & Hframe'). cbn [fst snd].
        split; [by rewrite Htr', Htr, <- app_assoc|].
        split; [lia|]. split; [done|]. split; [|done].
        intros k Hk. rewrite Hframe' by lia. by apply Hframe1.
    + intros e1 [c1 c2]
        (Hlen1 & Hlive1 & Hsrc1 & j & Hj & Htr & Hlen2 & Hraw & Hframe).
      cbn [fst snd] in *. repeat split; try done. by exists j.
  - apply wp_bind, wp_get, wp_zoom.
    cbn [view update fst_lens snd_lens fst snd].
    eapply wp_mono;
      [apply (uninitialized_copy_n_spec b1 n from to e b2); done|..];
      cbv beta; try done.
    + intros [] e1 c2 (Htr & Hlen2 & Hframe2 & Hlive2 & Hval).
      apply wp_zoom. cbn [view update fst_lens snd_lens fst snd].
      eapply wp_mono; [apply destroy_n_spec|..]; cbv beta; try done.
      * intros k Hk. replace k with (from + (k - from)) by lia.
        apply Hsrc. lia.
      * intros [] e2 d1 (Htr' & Hlen' & Hraw & Hframe'). cbn [fst snd].
        split; [by rewrite Htr', Htr, <- app_assoc|]. done.
    + intros e1 c2 (j & Hj & Htr & Hlen2 & Hraw & Hframe).
      cbn [fst snd]. repeat split; try done. by exists j.
Qed.


(** [RawMemory(n)] for [n <> 0]: one call of [operator new] *)
Lemma wp_RawMemory_new_exact {X} (n : nat)
    (Q : RawMemory T -> Env -> X -> Prop) R U e x :
  n <> 0 ->
  match (operator_new n (world e)).2 with
  | Some p =>
      Q (mkRawMemory p n (replicate n None))
        (log (EvNew n) (operator_new n (world e)).1 e) x
  | None => R (log (EvNew n) (operator_new n (world e)).1 e) x
  end ->
  wp (RawMemory_new n) Q R U e x.
Proof.
  intros Hn HQ. unfold wp, RawMemory_new, Allocate, bind.
  destruct (Nat.eqb_spec n 0) as [|_]; [done|].
  unfold call. by destruct (operator_new n (world e)).2.
Qed.

Lemma trace_Deallocate p (e : Env) : trace (Deallocate p e) = trace e ++ [EvDelete p].
Proof. done. Qed.

Lemma elements_eq (v v' : Vector T) :
  size_ v' = size_ v ->
  (forall k, k < size_ v -> storage (data_ v') !! k = storage (data_ v) !! k) ->
  elements v' = elements v.
Proof.
  intros Hs Hcells. unfold elements. rewrite Hs. apply list_eq. intros k.
  destruct (decide (k < size_ v)) as [Hk|Hk].
  - rewrite !lookup_take_lt by done. by apply Hcells.
  - by rewrite !lookup_take_ge by lia.
Qed.

(** [Reserve] that reallocates *)
Lemma Reserve_spec n e (v : Vector T) :
  well_formed v -> capacity_ (data_ v) < n ->
  wp (Reserve n)
     (fun _ e' v' =>
        size_ v' = size_ v /\ capacity_ (data_ v') = n /\
        (operator_new n (world e)).2 = Some (buffer_ (data_ v')) /\
        well_formed v' /\
        (forall k, size_ v <= k < n -> storage (data_ v') !! k = Some None) /\
        (V -> elements v' = elements v) /\
        trace e' =
          trace e ++ [EvNew n] ++ replicate (size_ v) relocation_event ++
          replicate (size_ v) EvDtor ++ [EvDelete (buffer_ (data_ v))])
     (fun e' v' =>
        well_formed v' /\ size_ v' = size_ v /\
        buffer_ (data_ v') = buffer_ (data_ v) /\
        capacity_ (data_ v') = capacity_ (data_ v) /\
        ((operator_new n (world e)).2 = None /\
         trace e' = trace e ++ [EvNew n] \/
         exists p j,
           (operator_new n (world e)).2 = Some p /\ j < size_ v /\
           trace e' =
             trace e ++ [EvNew n] ++ replicate (S j) relocation_event ++
             replicate j EvDtor ++ [EvDelete p]))
     False e v.
Proof using copy_law move_law.
  destruct v as [[bv cv sv] nv]. intros (Hlen & Hcap & Hlive) Hn.
  cbn [data_ size_ storage capacity_ buffer_] in *.
  unfold Reserve. apply wp_bind, wp_get. cbn [data_ size_ capacity_].
  destruct (Nat.leb_spec n cv) as [|_]; [lia|].
  apply wp_bind, wp_RawMemory_new_exact; [lia|].
  destruct (operator_new n (world e)) as [w [p|]] eqn:Hnew; cbn [fst snd].
  2:{ split; [done|]. repeat split; try done. by left. }
  apply wp_scope, wp_bind, wp_zoom.
  eapply wp_mono; [apply SafeMove_spec|..]; cbv beta.
  - intros k Hk. simpl. apply Hlive. lia.
  - simpl. rewrite length_replicate. lia.
  - intros [] e1 [c1 c2]
      (Htr & Hlen1 & Hraw1 & Hframe1 & Hlen2 & Hframe2 & Hlive2 & Hval).
    simpl in Hlen1, Hraw1, Hframe1, Hlen2, Hframe2, Hlive2, Hval.
    rewrite length_replicate in Hlen2.
    apply wp_zoom, wp_RawMemory_Swap. simpl.
    split; [done|]. split; [done|]. split; [done|]. split; [|split; [|split]].
    + split; [done|]. split; [simpl; lia|]. simpl. intros k Hk.
      by apply Hlive2.
    + intros k Hk. rewrite Hframe2 by lia. apply lookup_replicate_2. lia.
    + intros HV. apply elements_eq; [done|]. simpl. intros k Hk.
      by apply (Hval HV k).
    + rewrite Htr, log_trace. by rewrite <- !app_assoc.
  - intros e1 [c1 c2] (Hlen1 & Hlive1 & _ & Hlen2 & j & Hj & Htr & _).
    simpl in Hlen1, Hlive1. simpl.
    split; [|split; [done|split; [done|split; [done|]]]].
    + split; [simpl; lia|]. split; [done|]. simpl. intros k Hk.
      by apply Hlive1, Hlive.
    + right. exists p, j. split; [done|]. split; [done|].
      rewrite Htr, log_trace. by rewrite <- !app_assoc.
  - done.
Qed.



Lemma constructs_any b (c : Ctor T) : constructs b c (fun _ => True).
Proof. by destruct c. Qed.

Lemma constructs_value args_value b (c : Ctor T) :
  constructs b c
    (fun y =>
       ValueSemantics args_value -> Some y = ctor_value args_value b c).
Proof.
  destruct c as [a|x|value]; simpl.
  - intros w y Hy HV. f_equal. exact (args_ctor_value _ HV a w y Hy).
  - intros w y Hy HV. f_equal. exact (copy_ctor_value _ HV x w y Hy).
  - intros x w y -> Hy HV. f_equal. exact (move_ctor_value _ HV x w y Hy).
Qed.

Lemma after_ctor_live c (b b' : block T) k :
  after_ctor c b b' -> live b k -> live b' k.
Proof.
  destruct c as [a|x|[x|j]]; simpl; try by intros ->.
  intros (x & w & _ & ->). apply live_insert.
Qed.

Lemma after_ctor_raw c (b b' : block T) k :
  after_ctor c b b' -> b !! k = Some None -> b' !! k = Some None.
Proof.
  destruct c as [a|x|[x|j]]; simpl; try by intros ->.
  intros (x & w & Hj & ->) Hk.
  rewrite list_lookup_insert_ne; [done|]. intros ->. congruence.
Qed.

Lemma after_ctor_raw_from c (b b' : block T) n :
  after_ctor c b b' -> raw_from n b -> raw_from n b'.
Proof.
  intros Hb Hraw k Hk Hlen. rewrite (after_ctor_length _ _ _ Hb) in Hlen.
  eapply after_ctor_raw; [done|]. by apply Hraw.
Qed.

Lemma refers_lt (v : Vector T) c :
  well_formed v ->
  match c with MoveOf (Inside k) => k < size_ v | _ => True end ->
  refers (storage (data_ v)) c.
Proof.
  intros (_ & _ & Hlive). destruct c as [a|x|[x|k]]; simpl; auto.
Qed.

(** a constructor call: one event, [P] of the object made, and the cells
    of the vector as the call leaves them *)
Lemma construct_exact (c : Ctor T) (P : T -> Prop)
    (Q : T -> Env -> block T -> Prop) (R : Env -> block T -> Prop) U e b :
  constructs b c P -> refers b c ->
  (forall y e' b',
     trace e' = trace e ++ [ctor_event c] -> P y -> after_ctor c b b' ->
     Q y e' b') ->
  (forall e' b',
     trace e' = trace e ++ [ctor_event c] -> after_ctor c b b' -> R e' b') ->
  wp (construct c) Q R U e b.
Proof.
  intros HP Href HQ HR. destruct c as [a|y|[y|k]]; simpl in *.
  - apply wp_call_exact.
    destruct (args_ctor a (world e)).2 as [z|] eqn:Hz; [|by apply HR].
    apply HQ; [done| |done]. by apply (HP (world e)).
  - apply wp_call_exact.
    destruct (copy_ctor y (world e)).2 as [z|] eqn:Hz; [|by apply HR].
    apply HQ; [done| |done]. by apply (HP (world e)).
  - apply wp_bind, wp_call_total_exact.
    destruct (move_ctor y (world e)).2.2 as [z|] eqn:Hz;
      [apply wp_ret|by apply wp_throw, HR].
    apply HQ; [done| |done]. by apply (HP y (world e)).
  - destruct Href as [y Hy].
    apply wp_bind, wp_bind, wp_load. rewrite Hy.
    apply wp_bind, wp_call_total_exact.
    apply wp_bind, wp_store; [intros _|].
    2:{ intros Hlen. apply lookup_lt_Some in Hy. lia. }
    apply wp_ret.
    assert (after_move (Inside k) b
              (<[k := Some (move_ctor y (world e)).2.1]> b)) as Hb
      by (by exists y, (world e)).
    destruct (move_ctor y (world e)).2.2 as [z|] eqn:Hz;
      [apply wp_ret|by apply wp_throw, HR].
    apply HQ; [done| |done]. apply (HP y (world e)); [|done].
    by rewrite Hy.
Qed.

Lemma move_from_exact value (Q : T * option T -> Env -> block T -> Prop) R
    (U : Prop) e b :
  refers b (MoveOf value) ->
  (forall r e' b',
     trace e' = trace e ++ [EvMoveCtor] -> after_move value b b' ->
     Q r e' b') ->
  wp (move_from value) Q R U e b.
Proof.
  intros Href HQ. destruct value as [x|k]; simpl in *.
  - apply wp_call_total_exact. by apply HQ.
  - destruct Href as [y Hy]. apply wp_bind, wp_load. rewrite Hy.
    apply wp_bind, wp_call_total_exact.
    apply wp_bind, wp_store; [intros _|].
    2:{ intros Hlen. apply lookup_lt_Some in Hy. lia. }
    apply wp_ret. apply HQ; [done|]. by exists y, (world e).
Qed.

Lemma construct_at_exact i c (P : T -> Prop) e (b : block T) :
  constructs b c P -> refers b c -> i < length b ->
  wp (construct_at i c)
     (fun _ e' b' =>
        trace e' = trace e ++ [ctor_event c] /\
        exists y b1, after_ctor c b b1 /\ b' = <[i := Some y]> b1 /\ P y)
     (fun e' b' => trace e' = trace e ++ [ctor_event c] /\ after_ctor c b b')
     False e b.
Proof.
  intros HP Href Hi. unfold construct_at.
  apply wp_bind, wp_cell_ok; [intros _|lia].
  apply wp_bind, (construct_exact c P); [done|done| |done].
  intros y e' b1 Htr Hy Hb1.
  apply wp_store; [intros _|rewrite (after_ctor_length _ _ _ Hb1); lia].
  split; [done|]. by exists y, b1.
Qed.

Lemma construct_across_exact i c (P : T -> Prop) e (x : block T * block T) :
  constructs x.1 c P -> refers x.1 c -> i < length x.2 ->
  wp (construct_across i c)
     (fun _ e' x' =>
        trace e' = trace e ++ [ctor_event c] /\
        after_ctor c x.1 x'.1 /\
        exists y, x'.2 = <[i := Some y]> x.2 /\ P y)
     (fun e' x' =>
        trace e' = trace e ++ [ctor_event c] /\
        after_ctor c x.1 x'.1 /\ x'.2 = x.2)
     False e x.
Proof.
  destruct x as [b1 b2]. cbn [fst snd]. intros HP Href Hi.
  unfold construct_across.
  apply wp_bind, wp_zoom, wp_cell_ok; [intros _|simpl; lia].
  apply wp_bind, wp_zoom, (construct_exact c P); [done|done| |done].
  intros y e' b' Htr Hy Hb'. apply wp_zoom, wp_store; [intros _|simpl; lia].
  simpl. split; [done|]. split; [done|]. by exists y.
Qed.

Lemma well_formed_insert bv cv (sv : block T) nv y :
  well_formed (mkVector (mkRawMemory bv cv sv) nv) -> nv < cv ->
  well_formed (mkVector (mkRawMemory bv cv (<[nv := Some y]> sv)) (nv + 1)).
Proof.
  intros (Hlen & Hcap & Hlive) Hroom. simpl in *.
  split; [simpl; by rewrite length_insert|]. split; [simpl; lia|]. simpl.
  intros k Hk. destruct (decide (k = nv)) as [->|Hne].
  - exists y. apply list_lookup_insert_eq. lia.
  - apply live_insert, Hlive. lia.
Qed.

Lemma after_ctor_well_formed c bv cv (sv sv' : block T) nv :
  after_ctor c sv sv' ->
  well_formed (mkVector (mkRawMemory bv cv sv) nv) ->
  well_formed (mkVector (mkRawMemory bv cv sv') nv).
Proof.
  intros Hb (Hlen & Hcap & Hlive). simpl in *.
  split; [simpl; by rewrite (after_ctor_length _ _ _ Hb)|].
  split; [done|]. simpl. intros k Hk. eapply after_ctor_live; eauto.
Qed.

Lemma elements_snoc bv cv (sv : block T) nv y bv' cv' (sv' : block T) :
  nv <= length sv ->
  (forall k, k < nv -> sv' !! k = sv !! k) ->
  sv' !! nv = Some (Some y) ->
  elements (mkVector (mkRawMemory bv' cv' sv') (nv + 1)) =
  elements (mkVector (mkRawMemory bv cv sv) nv) ++ [Some y].
Proof.
  intros Hlen Hcells Hnew. unfold elements. simpl. apply list_eq. intros k.
  destruct (decide (k < nv)) as [Hk|Hk].
  - rewrite lookup_take_lt by lia.
    rewrite lookup_app_l by (rewrite length_take; lia).
    rewrite lookup_take_lt by lia. by apply Hcells.
  - destruct (decide (k = nv)) as [->|Hne].
    + rewrite lookup_take_lt by lia.
      rewrite lookup_app_r by (rewrite length_take; lia).
      rewrite length_take. replace (nv - nv `min` length sv) with 0 by lia.
      done.
    + rewrite lookup_take_ge by lia. symmetry. apply lookup_ge_None.
      rewrite length_app, length_take. simpl. lia.
Qed.

(** [place_back] when the vector has room *)
Lemma place_back_room_spec args (P : T -> Prop) e (v : Vector T) :
  constructs (storage (data_ v)) args P -> refers (storage (data_ v)) args ->
  well_formed v -> size_ v < capacity_ (data_ v) ->
  wp (place_back args v)
     (fun _ e' v' =>
        trace e' = trace e ++ [ctor_event args] /\
        exists y b',
          after_ctor args (storage (data_ v)) b' /\
          v' = mkVector
                 (mkRawMemory (buffer_ (data_ v)) (capacity_ (data_ v))
                    (<[size_ v := Some y]> b'))
                 (size_ v) /\
          P y)
     (fun e' v' =>
        trace e' = trace e ++ [ctor_event args] /\
        exists b',
          after_ctor args (storage (data_ v)) b' /\ v' = update cells b' v)
     False e v.
Proof.
  destruct v as [[bv cv sv] nv]. intros HP Href (Hlen & Hcap & Hlive) Hroom.
  cbn [data_ size_ storage capacity_ buffer_] in *.
  unfold place_back, Capacity. cbn [data_ size_ capacity_].
  destruct (Nat.eqb_spec nv cv) as [|_]; [lia|].
  unfold RawMemory_plus. cbn [capacity_].
  apply wp_bind, wp_bind, wp_assert; [intros _|intros Hb; arith].
  apply wp_ret, wp_zoom.
  eapply wp_mono;
    [apply (construct_at_exact nv args P); [done|done|simpl; lia]| | |done];
    cbv beta; simpl.
  - intros [] e' b' (Htr & y & b1 & Hb1 & -> & Hy). split; [done|].
    by exists y, b1.
  - intros e' b' (Htr & Hb'). split; [done|]. by exists b'.
Qed.

(** [place_back] when the vector is full; [b'] are the cells of the old
    block once the new element has been constructed *)
Lemma place_back_full_spec args (P : T -> Prop) e (v : Vector T) :
  constructs (storage (data_ v)) args P -> refers (storage (data_ v)) args ->
  well_formed v -> size_ v = capacity_ (data_ v) ->
  wp (place_back args v)
     (fun _ e' v' =>
        trace e' =
          trace e ++ [EvNew (grown (size_ v)); ctor_event args] ++
          replicate (size_ v) relocation_event ++
          replicate (size_ v) EvDtor ++ [EvDelete (buffer_ (data_ v))] /\
        size_ v' = size_ v /\ capacity_ (data_ v') = grown (size_ v) /\
        length (storage (data_ v')) = grown (size_ v) /\
        (operator_new (grown (size_ v)) (world e)).2 =
          Some (buffer_ (data_ v')) /\
        (forall k, k < size_ v -> live (storage (data_ v')) k) /\
        (forall k, size_ v < k -> storage (data_ v') !! k =
                                  replicate (grown (size_ v)) None !! k) /\
        exists y b',
          after_ctor args (storage (data_ v)) b' /\
          storage (data_ v') !! size_ v = Some (Some y) /\ P y /\
          (V -> forall k, k < size_ v -> storage (data_ v') !! k = b' !! k))
     (fun e' v' =>
        well_formed v' /\ size_ v' = size_ v /\
        buffer_ (data_ v') = buffer_ (data_ v) /\
        capacity_ (data_ v') = capacity_ (data_ v))
     False e v.
Proof using copy_law move_law.
  destruct v as [[bv cv sv0] nv]. intros HP Href Hwf0 Hfull.
  pose proof Hwf0 as (Hlen0 & Hcap & Hlive0).
  cbn [data_ size_ storage capacity_ buffer_] in *.
  unfold place_back, Capacity. cbn [data_ size_ capacity_].
  destruct (Nat.eqb_spec nv cv) as [_|]; [|lia].
  pose proof (grown_gt nv) as Hg.
  apply wp_bind, wp_RawMemory_new_exact; [lia|].
  destruct (operator_new (grown nv) (world e)) as [w [p|]] eqn:Hnew;
    cbn [fst snd].
  2:{ split; [done|]. done. }
  apply wp_scope, wp_bind.
  unfold RawMemory_plus. cbn [capacity_].
  apply wp_bind, wp_bind, wp_assert; [intros _|intros Hb; arith].
  apply wp_ret, wp_zoom.
  eapply wp_mono;
    [apply (construct_across_exact nv args P);
       [done|done|simpl; rewrite length_replicate; lia]
    | | |done]; cbv beta.
  2:{ intros e1 [sv b1] (Htr & Hsv & Hb1). simpl in Hsv, Hb1. subst b1. simpl.
      split; [|done]. by apply (after_ctor_well_formed args _ _ sv0). }
  intros [] e1 [sv b1] (Htr1 & Hsv & y & Hb1 & Hy). simpl in Hsv, Hb1.
  subst b1. simpl.
  pose proof (after_ctor_well_formed args bv cv sv0 sv nv Hsv Hwf0)
    as (Hlen & _ & Hlive).
  cbn [data_ size_ storage capacity_ buffer_] in Hlen, Hlive.
  apply wp_bind, wp_zoom.
  eapply wp_mono;
    [apply SafeMove_spec;
       [intros k Hk; simpl; apply Hlive; lia
       |simpl; rewrite length_insert, length_replicate; lia]
    | | |done]; cbv beta.
  - intros [] e2 [c1 c2]
      (Htr & Hlen1 & Hraw1 & Hframe1 & Hlen2 & Hframe2 & Hlive2 & Hval).
    simpl in Hlen1, Hraw1, Hframe1, Hlen2, Hframe2, Hlive2, Hval.
    rewrite length_insert, length_replicate in Hlen2.
    apply wp_zoom, wp_RawMemory_Swap. simpl.
    split.
    { rewrite Htr, Htr1, log_trace. rewrite <- !app_assoc. done. }
    split; [done|]. split; [done|]. split; [done|]. split; [done|].
    split; [done|]. split.
    { intros k Hk. rewrite Hframe2 by lia.
      by rewrite list_lookup_insert_ne by lia. }
    exists y, sv. split; [done|]. split; [|split; [done|]].
    + rewrite Hframe2 by lia. apply list_lookup_insert_eq.
      rewrite length_replicate. lia.
    + intros HV k Hk. by apply (Hval HV k).
  - intros e2 [c1 c2] (Hlen1 & Hlive1 & _).
    simpl in Hlen1, Hlive1. simpl.
    split; [|done]. split; [simpl; lia|]. split; [done|]. simpl.
    intros k Hk. by apply Hlive1, Hlive.
Qed.

(** the new element is behind the old ones, which are as the constructor
    call has left them; cells that held no object hold none *)
Lemma place_back_appends args (P : T -> Prop) e (v : Vector T) :
  constructs (storage (data_ v)) args P -> refers (storage (data_ v)) args ->
  well_formed v ->
  wp (place_back args v >> incr_size)
     (fun _ _ v' =>
        size_ v' = size_ v + 1 /\ well_formed v' /\
        (raw_from (size_ v) (storage (data_ v)) ->
         raw_from (size_ v') (storage (data_ v'))) /\
        exists y b',
          P y /\ after_ctor args (storage (data_ v)) b' /\
          (V -> elements v' = take (size_ v) b' ++ [Some y]))
     (fun _ v' =>
        well_formed v' /\ size_ v' = size_ v /\
        (raw_from (size_ v) (storage (data_ v)) ->
         raw_from (size_ v') (storage (data_ v'))))
     False e v.
Proof using copy_law move_law.
  intros HP Href Hwf. pose proof Hwf as (Hlen & Hcap & Hlive). apply wp_bind.
  destruct (decide (size_ v = capacity_ (data_ v))) as [Hfull|Hroom].
  - eapply wp_mono; [by apply (place_back_full_spec args P)| | |done];
      cbv beta.
    2:{ intros e' v' (Hwf' & Hs' & _ & Hc'). split; [done|]. split; [done|].
        intros _ k Hk Hkl. destruct Hwf' as (Hlen' & _). lia. }
    intros [] e' [[bv' cv' sv'] nv']
      (_ & Hs & Hc & Hl & _ & Hlive' & Hrest & y & b' & Hb' & Hy & HPy & Hcells).
    cbn [data_ size_ storage capacity_ buffer_] in *. subst nv' cv'.
    apply wp_incr_size. cbn [data_ size_].
    pose proof (grown_gt (size_ v)) as Hg.
    split; [done|]. split; [|split].
    + split; [done|]. split; [simpl; lia|]. simpl. intros k Hk.
      destruct (decide (k = size_ v)) as [->|Hne]; [by exists y|].
      apply Hlive'. lia.
    + intros _ k Hk Hkl. simpl in *. rewrite Hrest by lia.
      apply lookup_replicate_2. lia.
    + exists y, b'. split; [done|]. split; [done|]. intros HV.
      pose proof (after_ctor_length _ _ _ Hb') as Hlb.
      destruct v as [[bv cv sv] nv]. simpl in *.
      apply (elements_snoc bv cv b' nv y); [lia| |done].
      intros k Hk. by apply Hcells.
  - eapply wp_mono;
      [apply (place_back_room_spec args P); [done|done|done|lia]| | |done];
      cbv beta.
    2:{ intros e' v' (_ & b' & Hb' & ->).
        destruct v as [[bv cv sv] nv]. simpl in *.
        split; [by apply (after_ctor_well_formed args _ _ sv)|].
        split; [done|]. by apply (after_ctor_raw_from args). }
    intros [] e' v' (_ & y & b' & Hb' & -> & Hy).
    apply wp_incr_size. cbn [data_ size_].
    pose proof (after_ctor_length _ _ _ Hb') as Hlb.
    destruct v as [[bv cv sv] nv]. simpl in *.
    split; [done|]. split; [|split].
    + apply well_formed_insert; [|lia].
      by apply (after_ctor_well_formed args _ _ sv).
    + intros Hraw k Hk Hkl. rewrite length_insert in Hkl.
      rewrite list_lookup_insert_ne by lia.
      apply (after_ctor_raw_from args sv b' nv); [done|done|lia|lia].
    + exists y, b'. split; [done|]. split; [done|]. intros _.
      apply (elements_snoc bv cv b' nv y); [lia| |].
      * intros k Hk. by rewrite list_lookup_insert_ne by lia.
      * apply list_lookup_insert_eq. lia.
Qed.

Lemma wp_effect {X A B} (m : M X A) (m' : M X B) (Q : Env -> X -> Prop) R U e x :
  effect (m e x) = effect (m' e x) ->
  wp m' (fun _ => Q) R U e x -> wp m (fun _ => Q) R U e x.
Proof.
  unfold wp. destruct (m e x), (m' e x); simpl; intros Heq; try done;
    by injection Heq as <- <-.
Qed.

Lemma wp_run {X A} (m m' : M X A) Q R U e x :
  m e x = m' e x -> wp m' Q R U e x -> wp m Q R U e x.
Proof. unfold wp. by intros ->. Qed.


(** [Reserve] on a well-formed vector, whether it reallocates or not *)
Lemma Reserve_any_spec n e (v : Vector T) :
  well_formed v ->
  wp (Reserve n)
     (fun _ e' v' =>
        size_ v' = size_ v /\ well_formed v' /\
        capacity_ (data_ v') = Nat.max (capacity_ (data_ v)) n /\
        (V -> elements v' = elements v) /\
        trace e' =
          trace e ++
          if n <=? capacity_ (data_ v) then []
          else [EvNew n] ++ replicate (size_ v) relocation_event ++
               replicate (size_ v) EvDtor ++ [EvDelete (buffer_ (data_ v))])
     (fun _ v' =>
        well_formed v' /\ size_ v' = size_ v /\
        buffer_ (data_ v') = buffer_ (data_ v) /\
        capacity_ (data_ v') = capacity_ (data_ v))
     False e v.
Proof using copy_law move_law.
  intros Hwf. destruct (Nat.leb_spec n (capacity_ (data_ v))) as [Hle|Hgt].
  - unfold Reserve. apply wp_bind, wp_get.
    destruct (Nat.leb_spec n (capacity_ (data_ v))) as [_|]; [|lia].
    apply wp_ret. rewrite app_nil_r.
    split; [done|]. split; [done|]. split; [lia|]. done.
  - eapply wp_mono; [by apply Reserve_spec| | |done]; cbv beta.
    + intros [] e' v' (Hs & Hc & _ & Hwf' & _ & Hel & Htr).
      split; [done|]. split; [done|]. split; [lia|]. done.
    + intros e' v' (Hwf' & Hs & Hb & Hc & _). done.
Qed.


(** [Resize] to a larger size *)
Lemma Resize_grow_spec n e (v : Vector T) :
  well_formed v -> size_ v < n ->
  wp (Resize n)
     (fun _ e' v' =>
        size_ v' = n /\ well_formed v' /\
        capacity_ (data_ v') = Nat.max (capacity_ (data_ v)) n /\
        (V -> take (size_ v) (elements v') = elements v) /\
        trace e' =
          trace e ++
          (if n <=? capacity_ (data_ v) then []
           else [EvNew n] ++ replicate (size_ v) relocation_event ++
                replicate (size_ v) EvDtor ++ [EvDelete (buffer_ (data_ v))])
          ++ replicate (n - size_ v) EvDefaultCtor)
     (fun _ v' => well_formed v' /\ size_ v' = size_ v)
     False e v.
Proof using copy_law move_law.
  intros Hwf Hn. unfold Resize. apply wp_bind, wp_get, wp_bind.
  destruct (Nat.ltb_spec n (size_ v)) as [|_]; [lia|].
  destruct (Nat.ltb_spec (size_ v) n) as [_|]; [|lia].
  apply wp_bind.
  eapply wp_mono; [by apply Reserve_any_spec| | |done]; cbv beta.
  2:{ intros e1 v1 (Hwf1 & Hs1 & _). done. }
  intros [] e1 [[b1 c1 s1] n1] (Hs1 & Hwf1 & Hc1 & Hel1 & Htr1).
  pose proof Hwf1 as (Hlen1 & Hcap1 & Hlive1).
  cbn [data_ size_ storage capacity_ buffer_] in *. subst n1.
  apply wp_zoom. simpl.
  eapply wp_mono;
    [apply (uninitialized_value_construct_n_spec (n - size_ v) (size_ v)); lia
    | | |done]; cbv beta.
  - intros [] e2 s2 (Htr2 & Hlen2 & Hframe2 & Hlive2).
    apply wp_write_size. simpl.
    split; [done|]. split; [|split; [done|split]].
    + split; [simpl; lia|]. split; [simpl; lia|]. simpl. intros k Hk.
      destruct (decide (k < size_ v)) as [Hlt|Hge].
      * unfold live. rewrite Hframe2 by lia. by apply Hlive1.
      * replace k with (size_ v + (k - size_ v)) by lia. apply Hlive2. lia.
    + intros HV. rewrite <- (Hel1 HV). unfold elements. simpl.
      rewrite take_take. replace (size_ v `min` n) with (size_ v) by lia.
      apply list_eq. intros k. destruct (decide (k < size_ v)) as [Hlt|Hge].
      * rewrite !lookup_take_lt by done. apply Hframe2. lia.
      * by rewrite !lookup_take_ge by lia.
    + rewrite Htr2, Htr1. by rewrite <- !app_assoc.
  - intros e2 s2 (j & Hj & Htr2 & Hlen2 & Hraw2 & Hframe2). simpl.
    split; [|done]. split; [simpl; lia|]. split; [done|]. simpl.
    intros k Hk. unfold live. rewrite Hframe2 by lia. by apply Hlive1.
Qed.


Lemma well_formed_default : well_formed (T := T) Vector_default.
Proof. split; [done|]. split; [simpl; lia|]. intros k Hk. simpl in Hk. lia. Qed.

Lemma wp_ctor_body {X} (d : RawMemory T) size (body : M (block T) unit)
    (Q : Vector T -> Env -> X -> Prop) R (U : Prop) e x :
  wp body
     (fun _ e' b =>
        Q (mkVector (mkRawMemory (buffer_ d) (capacity_ d) b) size) e' x)
     (fun e' _ => R (Deallocate (buffer_ d) e') x) U e (storage d) ->
  wp (ctor_body d size body) Q R U e x.
Proof. unfold wp, ctor_body. by destruct (body e (storage d)). Qed.

Lemma RawMemory_new_0 {X} e (x : X) :
  RawMemory_new 0 e x = Ret (mkRawMemory 0 0 []) e x.
Proof. done. Qed.

(** the copy constructor; when it throws, the allocation failed, or
    [j + 1] elements were copied, the last copy throwing, [j] destroyed and
    the block given back *)
Lemma Vector_copy_spec {X} (other : Vector T) e (x : X) :
  well_formed other ->
  wp (Vector_copy other)
     (fun v' e' x' =>
        x' = x /\ size_ v' = size_ other /\
        capacity_ (data_ v') = size_ other /\ well_formed v' /\
        (V -> elements v' = elements other) /\
        (size_ other <> 0 ->
         (operator_new (size_ other) (world e)).2 =
           Some (buffer_ (data_ v'))) /\
        trace e' =
          trace e ++ (if size_ other =? 0 then [] else [EvNew (size_ other)])
          ++ replicate (size_ other) EvCopyCtor)
     (fun e' x' =>
        x' = x /\
        ((operator_new (size_ other) (world e)).2 = None /\
         trace e' = trace e ++ [EvNew (size_ other)] \/
         exists p j,
           (operator_new (size_ other) (world e)).2 = Some p /\
           j < size_ other /\
           trace e' =
             trace e ++ [EvNew (size_ other)] ++
             replicate (S j) EvCopyCtor ++ replicate j EvDtor ++
             [EvDelete p]))
     False e x.
Proof using copy_law.
  intros (Hlen & Hcap & Hlive). unfold Vector_copy.
  destruct (Nat.eqb_spec (size_ other) 0) as [Hz|Hnz].
  - rewrite Hz. apply wp_bind. eapply wp_run; [apply RawMemory_new_0|].
    apply wp_ret, wp_ctor_body. simpl. apply wp_ret.
    rewrite app_nil_r. split; [done|]. split; [done|]. split; [done|].
    split; [apply well_formed_default|].
    split; [|done]. intros _. unfold elements. by rewrite Hz, !take_0.
  - apply wp_bind, wp_RawMemory_new_exact; [done|].
    destruct (operator_new (size_ other) (world e)) as [w [p|]] eqn:Hnew;
      cbn [fst snd].
    2:{ split; [done|]. by left. }
    apply wp_ctor_body. cbn [storage buffer_ capacity_].
    eapply wp_mono;
      [apply (uninitialized_copy_n_spec (storage (data_ other))
                (size_ other) 0 0);
         [intros k Hk; apply Hlive; lia|rewrite length_replicate; lia]
      | | |done]; cbv beta.
    + intros [] e1 b1 (Htr & Hlen1 & Hframe1 & Hlive1 & Hval).
      rewrite length_replicate in Hlen1. simpl.
      split; [done|]. split; [done|]. split; [done|]. split.
      { split; [done|]. split; [simpl; lia|]. simpl. intros k Hk.
        by apply Hlive1. }
      split; [|split; [done|]].
      * intros HV. apply elements_eq; [done|]. simpl. intros k Hk.
        by apply (Hval HV k).
      * rewrite Htr, log_trace. by rewrite <- !app_assoc.
    + intros e1 b1 (j & Hj & Htr & _). split; [done|]. right.
      exists p, j. split; [done|]. split; [done|].
      rewrite trace_Deallocate, Htr, log_trace. by rewrite <- !app_assoc.
Qed.


Lemma wp_at_index_exact {X} (v : Vector T) i (Q : T -> Env -> X -> Prop) R
    (U : Prop) e x :
  well_formed v -> i < size_ v ->
  (forall s, storage (data_ v) !! i = Some (Some s) -> Q s e x) ->
  wp (at_index v i) Q R U e x.
Proof.
  intros (Hlen & Hcap & Hlive) Hi HQ. unfold at_index, RawMemory_index.
  apply wp_bind, wp_assert; [intros _|intros Hb; arith].
  apply wp_bind, wp_bind, wp_assert; [intros _|intros Hb; arith].
  apply wp_ret, wp_peek. destruct (Hlive i Hi) as [s Hs]. rewrite Hs.
  by apply HQ.
Qed.

Lemma wp_copy_assign_at dst s (Q : unit -> Env -> block T -> Prop) R
    (U : Prop) e b :
  match b !! dst with
  | Some (Some d) =>
      let r := copy_assign d s (world e) in
      let e' := log EvCopyAssign r.1 e in
      let b' := <[dst := Some r.2.1]> b in
      if r.2.2 then Q tt e' b' else R e' b'
  | _ => U
  end ->
  wp (copy_assign_at dst s) Q R U e b.
Proof.
  intros HQ. unfold copy_assign_at. apply wp_bind, wp_load.
  destruct (b !! dst) as [[d|]|] eqn:Hdst; try done.
  apply wp_bind, wp_call_total_exact.
  apply lookup_lt_Some in Hdst.
  apply wp_bind, wp_store; [intros _|lia].
  simpl in HQ. destruct (copy_assign d s (world e)).2.2; done.
Qed.

(** the loop [data_[i] = rhs[i]] over [n] elements from index [i] *)
Lemma assign_prefix_spec rhs n : forall i e (v : Vector T),
  well_formed rhs -> i + n <= size_ rhs ->
  length (storage (data_ v)) = capacity_ (data_ v) ->
  (forall k, k < n -> live (storage (data_ v)) (i + k)) ->
  wp (assign_prefix rhs i n)
     (fun _ e' v' =>
        trace e' = trace e ++ replicate n EvCopyAssign /\
        size_ v' = size_ v /\
        buffer_ (data_ v') = buffer_ (data_ v) /\
        capacity_ (data_ v') = capacity_ (data_ v) /\
        length (storage (data_ v')) = length (storage (data_ v)) /\
        (forall k, k < i \/ i + n <= k ->
           storage (data_ v') !! k = storage (data_ v) !! k) /\
        (forall k, k < n -> live (storage (data_ v')) (i + k)) /\
        (V -> forall k, k < n ->
           storage (data_ v') !! (i + k) = storage (data_ rhs) !! (i + k)))
     (fun e' v' =>
        size_ v' = size_ v /\
        buffer_ (data_ v') = buffer_ (data_ v) /\
        capacity_ (data_ v') = capacity_ (data_ v) /\
        length (storage (data_ v')) = length (storage (data_ v)) /\
        (forall k, live (storage (data_ v)) k -> live (storage (data_ v')) k))
     False e v.
Proof using copy_assign_law.
  induction n as [|n IH]; intros i e [[bv cv sv] nv] Hrhs Hin Hlen Hlive;
    cbn [data_ size_ storage capacity_ buffer_] in *; simpl.
  - apply wp_ret. rewrite app_nil_r. simpl. repeat split; (lia || done).
  - apply wp_bind, wp_bind, wp_get.
    apply wp_bind, wp_at_index_exact; [done|lia|]. intros s Hs.
    destruct (Hlive 0) as [d Hd]; [lia|]. rewrite Nat.add_0_r in Hd.
    pose proof (lookup_lt_Some _ _ _ Hd) as Hlt.
    unfold RawMemory_index. cbn [data_ capacity_].
    apply wp_bind, wp_bind, wp_assert; [intros _|intros Hb; arith].
    apply wp_ret, wp_zoom, wp_copy_assign_at. simpl. rewrite Hd.
    destruct (copy_assign d s (world e)) as [w [d' ok]] eqn:Hca.
    cbn [fst snd]. destruct ok.
    2:{ simpl. rewrite length_insert. repeat split; try done.
        intros k. apply live_insert. }
    simpl.
    eapply wp_mono;
      [apply (IH (S i)); cbn [data_ size_ storage capacity_ buffer_];
         [done|lia|by rewrite length_insert|]
      | | |done]; cbv beta.
    + intros k Hk. replace (S i + k) with (i + S k) by lia.
      apply live_insert, Hlive. lia.
    + intros [] e' [[bv' cv' sv'] nv']
        (Htr & Hs' & Hb' & Hc' & Hlen' & Hframe & Hlive' & Hval).
      cbn [data_ size_ storage capacity_ buffer_] in *.
      rewrite log_trace in Htr. rewrite length_insert in Hlen'.
      split; [by rewrite Htr, <- app_assoc|].
      split; [done|]. split; [done|]. split; [done|]. split; [done|].
      assert (sv' !! i = Some (Some d')) as Hi.
      { rewrite Hframe by lia. apply list_lookup_insert_eq. lia. }
      split; [|split].
      * intros k Hk. rewrite Hframe by lia.
        by rewrite list_lookup_insert_ne by lia.
      * intros [|k] Hk; [rewrite Nat.add_0_r; by exists d'|].
        replace (i + S k) with (S i + k) by lia. apply Hlive'. lia.
      * intros HV [|k] Hk.
        -- rewrite !Nat.add_0_r, Hi, Hs. do 2 f_equal.
           pose proof (copy_assign_law HV d s (world e)) as Hlaw.
           rewrite Hca in Hlaw. by apply Hlaw.
        -- replace (i + S k) with (S i + k) by lia. apply Hval; [done|lia].
    + intros e' [[bv' cv' sv'] nv'] (Hs' & Hb' & Hc' & Hlen' & Hlive').
      cbn [data_ size_ storage capacity_ buffer_] in *.
      rewrite length_insert in Hlen'. repeat split; try done.
      intros k Hk. by apply Hlive', live_insert.
Qed.


Lemma DestroyN_destroy_n n : forall buf, DestroyN (T := T) buf n = destroy_n buf n.
Proof. induction n as [|n IH]; intros buf; simpl; [done|]. by rewrite IH. Qed.

(** [~Vector()] *)
Lemma Vector_dtor_result (v : Vector T) e :
  well_formed v ->
  exists e', Vector_dtor v e = Some e' /\
    trace e' =
      trace e ++ replicate (size_ v) EvDtor ++ [EvDelete (buffer_ (data_ v))].
Proof.
  intros (Hlen & Hcap & Hlive). unfold Vector_dtor.
  rewrite DestroyN_destroy_n.
  pose proof (destroy_n_spec (size_ v) 0 e (storage (data_ v))) as Hd.
  unfold wp in Hd.
  destruct (destroy_n 0 (size_ v) e (storage (data_ v))) as [[] e1 b1|e1 b1|].
  - destruct Hd as (Htr & _); [intros k Hk; apply Hlive; lia|].
    eexists. split; [done|]. rewrite trace_Deallocate, Htr.
    by rewrite <- app_assoc.
  - destruct Hd. intros k Hk. apply Hlive. lia.
  - destruct Hd. intros k Hk. apply Hlive. lia.
Qed.

(** copy assignment from a vector that does not fit: copy and swap *)
Lemma copy_assign_from_realloc_spec rhs e (v : Vector T) :
  well_formed v -> well_formed rhs -> capacity_ (data_ v) < size_ rhs ->
  wp (copy_assign_from rhs)
     (fun _ e' v' =>
        size_ v' = size_ rhs /\ capacity_ (data_ v') = size_ rhs /\
        well_formed v' /\ (V -> elements v' = elements rhs) /\
        trace e' =
          trace e ++ [EvNew (size_ rhs)] ++
          replicate (size_ rhs) EvCopyCtor ++
          replicate (size_ v) EvDtor ++ [EvDelete (buffer_ (data_ v))])
     (fun _ v' => v' = v) False e v.
Proof using copy_law.
  destruct v as [[bv cv sv] nv]. intros Hwf Hrhs Hcap.
  cbn [data_ size_ storage capacity_ buffer_] in *.
  unfold copy_assign_from. apply wp_bind, wp_get. cbn [data_ capacity_].
  destruct (Nat.ltb_spec cv (size_ rhs)) as [_|]; [|lia].
  apply wp_bind.
  eapply wp_mono; [by apply Vector_copy_spec| | |done]; cbv beta.
  2:{ by intros e1 x1 (-> & _). }
  intros [[bl cl sl] nl] e1 x1 (-> & Hs & Hc & Hwfl & Hel & _ & Htr).
  cbn [data_ size_ storage capacity_ buffer_] in *.
  apply wp_scope, wp_Swap. simpl.
  destruct (Vector_dtor_result (mkVector (mkRawMemory bv cv sv) nv) e1 Hwf)
    as (e2 & -> & Htr2).
  split; [done|]. split; [done|]. split; [done|]. split; [done|].
  rewrite Htr2, Htr. simpl.
  destruct (Nat.eqb_spec (size_ rhs) 0) as [|_]; [lia|].
  by rewrite <- !app_assoc.
Qed.

(** copy assignment from a vector that is not longer *)
Lemma copy_assign_from_shrink_spec rhs e (v : Vector T) :
  well_formed v -> well_formed rhs -> size_ rhs <= size_ v ->
  wp (copy_assign_from rhs)
     (fun _ e' v' =>
        size_ v' = size_ rhs /\
        buffer_ (data_ v') = buffer_ (data_ v) /\
        capacity_ (data_ v') = capacity_ (data_ v) /\
        well_formed v' /\ (V -> elements v' = elements rhs) /\
        trace e' =
          trace e ++ replicate (size_ rhs) EvCopyAssign ++
          replicate (size_ v - size_ rhs) EvDtor)
     (fun _ v' => well_formed v' /\ size_ v' = size_ v) False e v.
Proof using copy_assign_law.
  intros Hwf Hrhs Hle. pose proof Hwf as (Hlen & Hcap & Hlive).
  unfold copy_assign_from. apply wp_bind, wp_get.
  destruct (Nat.ltb_spec (capacity_ (data_ v)) (size_ rhs)) as [|_]; [lia|].
  destruct (Nat.ltb_spec (size_ v) (size_ rhs)) as [|_]; [lia|].
  apply wp_bind.
  eapply wp_mono;
    [apply (assign_prefix_spec rhs (size_ rhs) 0);
       [done|lia|done|intros k Hk; apply Hlive; lia]
    | | |done]; cbv beta.
  - intros [] e1 [[b1 c1 s1] n1]
      (Htr1 & Hs1 & Hb1 & Hc1 & Hlen1 & Hframe1 & Hlive1 & Hval1).
    cbn [data_ size_ storage capacity_ buffer_] in *.
    apply wp_bind, wp_zoom. simpl.
    eapply wp_mono;
      [apply (destroy_n_spec (size_ v - size_ rhs) (size_ rhs))| |done|done];
      cbv beta.
    { intros k Hk. unfold live. rewrite Hframe1 by lia. apply Hlive. lia. }
    intros [] e2 s2 (Htr2 & Hlen2 & Hraw2 & Hframe2).
    apply wp_write_size. simpl.
    split; [done|]. split; [done|]. split; [done|]. split; [|split].
    + split; [simpl; lia|]. split; [simpl; lia|]. simpl. intros k Hk.
      unfold live. rewrite Hframe2 by lia. by apply (Hlive1 k).
    + intros HV. apply elements_eq; [done|]. simpl. intros k Hk.
      rewrite Hframe2 by lia. by apply (Hval1 HV k).
    + rewrite Htr2, Htr1. by rewrite <- app_assoc.
  - intros e1 [[b1 c1 s1] n1] (Hs1 & Hb1 & Hc1 & Hlen1 & Hlive1).
    cbn [data_ size_ storage capacity_ buffer_] in *.
    split; [|done]. split; [simpl; lia|]. split; [simpl; lia|]. simpl.
    intros k Hk. apply Hlive1, Hlive. lia.
Qed.


(** [std::move_backward] of the [n] elements from [lo] one cell up *)
Lemma move_backward_spec n : forall lo last d_last e (b : block T),
  last = lo + n -> d_last = lo + n + 1 ->
  (forall k, lo <= k <= lo + n -> live b k) ->
  wp (move_backward last n d_last)
     (fun _ e' b' =>
        trace e' = trace e ++ replicate n EvMoveAssign /\
        length b' = length b /\
        (forall k, k < lo \/ lo + n < k -> b' !! k = b !! k) /\
        (forall k, lo <= k <= lo + n -> live b' k) /\
        (V -> forall k, lo < k <= lo + n -> b' !! k = b !! (k - 1)))
     (fun _ b' =>
        length b' = length b /\ (forall k, live b k -> live b' k) /\
        (forall k, k < lo \/ lo + n < k -> b' !! k = b !! k))
     False e b.
Proof using move_assign_law.
  induction n as [|n IH]; intros lo last d_last e b -> -> Hlive; simpl.
  - apply wp_ret. rewrite app_nil_r.
    split; [done|]. split; [done|]. split; [done|]. split; [done|].
    intros _ k Hk; lia.
  - apply wp_bind, wp_move_assign_at.
    replace (lo + S n + 1 - 1) with (lo + S n) by lia.
    replace (lo + S n - 1) with (lo + n) by lia.
    destruct (Hlive (lo + S n)) as [x Hx]; [lia|].
    destruct (Hlive (lo + n)) as [y Hy]; [lia|].
    rewrite Hx, Hy. cbv zeta.
    pose proof (lookup_lt_Some _ _ _ Hx) as Hxl.
    pose proof (lookup_lt_Some _ _ _ Hy) as Hyl.
    destruct (move_assign x y (world e)) as [w [[x' y'] ok]] eqn:Hma.
    cbn [fst snd]. destruct ok.
    2:{ rewrite !length_insert. split; [done|]. split.
        - intros k Hk. by do 2 apply live_insert.
        - intros k Hk. by rewrite !list_lookup_insert_ne by lia. }
    eapply wp_mono;
      [apply (IH lo (lo + n) (lo + S n)); [lia|lia|]| | |done]; cbv beta.
    + intros k Hk. do 2 apply live_insert. apply Hlive. lia.
    + intros [] e' b' (Htr & Hlen' & Hframe & Hlive' & Hshift).
      rewrite log_trace in Htr. rewrite !length_insert in Hlen'.
      split; [rewrite Htr, <- app_assoc; done|]. split; [done|].
      assert (b' !! (lo + S n) = Some (Some x')) as Hnew.
      { rewrite Hframe by lia. apply list_lookup_insert_eq.
        rewrite length_insert. lia. }
      split; [|split].
      * intros k Hk. rewrite Hframe by lia.
        by rewrite !list_lookup_insert_ne by lia.
      * intros k Hk.
        destruct (decide (k = lo + S n)) as [->|Hne]; [by exists x'|].
        apply Hlive'. lia.
      * intros HV k Hk.
        destruct (decide (k = lo + S n)) as [->|Hne].
        -- rewrite Hnew. replace (lo + S n - 1) with (lo + n) by lia.
           rewrite Hy. do 2 f_equal.
           pose proof (move_assign_law HV x y (world e)) as Hlaw.
           rewrite Hma in Hlaw. by apply Hlaw.
        -- rewrite (Hshift HV) by lia.
           by rewrite !list_lookup_insert_ne by lia.
    + intros e' b' (Hlen' & Hlive' & Hframe'). rewrite !length_insert in Hlen'.
      split; [done|]. split.
      * intros k Hk. by apply Hlive'; do 2 apply live_insert.
      * intros k Hk. rewrite Hframe' by lia.
        by rewrite !list_lookup_insert_ne by lia.
Qed.


(** [new (to) T(std::move(x))] inside one block *)
Lemma move_construct_within_spec from to e (b : block T) x :
  b !! from = Some (Some x) -> to < length b ->
  wp (move_construct_within from to)
     (fun _ e' b' =>
        trace e' = trace e ++ [EvMoveCtor] /\
        exists x' y,
          b' = <[to := Some y]> (<[from := Some x']> b) /\ (V -> y = x))
     (fun _ b' => exists x', b' = <[from := Some x']> b)
     False e b.
Proof using move_law.
  intros Hx Hto. pose proof (lookup_lt_Some _ _ _ Hx) as Hfrom.
  unfold move_construct_within.
  apply wp_bind, wp_cell_ok; [intros _|lia].
  apply wp_bind, wp_load. rewrite Hx.
  apply wp_bind, wp_call_total_exact.
  destruct (move_ctor x (world e)) as [w [x' oy]] eqn:Hmc. cbn [fst snd].
  apply wp_bind, wp_store; [intros _|lia].
  destruct oy as [y|]; [|apply wp_throw; by exists x'].
  apply wp_store; [intros _|rewrite length_insert; lia].
  split; [done|]. exists x', y. split; [done|]. intros HV.
  apply (move_law HV x (world e)). by rewrite Hmc.
Qed.

(** [data_[dst] = std::move(temp)] *)
Lemma move_assign_from_local_spec dst e (x : block T * T) d :
  x.1 !! dst = Some (Some d) ->
  wp (move_assign_from_local dst)
     (fun _ e' x' =>
        trace e' = trace e ++ [EvMoveAssign] /\
        exists d', x'.1 = <[dst := Some d']> x.1 /\ (V -> d' = x.2))
     (fun _ x' => exists d', x'.1 = <[dst := Some d']> x.1)
     False e x.
Proof using move_assign_law.
  destruct x as [b t]. cbn [fst snd]. intros Hd.
  pose proof (lookup_lt_Some _ _ _ Hd) as Hlt.
  unfold move_assign_from_local.
  apply wp_bind, wp_zoom, wp_load. simpl. rewrite Hd.
  apply wp_bind, wp_zoom, wp_get. simpl.
  apply wp_bind, wp_call_total_exact.
  apply wp_bind, wp_zoom, wp_put. simpl.
  apply wp_bind, wp_zoom, wp_store; [intros _|simpl; lia]. simpl.
  destruct (move_assign d t (world e)).2.2 eqn:Hok;
    [apply wp_ret|apply wp_throw; by eexists].
  split; [done|]. eexists. split; [done|]. simpl.
  intros HV. exact (move_assign_law HV d t (world e) Hok).
Qed.

Lemma elements_insert (sv sv' : block T) nv i y bv cv bv' cv' :
  i <= nv -> nv <= length sv ->
  (forall k, k < i -> sv' !! k = sv !! k) ->
  sv' !! i = Some (Some y) ->
  (forall k, i <= k < nv -> sv' !! (k + 1) = sv !! k) ->
  elements (mkVector (mkRawMemory bv' cv' sv') (nv + 1)) =
  take i (elements (mkVector (mkRawMemory bv cv sv) nv)) ++
  Some y :: drop i (elements (mkVector (mkRawMemory bv cv sv) nv)).
Proof.
  intros Hi Hlen Hlow Hnew Hhigh. unfold elements. simpl.
  apply list_eq. intros k.
  assert (length (take i (take nv sv)) = i) as Hli
    by (rewrite !length_take; lia).
  destruct (decide (k < i)) as [Hk|Hk].
  - rewrite lookup_take_lt by lia. rewrite lookup_app_l by lia.
    rewrite !lookup_take_lt by lia. by apply Hlow.
  - rewrite lookup_app_r by lia. rewrite Hli.
    destruct (decide (k = i)) as [->|Hne].
    + rewrite lookup_take_lt by lia. by rewrite Nat.sub_diag.
    + replace (k - i) with (S (k - i - 1)) by lia. simpl.
      rewrite lookup_drop.
      destruct (decide (k < nv + 1)) as [Hlt|Hge].
      * rewrite !lookup_take_lt by lia.
        replace k with (k - 1 + 1) at 1 by lia.
        rewrite Hhigh by lia. f_equal. lia.
      * by rewrite !lookup_take_ge by lia.
Qed.

(** [EmplaceWithoutReallocate] at index [i < size] of a vector with room;
    [b'] are the cells once the temporary has been constructed *)
Lemma EmplaceWithoutReallocate_spec i args (P : T -> Prop) e (v : Vector T) :
  constructs (storage (data_ v)) args P -> refers (storage (data_ v)) args ->
  well_formed v -> size_ v < capacity_ (data_ v) -> i < size_ v ->
  wp (EmplaceWithoutReallocate (begin v + i) args)
     (fun p e' v' =>
        p = begin v + i /\ size_ v' = size_ v + 1 /\
        buffer_ (data_ v') = buffer_ (data_ v) /\
        capacity_ (data_ v') = capacity_ (data_ v) /\
        well_formed v' /\
        (forall k, size_ v < k -> storage (data_ v) !! k = Some None ->
                   storage (data_ v') !! k = Some None) /\
        (exists y b',
           P y /\ after_ctor args (storage (data_ v)) b' /\
           (V -> elements v' =
                 take i (elements (update cells b' v)) ++
                 Some y :: drop i (elements (update cells b' v)))) /\
        trace e' =
          trace e ++ [ctor_event args; EvMoveCtor] ++
          replicate (size_ v - 1 - i) EvMoveAssign ++ [EvMoveAssign; EvDtor])
     (fun _ v' =>
        well_formed v' /\ size_ v' = size_ v /\
        buffer_ (data_ v') = buffer_ (data_ v) /\
        capacity_ (data_ v') = capacity_ (data_ v) /\
        (forall k, size_ v < k -> storage (data_ v) !! k = Some None ->
                   storage (data_ v') !! k = Some None))
     False e v.
Proof using move_law move_assign_law.
  destruct v as [[bv cv sv0] nv]. intros HP Href Hwf0 Hroom Hi.
  cbn [data_ size_ storage capacity_ buffer_] in *.
  unfold EmplaceWithoutReallocate, index_of, begin, GetAddress.
  apply wp_bind, wp_get. cbn [data_ size_ buffer_ capacity_].
  apply wp_bind, wp_bind, wp_get. cbn [data_ size_ buffer_ capacity_].
  unfold size_t_sub at 1.
  destruct (Nat.leb_spec bv (bv + i)) as [_|]; [|lia].
  apply wp_ret. replace (bv + i - bv) with i by lia.
  apply wp_bind, wp_zoom, (construct_exact args P); [done|done| |].
  2:{ intros e1 sv Htr1 Hsv. simpl.
      split; [by apply (after_ctor_well_formed args _ _ sv0)|].
      split; [done|]. split; [done|]. split; [done|].
      intros k _. by apply (after_ctor_raw args). }
  intros y e1 sv Htr1 HPy Hsv.
  pose proof (after_ctor_well_formed args bv cv sv0 sv nv Hsv Hwf0) as Hwf.
  pose proof Hwf as (Hlen & Hcap & Hlive).
  cbn [data_ size_ storage capacity_ buffer_] in Hlen, Hcap, Hlive.
  assert (forall k, sv0 !! k = Some None -> sv !! k = Some None) as Hraw
    by (intros k; by apply (after_ctor_raw args)).
  simpl (update _ _ _).
  apply wp_bind, wp_scope.
  (* the move of the last element to the cell past the end *)
  apply wp_bind, wp_bind. unfold size_t_sub at 1.
  destruct (Nat.leb_spec 1 nv) as [_|]; [|lia]. apply wp_ret.
  unfold RawMemory_index at 1. cbn [capacity_].
  apply wp_bind, wp_bind, wp_assert; [intros _|intros Hb; arith].
  apply wp_ret, wp_zoom. simpl.
  destruct (Hlive (nv - 1)) as [z Hz]; [lia|].
  eapply wp_mono;
    [apply (move_construct_within_spec (nv - 1) nv e1 sv z); [done|lia]
    | | |done]; cbv beta.
  2:{ intros e2 b2 (z' & ->). simpl.
      split; [|split; [done|split; [done|split; [done|]]]].
      - split; [simpl; by rewrite length_insert|].
        split; [done|]. simpl. intros k Hk. by apply live_insert, Hlive.
      - intros k Hk Hk0. rewrite list_lookup_insert_ne by lia. by apply Hraw. }
  intros [] e2 b2 (Htr2 & z' & t & -> & Ht). simpl.
  set (b1 := <[nv := Some t]> (<[nv - 1 := Some z']> sv)).
  assert (length b1 = cv) as Hlen1 by (unfold b1; by rewrite !length_insert).
  assert (forall k, k <= nv -> live b1 k) as Hlive1.
  { intros k Hk. unfold b1. destruct (decide (k = nv)) as [->|Hne].
    - exists t. apply list_lookup_insert_eq. rewrite length_insert. lia.
    - do 2 apply live_insert. apply Hlive. lia. }
  assert (forall k, nv < k -> sv0 !! k = Some None -> b1 !! k = Some None)
    as Hraw1.
  { intros k Hk Hk0. unfold b1. rewrite !list_lookup_insert_ne by lia.
    by apply Hraw. }
  (* the shift of the elements from the position on *)
  apply wp_bind, wp_bind. unfold size_t_sub at 1.
  destruct (Nat.leb_spec 1 nv) as [_|]; [|lia]. apply wp_ret.
  apply wp_zoom. simpl. fold b1. unfold std_move_backward.
  destruct (Nat.leb_spec i (nv - 1)) as [_|]; [|lia].
  eapply wp_mono;
    [apply (move_backward_spec (nv - 1 - i) i (nv - 1) nv e2 b1);
       [lia|lia|intros k Hk; apply Hlive1; lia]
    | | |done]; cbv beta.
  2:{ intros e3 b3 (Hlen3 & Hlive3 & Hframe3). simpl.
      split; [|split; [done|split; [done|split; [done|]]]].
      - split; [simpl; lia|]. split; [done|]. simpl.
        intros k Hk. apply Hlive3, Hlive1. lia.
      - intros k Hk Hk0. rewrite Hframe3 by lia. by apply Hraw1. }
  intros [] e3 b3 (Htr3 & Hlen3 & Hframe3 & Hlive3 & Hshift3). simpl.
  (* the assignment of the new element *)
  unfold RawMemory_index. cbn [capacity_].
  apply wp_bind, wp_bind, wp_assert; [intros _|intros Hb; arith].
  apply wp_ret, wp_zoom. simpl.
  destruct (Hlive3 i) as [d Hd]; [lia|].
  eapply wp_mono;
    [apply (move_assign_from_local_spec i e3 (b3, y) d); done| | |done];
    cbv beta.
  2:{ intros e4 [b4 t4] (d' & Hb4). simpl in *. subst b4.
      split; [|split; [done|split; [done|split; [done|]]]].
      - split; [simpl; rewrite length_insert; lia|].
        split; [done|]. simpl. intros k Hk.
        apply live_insert. destruct (decide (i <= k)) as [Hik|Hik].
        + apply Hlive3. lia.
        + unfold live. rewrite Hframe3 by lia. apply Hlive1. lia.
      - intros k Hk Hk0. rewrite list_lookup_insert_ne by lia.
        rewrite Hframe3 by lia. by apply Hraw1. }
  intros [] e4 [b4 t4] (Htr4 & d' & Hb4 & Hd'). simpl in *. subst b4.
  apply wp_bind, wp_incr_size, wp_bind, wp_get, wp_ret. simpl.
  assert (forall k, k <= nv -> live (<[i := Some d']> b3) k) as Hlive4.
  { intros k Hk. apply live_insert. destruct (decide (i <= k)) as [Hik|Hik].
    - destruct (decide (k = nv)) as [->|Hne].
      + unfold live. rewrite Hframe3 by lia. apply Hlive1. lia.
      + apply Hlive3. lia.
    - unfold live. rewrite Hframe3 by lia. apply Hlive1. lia. }
  split; [done|]. split; [done|]. split; [done|]. split; [done|].
  split; [|split; [|split]].
  - split; [simpl; rewrite length_insert; lia|]. split; [simpl; lia|].
    simpl. intros k Hk. apply Hlive4. lia.
  - intros k Hk Hk0. rewrite list_lookup_insert_ne by lia.
    rewrite Hframe3 by lia. by apply Hraw1.
  - exists y, sv. split; [done|]. split; [done|]. intros HV.
    rewrite <- (Hd' HV). apply elements_insert; [lia|lia| | |].
    + intros k Hk. rewrite list_lookup_insert_ne by lia.
      rewrite Hframe3 by lia. unfold b1.
      by rewrite !list_lookup_insert_ne by lia.
    + apply list_lookup_insert_eq. lia.
    + intros k Hk. rewrite list_lookup_insert_ne by lia.
      destruct (decide (k = nv - 1)) as [->|Hne].
      * replace (nv - 1 + 1) with nv by lia.
        rewrite Hframe3 by lia. unfold b1.
        rewrite list_lookup_insert_eq by (rewrite length_insert; lia).
        by rewrite (Ht HV), Hz.
      * rewrite (Hshift3 HV) by lia. unfold b1.
        replace (k + 1 - 1) with k by lia.
        by rewrite !list_lookup_insert_ne by lia.
  - rewrite Htr4, Htr3, Htr2, Htr1. rewrite <- !app_assoc. done.
Qed.

(** [EmplaceWithReallocate] at index [i <= size] of a full vector; [b'] are
    the cells of the old block once the new element has been constructed.
    When the second relocation throws, the elements before the position have
    been destroyed already: the exceptional exit keeps size, block and
    capacity, not the elements. *)
Lemma EmplaceWithReallocate_spec i args (P : T -> Prop) e (v : Vector T) :
  constructs (storage (data_ v)) args P -> refers (storage (data_ v)) args ->
  well_formed v -> size_ v = capacity_ (data_ v) -> i <= size_ v ->
  wp (EmplaceWithReallocate (begin v + i) args)
     (fun p e' v' =>
        p = begin v' + i /\ size_ v' = size_ v + 1 /\
        capacity_ (data_ v') = grown (size_ v) /\
        (operator_new (grown (size_ v)) (world e)).2 =
          Some (buffer_ (data_ v')) /\
        well_formed v' /\
        raw_from (size_ v + 1) (storage (data_ v')) /\
        (exists y b',
           P y /\ after_ctor args (storage (data_ v)) b' /\
           (V -> elements v' =
                 take i (elements (update cells b' v)) ++
                 Some y :: drop i (elements (update cells b' v)))) /\
        trace e' =
          trace e ++ [EvNew (grown (size_ v)); ctor_event args] ++
          replicate i relocation_event ++ replicate i EvDtor ++
          replicate (size_ v - i) relocation_event ++
          replicate (size_ v - i) EvDtor ++ [EvDelete (buffer_ (data_ v))])
     (fun _ v' =>
        size_ v' = size_ v /\
        buffer_ (data_ v') = buffer_ (data_ v) /\
        capacity_ (data_ v') = capacity_ (data_ v) /\
        length (storage (data_ v')) = length (storage (data_ v)))
     False e v.
Proof using copy_law move_law.
  destruct v as [[bv cv sv0] nv]. intros HP Href Hwf0 Hfull Hi.
  cbn [data_ size_ storage capacity_ buffer_] in *.
  pose proof (grown_gt nv) as Hg.
  unfold EmplaceWithReallocate, index_of, begin, GetAddress.
  apply wp_bind, wp_get. cbn [data_ size_ buffer_ capacity_].
  apply wp_bind, wp_bind, wp_get. cbn [data_ size_ buffer_ capacity_].
  unfold size_t_sub at 1.
  destruct (Nat.leb_spec bv (bv + i)) as [_|]; [|lia].
  apply wp_ret. replace (bv + i - bv) with i by lia.
  apply wp_bind, wp_RawMemory_new_exact; [lia|].
  destruct (operator_new (grown nv) (world e)) as [w [p|]] eqn:Hnew;
    cbn [fst snd]; [|done].
  apply wp_bind, wp_scope.
  (* the new element *)
  apply wp_bind. unfold RawMemory_plus at 1. cbn [capacity_].
  apply wp_bind, wp_bind, wp_assert; [intros _|intros Hb; arith].
  apply wp_ret, wp_zoom.
  eapply wp_mono;
    [apply (construct_across_exact i args P);
       [done|done|simpl; rewrite length_replicate; lia]
    | | |done]; cbv beta.
  2:{ intros e1 [sv b1] (Htr & Hsv & Hb1). simpl in Hsv, Hb1. subst b1. simpl.
      by rewrite (after_ctor_length _ _ _ Hsv). }
  intros [] e1 [sv b1] (Htr1 & Hsv & y & Hb1 & HPy). simpl in Hsv, Hb1.
  subst b1. simpl.
  pose proof (after_ctor_well_formed args bv cv sv0 sv nv Hsv Hwf0)
    as (Hlen & Hcap & Hlive).
  cbn [data_ size_ storage capacity_ buffer_] in Hlen, Hcap, Hlive.
  pose proof (after_ctor_length _ _ _ Hsv) as Hlen0.
  set (n0 := <[i := Some y]> (replicate (grown nv) None)).
  assert (length n0 = grown nv) as Hlenn
    by (unfold n0; by rewrite length_insert, length_replicate).
  assert (n0 !! i = Some (Some y)) as Hn0
    by (unfold n0; apply list_lookup_insert_eq; rewrite length_replicate; lia).
  (* the elements before the position *)
  apply wp_bind, wp_on_throw, wp_zoom.
  eapply wp_mono;
    [apply (SafeMove_spec 0 i 0 e1 (sv, n0));
       [intros k Hk; simpl; apply Hlive; lia|simpl; lia]
    | | |done]; cbv beta.
  2:{ intros e2 [c1 c2] (Hlen1 & _ & _ & Hlen2 & j & Hj & _ & _ & Hframe).
      simpl in Hlen1, Hlen2, Hframe. simpl.
      unfold RawMemory_index. cbn [capacity_].
      apply wp_bind, wp_bind, wp_assert; [intros _|intros Hb; arith].
      apply wp_ret, wp_zoom, wp_destroy_at. simpl.
      rewrite Hframe by lia. rewrite Hn0. simpl.
      split; [done|]. split; [done|]. split; [done|]. lia. }
  intros [] e2 [c1 c2]
    (Htr2 & Hlen1 & Hraw1 & Hframe1 & Hlen2 & Hframe2 & Hlive2 & Hval2).
  simpl in Hlen1, Hraw1, Hframe1, Hlen2, Hframe2, Hlive2, Hval2. simpl.
  (* the elements from the position on *)
  apply wp_bind, wp_on_throw.
  unfold RawMemory_plus at 1. cbn [capacity_].
  apply wp_bind, wp_bind, wp_assert; [intros _|intros Hb; arith].
  apply wp_ret, wp_bind. unfold size_t_sub.
  destruct (Nat.leb_spec i nv) as [_|]; [|lia]. apply wp_ret.
  unfold RawMemory_plus. cbn [capacity_].
  apply wp_bind, wp_bind, wp_assert; [intros _|intros Hb; arith].
  apply wp_ret, wp_zoom. simpl.
  eapply wp_mono;
    [apply (SafeMove_spec i (nv - i) (i + 1) e2 (c1, c2));
       [intros k Hk; simpl; unfold live; rewrite Hframe1 by lia;
        apply Hlive; lia
       |simpl; lia]
    | | |done]; cbv beta.
  2:{ intros e3 [d1 d2] (Hlen3 & _ & _ & Hlen4 & j & Hj & _ & _ & Hframe).
      simpl in Hlen3, Hlen4, Hframe. simpl.
      apply wp_zoom. simpl.
      eapply wp_mono;
        [apply (destroy_n_spec (i + 1) 0)| |done|done]; cbv beta.
      - intros k Hk. unfold live. rewrite Hframe by lia.
        destruct (decide (k = i)) as [->|Hne].
        + rewrite Hframe2 by lia. by exists y.
        + apply (Hlive2 k). lia.
      - intros [] e4 d3 _. simpl. split; [done|]. split; [done|].
        split; [done|]. lia. }
  intros [] e3 [d1 d2]
    (Htr3 & Hlen3 & Hraw3 & Hframe3 & Hlen4 & Hframe4 & Hlive4 & Hval4).
  simpl in Hlen3, Hraw3, Hframe3, Hlen4, Hframe4, Hlive4, Hval4. simpl.
  apply wp_zoom, wp_RawMemory_Swap. simpl.
  apply wp_bind, wp_incr_size, wp_bind, wp_get, wp_ret. simpl.
  assert (d2 !! i = Some (Some y)) as Hnewcell.
  { rewrite Hframe4 by lia. by rewrite Hframe2 by lia. }
  split; [done|]. split; [done|]. split; [done|]. split; [done|].
  split; [|split; [|split]].
  - split; [simpl; lia|]. split; [simpl; lia|]. simpl. intros k Hk.
    destruct (decide (k < i)) as [Hlt|Hge].
    + unfold live. rewrite Hframe4 by lia. by apply (Hlive2 k).
    + destruct (decide (k = i)) as [->|Hne]; [by exists y|].
      replace k with (i + 1 + (k - i - 1)) by lia. apply Hlive4. lia.
  - intros k Hk Hkl. rewrite Hframe4, Hframe2 by lia. unfold n0.
    rewrite list_lookup_insert_ne by lia. apply lookup_replicate_2. lia.
  - exists y, sv. split; [done|]. split; [done|]. intros HV.
    apply elements_insert; [lia|lia| |done|].
    + intros k Hk. rewrite Hframe4 by lia. by apply (Hval2 HV k).
    + intros k Hk. replace (k + 1) with (i + 1 + (k - i)) by lia.
      rewrite (Hval4 HV) by lia. rewrite Hframe1 by lia. f_equal. lia.
  - rewrite Htr3, Htr2, Htr1, log_trace. rewrite <- !app_assoc. done.
Qed.

(** the branch [Emplace] takes before an element *)
Lemma Emplace_in_place i args e (v : Vector T) :
  i < size_ v -> size_ v <> capacity_ (data_ v) ->
  Emplace (begin v + i) args e v =
  EmplaceWithoutReallocate (begin v + i) args e v.
Proof.
  intros Hi Hroom. unfold Emplace. unfold bind at 1. unfold get at 1.
  destruct (Nat.eqb_spec (begin v + i) (end_ v)) as [Heq|_].
  { unfold begin, end_ in Heq. lia. }
  unfold Capacity. by destruct (Nat.eqb_spec (size_ v) (capacity_ (data_ v))).
Qed.

Lemma Emplace_reallocating i args e (v : Vector T) :
  i < size_ v -> size_ v = capacity_ (data_ v) ->
  Emplace (begin v + i) args e v =
  EmplaceWithReallocate (begin v + i) args e v.
Proof.
  intros Hi Hfull. unfold Emplace. unfold bind at 1. unfold get at 1.
  destruct (Nat.eqb_spec (begin v + i) (end_ v)) as [Heq|_].
  { unfold begin, end_ in Heq. lia. }
  unfold Capacity. by destruct (Nat.eqb_spec (size_ v) (capacity_ (data_ v))).
Qed.

Lemma elements_snoc_insert (v : Vector T) y :
  well_formed v ->
  elements v ++ [Some y] =
  take (size_ v) (elements v) ++ Some y :: drop (size_ v) (elements v).
Proof.
  intros (Hlen & Hcap & _).
  assert (length (elements v) = size_ v) as Hl
    by (unfold elements; rewrite length_take; lia).
  rewrite take_ge, drop_ge by lia. done.
Qed.

(** [Emplace] at index [i <= size]; [b'] are the cells of the vector once
    the new object has been constructed.  An exceptional exit leaves at most
    one object behind the last element. *)
Lemma Emplace_spec i args (P : T -> Prop) e (v : Vector T) :
  constructs (storage (data_ v)) args P -> refers (storage (data_ v)) args ->
  well_formed v -> i <= size_ v ->
  wp (Emplace (begin v + i) args)
     (fun _ _ v' =>
        size_ v' = size_ v + 1 /\ well_formed v' /\
        (raw_from (size_ v) (storage (data_ v)) ->
         raw_from (size_ v') (storage (data_ v'))) /\
        exists y b',
          P y /\ after_ctor args (storage (data_ v)) b' /\
          (V -> elements v' =
                take i (elements (update cells b' v)) ++
                Some y :: drop i (elements (update cells b' v))))
     (fun _ v' =>
        size_ v' = size_ v /\
        (i = size_ v \/ size_ v < capacity_ (data_ v) -> well_formed v') /\
        (raw_from (size_ v) (storage (data_ v)) ->
         raw_from (if i =? size_ v then size_ v else size_ v + 1)
           (storage (data_ v'))))
     False e v.
Proof using copy_law move_law move_assign_law.
  intros HP Href Hwf Hi. pose proof Hwf as (Hlen & Hcap & Hlive).
  destruct (Nat.eqb_spec i (size_ v)) as [->|Hne].
  - eapply wp_run; [apply (Emplace_at_end args e v)|].
    eapply wp_effect; [apply EmplaceBack_effect|].
    eapply wp_mono; [by apply (place_back_appends args P)| | |done];
      cbv beta.
    + intros [] e' v' (Hs & Hwf' & Hraw' & y & b' & HPy & Hb' & Hel).
      split; [done|]. split; [done|]. split; [done|].
      exists y, b'. split; [done|]. split; [done|]. intros HV.
      rewrite (Hel HV).
      destruct v as [[bv cv sv] nv]. cbn [data_ size_ storage] in *.
      apply (elements_snoc_insert (mkVector (mkRawMemory bv cv b') nv)).
      by apply (after_ctor_well_formed args _ _ sv).
    + intros e' v' (Hwf' & Hs' & Hraw'). split; [done|]. split; [done|].
      intros Hraw. rewrite <- Hs'. by apply Hraw'.
  - destruct (decide (size_ v = capacity_ (data_ v))) as [Hfull|Hroom].
    + eapply wp_run; [apply Emplace_reallocating; [lia|done]|].
      eapply wp_mono;
        [apply (EmplaceWithReallocate_spec i args P);
           [done|done|done|done|lia]
        | | |done]; cbv beta.
      * intros p e' v' (_ & Hs & _ & _ & Hwf' & Hraw' & Hel & _).
        split; [done|]. split; [done|]. split; [|done].
        intros _. by rewrite Hs.
      * intros e' v' (Hs & _ & _ & Hl). split; [done|].
        split; [intros [?|?]; lia|]. intros _ k Hk Hkl. lia.
    + eapply wp_run; [apply Emplace_in_place; [lia|done]|].
      eapply wp_mono;
        [apply (EmplaceWithoutReallocate_spec i args P);
           [done|done|done|lia|lia]
        | | |done]; cbv beta.
      * intros p e' v' (_ & Hs & _ & Hc & Hwf' & Hraw' & Hel & _).
        split; [done|]. split; [done|]. split; [|done].
        intros Hraw k Hk Hkl. destruct Hwf' as (Hlen' & _).
        apply Hraw'; [lia|]. apply Hraw; lia.
      * intros e' v' (Hwf' & Hs & _ & Hc & Hraw'). split; [done|].
        split; [done|]. intros Hraw k Hk Hkl. destruct Hwf' as (Hlen' & _).
        apply Hraw'; [lia|]. apply Hraw; lia.
Qed.

(** [std::move] keeps live cells live, also when an assignment throws *)
Lemma move_range_live n : forall first d e (b : block T),
  wp (move_range first n d)
     (fun _ _ b' => forall k, live b k -> live b' k)
     (fun _ b' =>
        length b' = length b /\ (forall k, live b k -> live b' k) /\
        (forall k, k < d \/ d + n <= k -> k < first \/ first + n <= k ->
                   b' !! k = b !! k))
     True e b.
Proof.
  induction n as [|n IH]; intros first d e b; simpl; [by apply wp_ret|].
  apply wp_bind, wp_move_assign_at.
  destruct (b !! d) as [[x|]|] eqn:Hx; try done.
  destruct (b !! first) as [[y|]|] eqn:Hy; try done. cbv zeta.
  destruct (move_assign x y (world e)) as [w [[x' y'] ok]]. cbn [fst snd].
  destruct ok.
  - eapply wp_mono; [apply IH| | |done]; cbv beta.
    + intros [] e' b' Hlive k Hk. by apply Hlive; do 2 apply live_insert.
    + intros e' b' (Hlen & Hlive & Hframe). rewrite !length_insert in Hlen.
      split; [done|]. split.
      * intros k Hk. by apply Hlive; do 2 apply live_insert.
      * intros k Hd Hf. rewrite Hframe by lia.
        by rewrite !list_lookup_insert_ne by lia.
  - rewrite !length_insert. split; [done|]. split.
    + intros k Hk. by do 2 apply live_insert.
    + intros k Hd Hf. by rewrite !list_lookup_insert_ne by lia.
Qed.

Lemma elements_delete (sv sv' : block T) nv i bv cv bv' cv' :
  i < nv -> nv <= length sv ->
  (forall k, k < i -> sv' !! k = sv !! k) ->
  (forall k, i <= k < nv - 1 -> sv' !! k = sv !! S k) ->
  elements (mkVector (mkRawMemory bv' cv' sv') (nv - 1)) =
  delete i (elements (mkVector (mkRawMemory bv cv sv) nv)).
Proof.
  intros Hi Hlen Hlow Hhigh. unfold elements. simpl.
  apply list_eq. intros k.
  destruct (decide (k < nv - 1)) as [Hk|Hk].
  - rewrite lookup_take_lt by done.
    destruct (decide (k < i)) as [Hki|Hki].
    + rewrite list_lookup_delete_lt by done.
      rewrite lookup_take_lt by lia. apply Hlow. lia.
    + rewrite list_lookup_delete_ge by lia.
      rewrite lookup_take_lt by lia. apply Hhigh. lia.
  - rewrite lookup_take_ge by lia.
    rewrite list_lookup_delete_ge by lia.
    by rewrite lookup_take_ge by lia.
Qed.

(** [Erase] at index [i < size] *)
Lemma Erase_wp i e (v : Vector T) :
  well_formed v -> i < size_ v ->
  wp (Erase (begin v + i))
     (fun p e' v' =>
        p = begin v' + i /\ size_ v' = size_ v - 1 /\
        buffer_ (data_ v') = buffer_ (data_ v) /\
        capacity_ (data_ v') = capacity_ (data_ v) /\
        well_formed v' /\
        (raw_from (size_ v) (storage (data_ v)) ->
         raw_from (size_ v') (storage (data_ v'))) /\
        (V -> elements v' = delete i (elements v)))
     (fun _ v' =>
        well_formed v' /\ size_ v' = size_ v /\
        buffer_ (data_ v') = buffer_ (data_ v) /\
        capacity_ (data_ v') = capacity_ (data_ v) /\
        (raw_from (size_ v) (storage (data_ v)) ->
         raw_from (size_ v') (storage (data_ v'))))
     False e v.
Proof using move_assign_law.
  destruct v as [[bv cv sv] nv]. intros Hwf Hi.
  pose proof Hwf as (Hlen & Hcap & Hlive).
  cbn [data_ size_ storage capacity_ buffer_] in *.
  unfold Erase, begin, end_, GetAddress.
  apply wp_bind, wp_get. cbn [data_ size_ buffer_ capacity_].
  apply wp_bind, wp_assert.
  2:{ intros Hb. apply andb_false_iff in Hb as [Hb|Hb]; arith. }
  intros _. unfold index_of, size_t_sub, begin, GetAddress.
  apply wp_bind, wp_bind, wp_get. cbn [data_ size_ buffer_ capacity_].
  destruct (Nat.leb_spec bv (bv + i)) as [_|]; [|lia].
  apply wp_ret. replace (bv + i - bv) with i by lia.
  apply wp_bind, wp_zoom. simpl. unfold std_move.
  destruct (Nat.leb_spec (i + 1) nv) as [_|]; [|lia].
  replace (i + 1) with (S i) by lia.
  assert (forall k, i <= k <= i + (nv - S i) -> live sv k) as Hrange
    by (intros k Hk; apply Hlive; lia).
  eapply wp_mono;
    [exact (wp_both True
              (move_range_spec V (nv - S i) move_assign_law i e sv Hrange)
              (move_range_live (nv - S i) (S i) i e sv))
    | | |done]; cbv beta.
  2:{ intros e1 b1 (_ & Hlen1 & Hlive1 & Hframe1). simpl.
      split; [|split; [done|split; [done|split; [done|]]]].
      - split; [simpl; lia|]. split; [done|]. simpl.
        intros k Hk. by apply Hlive1, Hlive.
      - intros Hraw k Hk Hkl. rewrite Hframe1 by lia. apply Hraw; lia. }
  intros [] e1 b1 ((Htr & Hlen1 & Hframe & Hlast & Hshift) & Hlive1).
  replace (i + (nv - S i)) with (nv - 1) in * by lia.
  unfold RawMemory_index. cbn [capacity_].
  apply wp_bind, wp_bind, wp_bind, wp_assert; [intros _|intros Hb; arith].
  apply wp_ret, wp_zoom, wp_destroy_at. simpl.
  destruct Hlast as [z Hz]. rewrite Hz.
  apply wp_bind, wp_decr_size, wp_bind, wp_get, wp_ret. simpl.
  split; [done|]. split; [done|]. split; [done|]. split; [done|].
  split; [|split].
  - split; [simpl; rewrite length_insert; lia|]. split; [simpl; lia|].
    simpl. intros k Hk. unfold live.
    rewrite list_lookup_insert_ne by lia. apply Hlive1, Hlive. lia.
  - intros Hraw k Hk Hkl. rewrite length_insert in Hkl.
    destruct (decide (k = nv - 1)) as [->|Hne].
    + apply list_lookup_insert_eq. lia.
    + rewrite list_lookup_insert_ne by lia. rewrite Hframe by lia.
      apply Hraw; lia.
  - intros HV. apply elements_delete; [done|lia| |].
    + intros k Hk. rewrite list_lookup_insert_ne by lia. apply Hframe. lia.
    + intros k Hk. rewrite list_lookup_insert_ne by lia.
      apply (Hshift HV). lia.
Qed.


(** [Reserve] that throws leaves the vector as it was *)
Lemma Reserve_strong n e (v : Vector T) :
  nothrow_move_sound ->
  is_nothrow_move_constructible = true \/ is_copy_constructible = true ->
  wp (Reserve n) (fun _ _ _ => True) (fun _ v' => v' = v) True e v.
Proof.
  intros Hsound Htraits. unfold Reserve. apply wp_bind, wp_get.
  destruct (n <=? capacity_ (data_ v)); [done|].
  apply wp_bind, wp_RawMemory_new; [intros p e1|done].
  apply wp_scope, wp_bind.
  eapply wp_mono;
    [apply (relocate_throw _ _ _ _ (fun _ _ _ => True)); done| | |done];
    cbv beta.
  - intros [] e2 x2 _. done.
  - intros e2 x2 [-> _]. done.
Qed.

(** [Resize] to a larger size that throws, for a type with the strong
    guarantee of [Reserve] *)
Lemma Resize_grow_throw n e (v : Vector T) :
  well_formed v -> size_ v < n ->
  nothrow_move_sound ->
  is_nothrow_move_constructible = true \/ is_copy_constructible = true ->
  wp (Resize n) (fun _ _ _ => True)
     (fun _ v' => V -> elements v' = elements v) True e v.
Proof using copy_law move_law.
  intros Hwf Hn Hsound Htraits.
  unfold Resize. apply wp_bind, wp_get, wp_bind.
  destruct (Nat.ltb_spec n (size_ v)) as [|_]; [lia|].
  destruct (Nat.ltb_spec (size_ v) n) as [_|]; [|lia].
  apply wp_bind.
  eapply wp_mono;
    [exact (wp_both True (Reserve_any_spec n e v Hwf)
              (Reserve_strong n e v Hsound Htraits))
    | | |done]; cbv beta.
  2:{ by intros e1 v1 (_ & ->). }
  intros [] e1 [[b1 c1 s1] n1] ((Hs1 & Hwf1 & Hc1 & Hel1 & _) & _).
  pose proof Hwf1 as (Hlen1 & Hcap1 & Hlive1).
  cbn [data_ size_ storage capacity_ buffer_] in *. subst n1.
  apply wp_zoom. simpl.
  eapply wp_mono;
    [apply (uninitialized_value_construct_n_spec (n - size_ v) (size_ v)); lia
    | | |done]; cbv beta; [done|].
  intros e2 s2 (j & Hj & _ & _ & _ & Hframe2) HV. simpl.
  rewrite <- (Hel1 HV). apply elements_eq; [done|]. simpl.
  intros k Hk. apply Hframe2. lia.
Qed.

End Exact.

Section Shapes.
Context {T : Type} `{Element T}.

(** [PushBack(T&&)] on a full vector of a type that is copied when
    relocated *)
Lemma PushBack_rvalue_copying value e (v : Vector T) :
  well_formed v -> refers (storage (data_ v)) (MoveOf value) ->
  size_ v = capacity_ (data_ v) ->
  is_nothrow_move_constructible || negb is_copy_constructible = false ->
  wp (PushBack_rvalue value)
     (fun _ _ v' =>
        size_ v' = size_ v + 1 /\ well_formed v' /\
        raw_from (size_ v') (storage (data_ v')))
     (fun _ v' =>
        well_formed v' /\ size_ v' = size_ v /\
        capacity_ (data_ v') = capacity_ (data_ v))
     False e v.
Proof.
  destruct v as [[bv cv sv0] nv]. intros Hwf0 Href Hfull Hflag.
  cbn [data_ size_ storage capacity_ buffer_] in *.
  unfold PushBack_rvalue, Capacity. apply wp_bind, wp_get.
  cbn [data_ size_ capacity_]. rewrite Hflag.
  destruct (Nat.eqb_spec nv cv) as [_|]; [|lia].
  pose proof (grown_gt nv) as Hg.
  apply wp_bind, wp_bind, wp_RawMemory_new; [intros p e1|done].
  apply wp_scope, wp_bind, wp_bind.
  unfold RawMemory_plus at 1. cbn [capacity_].
  apply wp_bind, wp_bind, wp_assert; [intros _|intros Hb; arith].
  apply wp_ret, wp_zoom. simpl.
  apply wp_bind, wp_zoom, wp_cell_ok;
    [intros _|simpl; rewrite length_replicate; lia].
  apply wp_bind, wp_zoom, move_from_exact; [done|].
  intros r e2 sv _ Hsv. simpl.
  pose proof (after_ctor_well_formed (MoveOf value) bv cv sv0 sv nv Hsv Hwf0)
    as Hwf.
  pose proof Hwf as (Hlen & Hcap & Hlive).
  cbn [data_ size_ storage capacity_ buffer_] in Hlen, Hcap, Hlive.
  assert (wp (match r.2 with
              | Some y => zoom snd_lens (store nv y)
              | None =>
                  let* j := RawMemory_index (mkRawMemory p (grown nv)
                                               (replicate (grown nv) None)) nv in
                  zoom snd_lens (CopyConstruct j r.1)
              end)
            (fun _ e' x' => exists y,
               x' = (sv, <[nv := Some y]> (replicate (grown nv) None)))
            (fun _ x' => x' = (sv, replicate (grown nv) None)) False
            e2 (sv, replicate (grown nv) None)) as Hnew.
  { destruct r.2 as [y|].
    - apply wp_zoom, wp_store;
        [intros _; by exists y|simpl; rewrite length_replicate; lia].
    - unfold RawMemory_index. cbn [capacity_].
      apply wp_bind, wp_bind, wp_assert; [intros _|intros Hb; arith].
      apply wp_ret, wp_zoom. unfold CopyConstruct.
      eapply wp_mono;
        [apply (construct_at_exact nv (CopyOf r.1) (fun _ => True));
           [done|done|simpl; rewrite length_replicate; lia]
        | | |done]; cbv beta.
      + intros [] e' b' (_ & y & b1 & -> & -> & _). by exists y.
      + by intros e' b' (_ & ->). }
  eapply wp_mono; [exact Hnew| | |done]; cbv beta.
  2:{ intros e3 x3 ->. simpl. done. }
  intros [] e3 x3 (y & ->). simpl.
  apply wp_bind, wp_get, wp_zoom. simpl.
  eapply wp_mono;
    [apply (uninitialized_copy_n_spec False (False_ind _) sv nv 0 0);
       [intros k Hk; apply Hlive; lia
       |rewrite length_insert, length_replicate; lia]
    | | |done]; cbv beta.
  2:{ intros e4 b4 _. simpl. done. }
  intros [] e4 b4 (_ & Hlen4 & Hframe4 & Hlive4 & _). simpl.
  rewrite length_insert, length_replicate in Hlen4.
  apply wp_bind, wp_zoom. simpl.
  eapply wp_mono;
    [apply (destroy_n_spec nv 0); intros k Hk; apply Hlive; lia
    | |done|done]; cbv beta.
  intros [] e5 b5 _. simpl.
  apply wp_zoom, wp_RawMemory_Swap. simpl.
  apply wp_incr_size. simpl. split; [done|]. split.
  - split; [done|]. split; [simpl; lia|]. simpl. intros k Hk.
    destruct (decide (k = nv)) as [->|Hne].
    + exists y. rewrite Hframe4 by lia. apply list_lookup_insert_eq.
      rewrite length_replicate. lia.
    + apply (Hlive4 k). lia.
  - intros k Hk Hkl. rewrite Hframe4 by lia.
    rewrite list_lookup_insert_ne by lia. apply lookup_replicate_2. lia.
Qed.

(** [PushBack(T&&)] in all its branches *)
Lemma PushBack_rvalue_spec value e (v : Vector T) :
  well_formed v -> refers (storage (data_ v)) (MoveOf value) ->
  wp (PushBack_rvalue value)
     (fun _ _ v' =>
        size_ v' = size_ v + 1 /\ well_formed v' /\
        (raw_from (size_ v) (storage (data_ v)) ->
         raw_from (size_ v') (storage (data_ v'))))
     (fun _ v' =>
        well_formed v' /\ size_ v' = size_ v /\
        (raw_from (size_ v) (storage (data_ v)) ->
         raw_from (size_ v') (storage (data_ v'))))
     False e v.
Proof.
  intros Hwf Href.
  assert (wp (place_back (MoveOf value) v >> incr_size)
     (fun _ _ v' =>
        size_ v' = size_ v + 1 /\ well_formed v' /\
        (raw_from (size_ v) (storage (data_ v)) ->
         raw_from (size_ v') (storage (data_ v'))))
     (fun _ v' =>
        well_formed v' /\ size_ v' = size_ v /\
        (raw_from (size_ v) (storage (data_ v)) ->
         raw_from (size_ v') (storage (data_ v'))))
     False e v) as Hpb.
  { eapply wp_mono;
      [apply (place_back_appends False (False_ind _) (False_ind _)
               (MoveOf value) (fun _ => True)); [|done|done]
      | | |done]; cbv beta.
    - apply constructs_any.
    - by intros [] e' v' (Hs & Hwf' & Hraw' & _).
    - done. }
  destruct (is_nothrow_move_constructible || negb is_copy_constructible)
    eqn:Hflag.
  - eapply wp_run;
      [apply PushBack_rvalue_as_place_back; left; exact Hflag|]. exact Hpb.
  - destruct (decide (size_ v = capacity_ (data_ v))) as [Hfull|Hroom].
    + eapply wp_mono; [by apply PushBack_rvalue_copying| | |done]; cbv beta.
      * intros [] e' v' (Hs & Hwf' & Hraw'). done.
      * intros e' v' (Hwf' & Hs & Hc). split; [done|]. split; [done|].
        intros _ k Hk Hkl. destruct Hwf' as (Hlen' & _). lia.
    + eapply wp_run;
        [apply PushBack_rvalue_as_place_back; right; left; exact Hroom|].
      exact Hpb.
Qed.

(** a constructor call that has defined behaviour was given a reference to
    an object *)
Lemma construct_refers c (Q : T -> Env -> block T -> Prop) R e b :
  (refers b c -> forall y e' b', Q y e' b') ->
  (refers b c -> forall e' b', R e' b') ->
  wp (construct c) Q R True e b.
Proof.
  intros HQ HR. destruct c as [a|x|[x|k]]; simpl in *.
  - apply wp_call; auto.
  - apply wp_call; auto.
  - apply wp_bind, wp_call_total. intros e'.
    destruct (move_ctor x (world e)).2.2; [apply wp_ret|apply wp_throw]; auto.
  - apply wp_bind, wp_bind, wp_load.
    destruct (b !! k) as [[x|]|] eqn:Hk; try done.
    assert (live b k) as Hl by (by exists x).
    apply wp_bind, wp_call_total. intros e'.
    apply wp_bind, wp_store; [intros _|done]. apply wp_ret.
    destruct (move_ctor x (world e)).2.2; [apply wp_ret|apply wp_throw]; auto.
Qed.

Lemma move_from_refers value (Q : T * option T -> Env -> block T -> Prop) R
    e b :
  (refers b (MoveOf value) -> forall r e' b', Q r e' b') ->
  wp (move_from value) Q R True e b.
Proof.
  intros HQ. destruct value as [x|k]; simpl in *.
  - apply wp_call_total. auto.
  - apply wp_bind, wp_load.
    destruct (b !! k) as [[x|]|] eqn:Hk; try done.
    assert (live b k) as Hl by (by exists x).
    apply wp_bind, wp_call_total. intros e'.
    apply wp_bind, wp_store; [intros _|done]. apply wp_ret. auto.
Qed.

Ltac wp_refers :=
  repeat first
    [ apply construct_refers; [intros ? ? ? ?|intros ? ? ?]
    | apply move_from_refers; intros ? ? ? ?
    | progress unfold construct_at, construct_across
    | apply wp_cell_ok; [intros ?|done]
    | wp_step
    | wp_opaque ];
  try done; simpl in *; try done.

Lemma place_back_refers args e (v : Vector T) :
  wp (place_back args v)
     (fun _ _ _ => refers (storage (data_ v)) args) (fun _ _ => True) True e v.
Proof. unfold place_back. wp_refers. Qed.

Lemma PushBack_rvalue_refers value e (v : Vector T) :
  wp (PushBack_rvalue value)
     (fun _ _ _ => refers (storage (data_ v)) (MoveOf value))
     (fun _ _ => True) True e v.
Proof. unfold PushBack_rvalue, CopyConstruct. wp_refers. Qed.

Lemma Emplace_refers pos args e (v : Vector T) :
  wp (Emplace pos args)
     (fun _ _ _ => refers (storage (data_ v)) args) (fun _ _ => True) True e v.
Proof.
  unfold Emplace, EmplaceBack, EmplaceWithReallocate, EmplaceWithoutReallocate.
  wp_refers.
Qed.

Lemma EmplaceBack_refers args e (v : Vector T) :
  wp (EmplaceBack args)
     (fun _ _ _ => refers (storage (data_ v)) args) (fun _ _ => True) True e v.
Proof. unfold EmplaceBack. wp_refers. Qed.

(** [PopBack] on a vector that is not empty *)
Lemma PopBack_result e (v : Vector T) x :
  well_formed v -> 0 < size_ v ->
  storage (data_ v) !! (size_ v - 1) = Some (Some x) ->
  PopBack e v =
  Ret tt (destroy x e)
    (mkVector
       (mkRawMemory (buffer_ (data_ v)) (capacity_ (data_ v))
          (<[size_ v - 1 := None]> (storage (data_ v))))
       (size_ v - 1)).
Proof.
  destruct v as [[bv cv sv] nv]. intros (Hlen & Hcap & Hlive) Hs Hx.
  cbn [data_ size_ storage capacity_ buffer_] in *.
  unfold PopBack, bind, get, assert, RawMemory_plus. cbn [data_ size_ capacity_].
  destruct (Nat.ltb_spec 0 nv) as [_|]; [|lia]. simpl.
  destruct (Nat.leb_spec (nv - 1) cv) as [_|]; [|lia]. simpl.
  unfold zoom, destroy_at, bind, load. simpl. rewrite Hx.
  unfold call_dtor, release, bind, cell_ok.
  destruct (Nat.ltb_spec (nv - 1) (length sv)) as [_|]; [|lia]. done.
Qed.


(** [Resize] to a size that is not larger *)
Lemma Resize_shrink_spec n e (v : Vector T) :
  well_formed v -> n <= size_ v ->
  wp (Resize n)
     (fun _ e' v' =>
        trace e' = trace e ++ replicate (size_ v - n) EvDtor /\
        size_ v' = n /\
        buffer_ (data_ v') = buffer_ (data_ v) /\
        capacity_ (data_ v') = capacity_ (data_ v) /\
        length (storage (data_ v')) = length (storage (data_ v)) /\
        (forall k, n <= k < size_ v -> storage (data_ v') !! k = Some None) /\
        (forall k, k < n \/ size_ v <= k ->
           storage (data_ v') !! k = storage (data_ v) !! k))
     (fun _ _ => False) False e v.
Proof.
  destruct v as [[bv cv sv] nv]. intros (Hlen & Hcap & Hlive) Hn.
  cbn [data_ size_ storage capacity_ buffer_] in *.
  unfold Resize. apply wp_bind, wp_get, wp_bind. cbn [data_ size_].
  destruct (Nat.ltb_spec n nv) as [Hlt|Hge].
  - apply wp_zoom. simpl.
    eapply wp_mono;
      [apply (destroy_n_spec (nv - n) n); intros k Hk; apply Hlive; lia
      | |done|done]; cbv beta.
    intros [] e' b' (Htr & Hlen' & Hraw & Hframe). apply wp_write_size. simpl.
    repeat split; try done.
    + intros k Hk. apply Hraw. lia.
    + intros k Hk. apply Hframe. lia.
  - destruct (Nat.ltb_spec nv n) as [|_]; [lia|].
    apply wp_ret, wp_write_size. simpl.
    replace (nv - n) with 0 by lia. rewrite app_nil_r.
    repeat split; try done. intros k Hk. lia.
Qed.


Lemma Swap_result e (v w : Vector T) : Swap e (v, w) = Ret tt e (w, v).
Proof. by destruct v as [[] ?], w as [[] ?]. Qed.

Abbreviation never_shrinks m :=
  (forall e (v : Vector T),
     wp m (fun _ _ v' => Capacity v <= Capacity v')
          (fun _ v' => Capacity v <= Capacity v') True e v).

Lemma Reserve_never_shrinks n : never_shrinks (Reserve n).
Proof.
  intros e v. eapply wp_mono; [apply Reserve_shape| | |done]; cbv beta.
  - by intros _ _ v' (_ & _ & Hc).
  - intros _ v' (_ & Hc). lia.
Qed.

Lemma Resize_never_shrinks n : never_shrinks (Resize n).
Proof.
  intros e v. unfold Resize. repeat wp_step.
  - wp_go; arith.
  - eapply wp_mono; [apply Reserve_shape| | |done]; cbv beta.
    + intros _ e' v' (Hs & Hn & Hc). wp_go; arith.
    + intros e' v' (Hs & Hc). arith.
  - wp_go; arith.
Qed.

Lemma PushBack_never_shrinks value : never_shrinks (PushBack value).
Proof. intros e v. unfold PushBack, CopyConstruct. wp_go; arith. Qed.

Lemma PushBack_rvalue_never_shrinks value :
  never_shrinks (PushBack_rvalue value).
Proof. intros e v. unfold PushBack_rvalue, CopyConstruct. wp_go; arith. Qed.

Lemma PopBack_never_shrinks : never_shrinks PopBack.
Proof. intros e v. unfold PopBack. wp_go; arith. Qed.

Lemma EmplaceBack_never_shrinks args : never_shrinks (EmplaceBack args).
Proof. intros e v. unfold EmplaceBack. wp_go; arith. Qed.

Lemma Emplace_never_shrinks pos args : never_shrinks (Emplace pos args).
Proof.
  intros e v. unfold Emplace. repeat wp_step.
  - apply EmplaceBack_never_shrinks.
  - unfold EmplaceWithReallocate. wp_go; arith.
  - unfold EmplaceWithoutReallocate. wp_go; arith.
Qed.

Lemma Erase_never_shrinks pos : never_shrinks (Erase pos).
Proof. intros e v. unfold Erase. wp_go; arith. Qed.

Lemma copy_assign_from_never_shrinks rhs : never_shrinks (copy_assign_from rhs).
Proof.
  intros e v. unfold copy_assign_from. repeat wp_step.
  - eapply wp_mono; [apply Vector_copy_shape| | |done]; cbv beta;
      [|by intros _ _ ->].
    intros large e' v' (-> & Hs & Hc). apply wp_scope. apply wp_Swap. simpl.
    destruct (Vector_dtor _ _); [|done]. arith.
  - eapply wp_mono; [apply assign_prefix_shape| | |done]; cbv beta.
    + intros _ e' v' (Hs & Hc). wp_go; arith.
    + intros e' v' (Hs & Hc). arith.
  - eapply wp_mono; [apply assign_prefix_shape| | |done]; cbv beta.
    + intros _ e' v' (Hs & Hc). wp_go; arith.
    + intros e' v' (Hs & Hc). arith.
Qed.

End Shapes.

(** * Behaviour of the member functions *)

Section Behaviour.
Context {T : Type} `{Element T}.
Variable args_value : Args -> T.
Abbreviation VS := (ValueSemantics args_value).

Lemma wp_returns {X A} (m : M X A) Q R U e x a e' x' :
  wp m Q R U e x -> m e x = Ret a e' x' -> Q a e' x'.
Proof. unfold wp. intros Hwp Hrun. by rewrite Hrun in Hwp. Qed.

Lemma wp_throws {X A} (m : M X A) Q R U e x e' x' :
  wp m Q R U e x -> m e x = Throw e' x' -> R e' x'.
Proof. unfold wp. intros Hwp Hrun. by rewrite Hrun in Hwp. Qed.

(** X1. [Reserve(n)] for [n] above the capacity of a well-formed vector,
    when it returns: the capacity is [n], the block is the one [operator new]
    gave for [n] elements, the size is the same and, [T] having value
    semantics, so are the elements.  It has made one allocation, [Size()]
    relocations (moves if the move constructor is [noexcept] or [T] cannot
    be copied, copies otherwise), [Size()] destructor calls and one
    deallocation, of the old block. *)
Theorem Reserve_reallocates (n : nat) (e e' : Env) (v v' : Vector T) :
  well_formed v -> Capacity v < n ->
  Reserve n e v = Ret tt e' v' ->
  Size v' = Size v /\ Capacity v' = n /\
  (operator_new n (world e)).2 = Some (begin v') /\
  (VS -> elements v' = elements v) /\
  trace e' =
    trace e ++ [EvNew n] ++ replicate (Size v) relocation_event ++
    replicate (Size v) EvDtor ++ [EvDelete (begin v)].
Proof.
  intros Hwf Hn Hrun.
  pose proof (Reserve_spec VS (copy_ctor_value _) (move_ctor_value _)
                n e v Hwf Hn) as Hwp.
  apply (wp_returns _ _ _ _ _ _ _ _ _ Hwp) in Hrun.
  destruct Hrun as (Hs & Hc & Hnew & _ & _ & Hel & Htr). done.
Qed.

(** X2. If [Reserve] exits with an exception and the move constructor of
    [T] is [noexcept] or [T] can be copied, the vector is the one before the
    call; and either the allocation failed or the block that was allocated
    has been given back, the deallocation being the last event. *)
Theorem Reserve_strong_guarantee (n : nat) (e e' : Env) (v v' : Vector T) :
  well_formed v -> nothrow_move_sound ->
  is_nothrow_move_constructible = true \/ is_copy_constructible = true ->
  Reserve n e v = Throw e' v' ->
  v' = v /\
  ((operator_new n (world e)).2 = None \/
   exists p, (operator_new n (world e)).2 = Some p /\
             last (trace e') = Some (EvDelete p)).
Proof.
  intros Hwf Hsound Htraits Hrun.
  split.
  { exact (wp_throws _ _ _ _ _ _ _ _
             (Reserve_strong n e v Hsound Htraits) Hrun). }
  destruct (Nat.leb_spec n (capacity_ (data_ v))) as [Hle|Hgt].
  { unfold Reserve, bind, get in Hrun. apply Nat.leb_le in Hle.
    by rewrite Hle in Hrun. }
  pose proof (Reserve_spec False (False_ind _) (False_ind _)
                n e v Hwf Hgt) as Hwp.
  apply (wp_throws _ _ _ _ _ _ _ _ Hwp) in Hrun.
  destruct Hrun as (_ & _ & _ & _ & [[Hnone _]|(p & j & Hp & _ & Htr)]);
    [by left|].
  right. exists p. split; [done|]. rewrite Htr.
  rewrite !app_assoc. apply last_snoc.
Qed.

(** X3. [PushBack], of a [const T&] or of a [T&&], and [EmplaceBack] keep
    the invariant of the class.  On a vector whose block has [capacity]
    cells, the first [size <= capacity] of them holding objects and the
    others being raw memory, they have defined behaviour, and they leave
    such a vector whether they return or exit with an exception.  A [T&&]
    argument may be an element of the vector itself. *)
Theorem push_back_keeps_invariant (value : T) (rvalue : Rvalue T)
    (args : Ctor T) (e : Env) (v : Vector T) :
  invariant v ->
  refers (storage (data_ v)) (MoveOf rvalue) ->
  refers (storage (data_ v)) args ->
  let kept {A} (m : M (Vector T) A) :=
    wp m (fun _ _ v' => invariant v') (fun _ v' => invariant v') False e v in
  kept (PushBack value) /\ kept (PushBack_rvalue rvalue) /\
  kept (EmplaceBack args).
Proof.
  intros [Hwf Hraw] Hrv Hargs kept. unfold kept.
  assert (forall c, refers (storage (data_ v)) c ->
            wp (place_back c v >> incr_size)
               (fun _ _ v' => invariant v') (fun _ v' => invariant v')
               False e v) as Hplace.
  { intros c Hc.
    eapply wp_mono;
      [apply (place_back_appends False (False_ind _) (False_ind _)
                c (fun _ => True)); [apply constructs_any|done|done]
      | | |done]; cbv beta.
    - intros [] e' v' (_ & Hwf' & Hraw' & _). split; [done|]. by apply Hraw'.
    - intros e' v' (Hwf' & _ & Hraw'). split; [done|]. by apply Hraw'. }
  split; [|split].
  - eapply wp_run; [apply PushBack_as_place_back|]. by apply Hplace.
  - eapply wp_mono; [by apply PushBack_rvalue_spec| | |done]; cbv beta.
    + intros [] e' v' (_ & Hwf' & Hraw'). split; [done|]. by apply Hraw'.
    + intros e' v' (Hwf' & _ & Hraw'). split; [done|]. by apply Hraw'.
  - eapply wp_effect; [apply EmplaceBack_effect|]. by apply Hplace.
Qed.


(** X4. [Emplace] (and so both [Insert]s) at a position inside a vector or
    at its end, and [Erase] at the position of an element, have defined
    behaviour on a vector that satisfies the invariant of the class, and
    leave such a vector when they return.  When they throw, the size is
    the one before the call.  [Erase] that throws keeps the invariant, and
    so does [Emplace] at the end.  [Emplace] before an element of a vector
    with room that throws leaves the vector well formed, but not always the
    invariant: the cell behind the last element may hold an object, which
    no destructor will be called for; the cells behind that one are raw. *)
Theorem positional_keeps_invariant (i : nat) (args : Ctor T) (e : Env)
    (v : Vector T) :
  invariant v -> refers (storage (data_ v)) args ->
  (i <= Size v ->
   wp (Emplace (begin v + i) args)
      (fun _ _ v' => invariant v')
      (fun _ v' =>
         Size v' = Size v /\
         (i = Size v -> invariant v') /\
         (i < Size v -> Size v < Capacity v ->
          well_formed v' /\ raw_from (Size v + 1) (storage (data_ v'))))
      False e v) /\
  (i < Size v ->
   wp (Erase (begin v + i))
      (fun _ _ v' => invariant v')
      (fun _ v' => Size v' = Size v /\ invariant v') False e v).
Proof.
  intros [Hwf Hraw] Hargs. unfold Size, Capacity. split; intros Hi.
  - eapply wp_mono;
      [apply (Emplace_spec False (False_ind _) (False_ind _) (False_ind _)
                i args (fun _ => True));
         [apply constructs_any|done|done|done]
      | | |done]; cbv beta.
    + intros p e' v' (_ & Hwf' & Hraw' & _). split; [done|]. by apply Hraw'.
    + intros e' v' (Hs & Hwf' & Hraw'). split; [done|]. split.
      * intros ->. split; [by apply Hwf'; left|].
        specialize (Hraw' Hraw). rewrite Nat.eqb_refl in Hraw'.
        by rewrite Hs.
      * intros Hlt Hroom. split; [by apply Hwf'; right|].
        specialize (Hraw' Hraw).
        destruct (Nat.eqb_spec i (size_ v)) as [|_]; [lia|done].
  - eapply wp_mono;
      [apply (Erase_wp False (False_ind _) i e v Hwf Hi)| | |done]; cbv beta.
    + intros p e' v' (_ & _ & _ & _ & Hwf' & Hraw' & _).
      split; [done|]. by apply Hraw'.
    + intros e' v' (Hwf' & Hs & _ & _ & Hraw').
      split; [done|]. split; [done|]. by apply Hraw'.
Qed.

(** X5. Under value semantics, [PushBack(const T&)] that returns has
    appended the value, and [EmplaceBack] the object its arguments
    construct, to the elements as the constructor call has left them:
    those before the call, but for an element of the vector that was given
    as a [T&&], which holds what the move constructor left in it.  So has
    [PushBack(T&&)] when the relocation moves, the vector has room, or the
    move construction of the value, which the call makes once the block is
    allocated, does not throw. *)
Theorem push_back_appends (value : T) (rvalue : Rvalue T) (args : Ctor T)
    (p : nat) (e e' : Env) (v v' : Vector T) :
  well_formed v -> VS ->
  (PushBack value e v = Ret tt e' v' ->
   elements v' = elements v ++ [Some value]) /\
  (EmplaceBack args e v = Ret p e' v' ->
   exists b',
     after_ctor args (storage (data_ v)) b' /\
     elements v' =
       take (Size v) b' ++
       [ctor_value args_value (storage (data_ v)) args]) /\
  (is_nothrow_move_constructible || negb is_copy_constructible = true \/
   size_ v <> Capacity v \/
   (forall x, referent (storage (data_ v)) rvalue = Some x ->
      (move_ctor x (operator_new (grown (size_ v)) (world e)).1).2.2
        <> None) ->
   PushBack_rvalue rvalue e v = Ret tt e' v' ->
   exists b',
     after_move rvalue (storage (data_ v)) b' /\
     elements v' =
       take (Size v) b' ++ [referent (storage (data_ v)) rvalue]).
Proof.
  intros Hwf HV.
  assert (forall c : Ctor T, refers (storage (data_ v)) c ->
            wp (place_back c v >> incr_size)
               (fun _ _ v' =>
                  exists b',
                    after_ctor c (storage (data_ v)) b' /\
                    elements v' =
                      take (Size v) b' ++
                      [ctor_value args_value (storage (data_ v)) c])
               (fun _ _ => True) False e v) as Happ.
  { intros c Hc.
    eapply wp_mono;
      [apply (place_back_appends VS (copy_ctor_value _) (move_ctor_value _)
                c _ e v (constructs_value args_value _ c) Hc Hwf)
      | |done|done]; cbv beta.
    intros [] e1 v1 (_ & _ & _ & y & b' & Hy & Hb' & Hel).
    exists b'. split; [done|]. rewrite (Hel HV). by rewrite (Hy HV). }
  split; [|split].
  - intros Hrun. rewrite PushBack_as_place_back in Hrun.
    destruct (wp_returns _ _ _ _ _ _ _ _ _ (Happ (CopyOf value) I) Hrun)
      as (b' & -> & Hel).
    exact Hel.
  - intros Hrun.
    pose proof (wp_returns _ _ _ _ _ _ _ _ _ (EmplaceBack_refers args e v)
                  Hrun) as Hargs.
    assert (wp (EmplaceBack args)
              (fun _ _ v' =>
                 exists b',
                   after_ctor args (storage (data_ v)) b' /\
                   elements v' =
                     take (Size v) b' ++
                     [ctor_value args_value (storage (data_ v)) args])
              (fun _ _ => True) False e v) as Hwp
      by (eapply wp_effect; [apply EmplaceBack_effect|by apply Happ]).
    exact (wp_returns _ _ _ _ _ _ _ _ _ Hwp Hrun).
  - intros Hcase Hrun.
    pose proof (wp_returns _ _ _ _ _ _ _ _ _
                  (PushBack_rvalue_refers rvalue e v) Hrun) as Hrv.
    rewrite PushBack_rvalue_as_place_back in Hrun
      by (destruct Hcase as [?|[?|?]]; auto).
    exact (wp_returns _ _ _ _ _ _ _ _ _ (Happ (MoveOf rvalue) Hrv) Hrun).
Qed.


(** X6. [PushBack] and [EmplaceBack] on a well-formed vector with room
    construct the new element in the first free cell and do nothing else:
    one constructor call, the same block and capacity.  [c] is the
    constructor call the operation makes; the other cells are as that call
    leaves them: as they were, but for an element of the vector that was
    given as a [T&&], which holds what the move constructor left in it.  If
    the constructor throws, size, block and capacity are those before the
    call, and the cells are as the constructor left them, whatever the
    element type. *)
Theorem push_back_in_place (value : T) (rvalue : Rvalue T) (args : Ctor T)
    (e : Env) (v : Vector T) :
  well_formed v -> Size v < Capacity v ->
  refers (storage (data_ v)) (MoveOf rvalue) ->
  refers (storage (data_ v)) args ->
  let in_place {A} (m : M (Vector T) A) (c : Ctor T) :=
    wp m
       (fun _ e' v' =>
          trace e' = trace e ++ [ctor_event c] /\
          exists y b',
            after_ctor c (storage (data_ v)) b' /\
            v' = mkVector
                   (mkRawMemory (begin v) (Capacity v)
                      (<[Size v := Some y]> b'))
                   (Size v + 1))
       (fun e' v' =>
          trace e' = trace e ++ [ctor_event c] /\
          exists b',
            after_ctor c (storage (data_ v)) b' /\
            v' = mkVector (mkRawMemory (begin v) (Capacity v) b') (Size v))
       False e v in
  in_place (PushBack value) (CopyOf value) /\
  in_place (PushBack_rvalue rvalue) (MoveOf rvalue) /\
  in_place (EmplaceBack args) args.
Proof.
  intros Hwf Hroom Hrv Hargs in_place. unfold in_place.
  assert (forall c : Ctor T, refers (storage (data_ v)) c ->
            wp (place_back c v >> incr_size)
               (fun _ e' v' =>
                  trace e' = trace e ++ [ctor_event c] /\
                  exists y b',
                    after_ctor c (storage (data_ v)) b' /\
                    v' = mkVector
                           (mkRawMemory (begin v) (Capacity v)
                              (<[Size v := Some y]> b'))
                           (Size v + 1))
               (fun e' v' =>
                  trace e' = trace e ++ [ctor_event c] /\
                  exists b',
                    after_ctor c (storage (data_ v)) b' /\
                    v' = mkVector (mkRawMemory (begin v) (Capacity v) b')
                           (Size v))
               False e v) as Hplace.
  { intros c Hc. apply wp_bind.
    eapply wp_mono;
      [apply (place_back_room_spec c (fun _ => True) e v
                (constructs_any _ c) Hc Hwf Hroom)
      | | |done]; cbv beta; [|done].
    intros [] e1 v1 (Htr & y & b' & Hb' & -> & _). apply wp_incr_size.
    split; [done|]. by exists y, b'. }
  split; [|split].
  - eapply wp_run; [apply PushBack_as_place_back|]. by apply Hplace.
  - eapply wp_run;
      [apply PushBack_rvalue_as_place_back; right; left;
       unfold Size, Capacity in *; lia|].
    by apply Hplace.
  - eapply wp_effect; [apply EmplaceBack_effect|]. by apply Hplace.
Qed.

(** X7. [PushBack(const T&)] and [EmplaceBack] on a full well-formed
    vector, when they return, have made one allocation for
    [size == 0 ? 1 : 2 * size] elements, one construction of the new
    element, exactly [Size()] relocations of the old ones, [Size()]
    destructor calls and one deallocation of the old block, in this order;
    so has [PushBack(T&&)] when the relocation moves. *)
Theorem push_back_relocation_count (value : T) (rvalue : Rvalue T)
    (args : Ctor T) (p : nat) (e e' : Env) (v v' : Vector T) :
  well_formed v -> Size v = Capacity v ->
  let relocated (ev : Event) :=
    trace e' =
      trace e ++ [EvNew (grown (Size v)); ev] ++
      replicate (Size v) relocation_event ++ replicate (Size v) EvDtor ++
      [EvDelete (begin v)] in
  (PushBack value e v = Ret tt e' v' -> relocated EvCopyCtor) /\
  (EmplaceBack args e v = Ret p e' v' -> relocated (ctor_event args)) /\
  (is_nothrow_move_constructible || negb is_copy_constructible = true ->
   PushBack_rvalue rvalue e v = Ret tt e' v' -> relocated EvMoveCtor).
Proof.
  intros Hwf Hfull relocated. unfold relocated.
  assert (forall c : Ctor T, refers (storage (data_ v)) c ->
            wp (place_back c v >> incr_size)
               (fun _ e1 _ =>
                  trace e1 =
                    trace e ++ [EvNew (grown (Size v)); ctor_event c] ++
                    replicate (Size v) relocation_event ++
                    replicate (Size v) EvDtor ++ [EvDelete (begin v)])
               (fun _ _ => True) False e v) as Hplace.
  { intros c Hc. apply wp_bind.
    eapply wp_mono;
      [apply (place_back_full_spec False (False_ind _) (False_ind _)
                c (fun _ => True) e v (constructs_any _ c) Hc Hwf Hfull)
      | |done|done]; cbv beta.
    by intros [] e1 v1 (Htr & _). }
  split; [|split].
  - intros Hrun. rewrite PushBack_as_place_back in Hrun.
    exact (wp_returns _ _ _ _ _ _ _ _ _ (Hplace (CopyOf value) I) Hrun).
  - intros Hrun.
    pose proof (wp_returns _ _ _ _ _ _ _ _ _ (EmplaceBack_refers args e v)
                  Hrun) as Hargs.
    assert (wp (EmplaceBack args)
              (fun _ e1 _ =>
                 trace e1 =
                   trace e ++ [EvNew (grown (Size v)); ctor_event args] ++
                   replicate (Size v) relocation_event ++
                   replicate (Size v) EvDtor ++ [EvDelete (begin v)])
              (fun _ _ => True) False e v) as Hwp
      by (eapply wp_effect; [apply EmplaceBack_effect|by apply Hplace]).
    exact (wp_returns _ _ _ _ _ _ _ _ _ Hwp Hrun).
  - intros Hflag Hrun.
    pose proof (wp_returns _ _ _ _ _ _ _ _ _
                  (PushBack_rvalue_refers rvalue e v) Hrun) as Hrv.
    rewrite PushBack_rvalue_as_place_back in Hrun by (by left).
    exact (wp_returns _ _ _ _ _ _ _ _ _ (Hplace (MoveOf rvalue) Hrv) Hrun).
Qed.

(** X8. [PopBack] on an empty vector is undefined behaviour.  On a
    well-formed vector that is not empty it returns, never throws, calls
    one destructor, on the last element, and leaves the other elements, the
    block and the capacity as they were: the size is one less and the cell
    of the last element is raw memory. *)
Theorem PopBack_spec (e : Env) (v : Vector T) :
  (Size v = 0 -> PopBack e v = Undef) /\
  (well_formed v -> 0 < Size v ->
   exists e' v',
     PopBack e v = Ret tt e' v' /\
     trace e' = trace e ++ [EvDtor] /\
     Size v' = Size v - 1 /\ Capacity v' = Capacity v /\
     begin v' = begin v /\ well_formed v' /\
     elements v' = take (Size v - 1) (elements v) /\
     storage (data_ v') !! (Size v - 1) = Some None).
Proof.
  split.
  - unfold Size. intros Hs. unfold PopBack, bind, get, assert. by rewrite Hs.
  - intros Hwf Hs. pose proof Hwf as (Hlen & Hcap & Hlive). unfold Size in *.
    destruct (Hlive (size_ v - 1)) as [x Hx]; [lia|].
    eexists _, _. split; [exact (PopBack_result e v x Hwf Hs Hx)|].
    split; [done|]. split; [done|]. split; [done|]. split; [done|].
    split; [|split].
    + split; [simpl; rewrite length_insert; lia|]. split; [simpl; lia|].
      simpl. intros k Hk. unfold live.
      rewrite list_lookup_insert_ne by lia. apply Hlive. lia.
    + unfold elements. simpl. rewrite take_insert_ge by lia.
      rewrite take_take. f_equal. lia.
    + simpl. apply list_lookup_insert_eq. lia.
Qed.

(** X9. [Erase] at the position of the last element does what [PopBack]
    does: no assignment, one destructor call, the size one less. *)
Theorem Erase_last_is_PopBack (e : Env) (v : Vector T) :
  Size v <= Capacity v -> 0 < Size v ->
  effect (Erase (end_ v - 1) e v) = effect (PopBack e v).
Proof.
  destruct v as [[bv cv sv] nv]. unfold Size, Capacity.
  cbn [data_ size_ capacity_]. intros Hcap Hs.
  assert (forall a b, a <= b -> (a <=? b) = true) as Hle
    by (intros; by apply Nat.leb_le).
  assert (forall a b, a < b -> (a <? b) = true) as Hlt
    by (intros; by apply Nat.ltb_lt).
  unfold Erase, PopBack, index_of, size_t_sub, begin, end_, GetAddress,
    RawMemory_index, RawMemory_plus, std_move.
  unfold bind, get, assert, zoom, ret, undef, decr_size.
  cbn [data_ size_ capacity_ buffer_ view update cells compose_lens
       data_lens storage_lens storage].
  rewrite (Hle bv (bv + nv - 1)), (Hlt (bv + nv - 1) (bv + nv)) by lia.
  rewrite (Hlt 0 nv), (Hle (nv - 1) cv) by lia.
  cbn [andb data_ size_ capacity_ buffer_ storage].
  replace (bv + nv - 1 - bv) with (nv - 1) by lia.
  rewrite (Hle bv (bv + nv - 1)) by lia.
  cbn [data_ size_ capacity_ buffer_ storage].
  rewrite (Hle (nv - 1 + 1) nv) by lia.
  replace (nv - (nv - 1 + 1)) with 0 by lia.
  cbn [move_range ret data_ size_ capacity_ buffer_ storage].
  rewrite (Hlt (nv - 1) cv) by lia.
  cbn [data_ size_ capacity_ buffer_ storage].
  by destruct (destroy_at (nv - 1) e sv).
Qed.

(** X10. [PopBack] undoes [PushBack]: after a [PushBack] that returned,
    [PopBack] returns, and, [T] having value semantics, the elements and
    the size are those before the [PushBack]; the capacity stays the one
    [PushBack] left. *)
Theorem PushBack_PopBack_round_trip (value : T) (e e1 : Env)
    (v v1 : Vector T) :
  well_formed v -> VS ->
  PushBack value e v = Ret tt e1 v1 ->
  exists e2 v2,
    PopBack e1 v1 = Ret tt e2 v2 /\
    elements v2 = elements v /\ Size v2 = Size v /\
    Capacity v2 = Capacity v1.
Proof.
  intros Hwf HV Hrun. rewrite PushBack_as_place_back in Hrun.
  pose proof (place_back_appends VS (copy_ctor_value _) (move_ctor_value _)
                (CopyOf value) (fun _ => True) e v
                (constructs_any _ _) I Hwf) as Hwp.
  apply (wp_returns _ _ _ _ _ _ _ _ _ Hwp) in Hrun.
  destruct Hrun as (Hs & Hwf1 & _ & y & b' & _ & Hb' & Hel).
  simpl in Hb'. subst b'. fold (elements v) in Hel.
  pose proof Hwf1 as (Hlen1 & Hcap1 & Hlive1).
  pose proof Hwf as (Hlen & Hcap & _).
  destruct (Hlive1 (size_ v1 - 1)) as [x Hx]; [lia|].
  eexists _, _. split; [apply (PopBack_result e1 v1 x Hwf1); [lia|done]|].
  split; [|split; [unfold Size; simpl; lia|done]].
  unfold elements at 1. simpl. rewrite take_insert_ge by lia.
  replace (take (size_ v1 - 1) (storage (data_ v1)))
    with (take (size_ v) (elements v1))
    by (unfold elements; rewrite take_take; f_equal; lia).
  rewrite (Hel HV). rewrite take_app_length'; [done|].
  unfold elements. rewrite length_take. lia.
Qed.


(** X11. [Resize(n)] with [n <= size] on a well-formed vector returns and
    never throws: it destroys the [size - n] last elements, leaves the first
    [n] as they are in the same block, and sets the size to [n]; the
    capacity does not change.  [Resize(size)] does nothing at all. *)
Theorem Resize_shrinks (n : nat) (e : Env) (v : Vector T) :
  well_formed v -> n <= Size v ->
  exists e' v',
    Resize n e v = Ret tt e' v' /\
    trace e' = trace e ++ replicate (Size v - n) EvDtor /\
    Size v' = n /\ Capacity v' = Capacity v /\ begin v' = begin v /\
    well_formed v' /\ elements v' = take n (elements v).
Proof.
  intros Hwf Hn. pose proof Hwf as (Hlen & Hcap & Hlive).
  pose proof (Resize_shrink_spec n e v Hwf Hn) as Hwp. unfold wp in Hwp.
  destruct (Resize n e v) as [[] e' [[bv' cv' sv'] nv']|e' v'|]; [|done..].
  destruct Hwp as (Htr & Hs & Hb & Hc & Hl & Hraw & Hframe).
  cbn [data_ size_ storage capacity_ buffer_] in *.
  eexists _, _. split; [done|]. split; [done|]. split; [done|].
  split; [done|]. split; [done|]. split.
  - split; [simpl; lia|]. split; [unfold Size in Hn; simpl; lia|].
    simpl. intros k Hk. unfold live. rewrite Hframe by lia.
    apply Hlive. unfold Size in Hn. lia.
  - unfold elements, Size in *. simpl. rewrite take_take.
    replace (n `min` size_ v) with n by lia. subst nv'.
    apply list_eq. intros k. destruct (decide (k < n)) as [Hk|Hk].
    + rewrite !lookup_take_lt by done. apply Hframe. lia.
    + by rewrite !lookup_take_ge by lia.
Qed.

(** X12. [Resize(n)] with [n > size] on a well-formed vector.  When it
    returns, the size is [n], the capacity [max(capacity, n)], the first
    [size] elements are (under value semantics) those before the call, and
    after a reallocation if [n > capacity] it has made [n - size] default
    constructions.  When it throws the size is the one before the call, and
    so are the elements if [T] has value semantics and a [noexcept] move
    constructor or can be copied; the capacity may have grown. *)
Theorem Resize_grows (n : nat) (e e' : Env) (v v' : Vector T) :
  well_formed v -> Size v < n ->
  (Resize n e v = Ret tt e' v' ->
   Size v' = n /\ Capacity v' = Nat.max (Capacity v) n /\
   (VS -> take (Size v) (elements v') = elements v) /\
   trace e' =
     trace e ++
     (if n <=? Capacity v then []
      else [EvNew n] ++ replicate (Size v) relocation_event ++
           replicate (Size v) EvDtor ++ [EvDelete (begin v)]) ++
     replicate (n - Size v) EvDefaultCtor) /\
  (Resize n e v = Throw e' v' ->
   Size v' = Size v /\
   (VS -> nothrow_move_sound ->
    is_nothrow_move_constructible = true \/ is_copy_constructible = true ->
    elements v' = elements v)).
Proof.
  intros Hwf Hn.
  pose proof (Resize_grow_spec VS (copy_ctor_value _) (move_ctor_value _)
                n e v Hwf Hn) as Hwp.
  split; intros Hrun.
  - apply (wp_returns _ _ _ _ _ _ _ _ _ Hwp) in Hrun.
    by destruct Hrun as (Hs & _ & Hc & Hel & Htr).
  - split.
    + apply (wp_throws _ _ _ _ _ _ _ _ Hwp) in Hrun. by destruct Hrun.
    + intros HV Hsound Htraits.
      exact (wp_throws _ _ _ _ _ _ _ _
               (Resize_grow_throw VS (copy_ctor_value _) (move_ctor_value _)
                  n e v Hwf Hn Hsound Htraits) Hrun HV).
Qed.

(** X13. The constructor [Vector(size)], for a [size] whose block the
    allocation function is asked for as it is (the product with
    [sizeof(T)] is not taken to wrap).  When it returns, size and capacity
    are [size], the vector is well formed, and it has made one allocation
    (none for [size = 0]) and [size] default constructions.  When it
    throws, the allocation failed, or every element constructed before the
    one that threw has been destroyed and the block given back. *)
Theorem Vector_sized_constructs {X : Type} (size : nat) (e e' : Env)
    (x x' : X) (v' : Vector T) :
  (Vector_sized size e x = Ret v' e' x' ->
   x' = x /\ Size v' = size /\ Capacity v' = size /\
   well_formed v' /\
   (size <> 0 -> (operator_new size (world e)).2 = Some (begin v')) /\
   trace e' =
     trace e ++ (if size =? 0 then [] else [EvNew size]) ++
     replicate size EvDefaultCtor) /\
  (Vector_sized size e x = Throw e' x' ->
   x' = x /\
   ((operator_new size (world e)).2 = None /\
    trace e' = trace e ++ [EvNew size] \/
    exists p j,
      (operator_new size (world e)).2 = Some p /\ j < size /\
      trace e' =
        trace e ++ [EvNew size] ++
        replicate (S j) EvDefaultCtor ++ replicate j EvDtor ++
        [EvDelete p])).
Proof.
  assert (wp (Vector_sized size)
            (fun v' e' x' =>
               x' = x /\ Size v' = size /\ Capacity v' = size /\
               well_formed v' /\
               (size <> 0 ->
                (operator_new size (world e)).2 = Some (begin v')) /\
               trace e' =
                 trace e ++ (if size =? 0 then [] else [EvNew size]) ++
                 replicate size EvDefaultCtor)
            (fun e' x' =>
               x' = x /\
               ((operator_new size (world e)).2 = None /\
                trace e' = trace e ++ [EvNew size] \/
                exists p j,
                  (operator_new size (world e)).2 = Some p /\ j < size /\
                  trace e' =
                    trace e ++ [EvNew size] ++
                    replicate (S j) EvDefaultCtor ++ replicate j EvDtor ++
                    [EvDelete p]))
            True e x) as Hwp.
  { unfold Size, Capacity, begin, GetAddress, Vector_sized.
    destruct (Nat.eqb_spec size 0) as [->|Hnz].
    - apply wp_bind. eapply wp_run; [apply RawMemory_new_0|].
      apply wp_ret, wp_ctor_body. simpl. apply wp_ret.
      rewrite app_nil_r. split; [done|]. split; [done|]. split; [done|].
      split; [apply well_formed_default|]. done.
    - apply wp_bind, wp_RawMemory_new_exact; [done|].
      destruct (operator_new size (world e)) as [w [p|]] eqn:Hnew;
        cbn [fst snd].
      2:{ split; [done|]. by left. }
      apply wp_ctor_body. cbn [storage buffer_ capacity_].
      eapply wp_mono;
        [apply (uninitialized_value_construct_n_spec size 0);
           rewrite length_replicate; lia
        | | |done]; cbv beta.
      + intros [] e1 b1 (Htr & Hlen1 & Hframe1 & Hlive1).
        rewrite length_replicate in Hlen1. simpl.
        split; [done|]. split; [done|]. split; [done|]. split.
        { split; [done|]. split; [simpl; lia|]. simpl. intros k Hk.
          by apply Hlive1. }
        split; [done|].
        rewrite Htr, log_trace. by rewrite <- !app_assoc.
      + intros e1 b1 (j & Hj & Htr & _). split; [done|]. right.
        exists p, j. split; [done|]. split; [done|].
        rewrite trace_Deallocate, Htr, log_trace. by rewrite <- !app_assoc. }
  split; intros Hrun.
  - exact (wp_returns _ _ _ _ _ _ _ _ _ Hwp Hrun).
  - exact (wp_throws _ _ _ _ _ _ _ _ Hwp Hrun).
Qed.

(** X14. The copy constructor of a well-formed vector has defined
    behaviour.  When it returns, size and capacity of the copy are the size
    of the source (no spare capacity), its elements are, under value
    semantics, those of the source, and it has made one allocation (none
    for an empty source) and [size] copy constructions.  When it throws,
    the allocation failed, or the elements copied so far have been
    destroyed and the block given back. *)
Theorem Vector_copy_constructs {X : Type} (other : Vector T) (e : Env)
    (x : X) :
  well_formed other ->
  wp (Vector_copy other)
     (fun v' e' x' =>
        x' = x /\ Size v' = Size other /\ Capacity v' = Size other /\
        well_formed v' /\ (VS -> elements v' = elements other) /\
        trace e' =
          trace e ++ (if Size other =? 0 then [] else [EvNew (Size other)])
          ++ replicate (Size other) EvCopyCtor)
     (fun e' x' =>
        x' = x /\
        ((operator_new (Size other) (world e)).2 = None /\
         trace e' = trace e ++ [EvNew (Size other)] \/
         exists p j,
           (operator_new (Size other) (world e)).2 = Some p /\
           j < Size other /\
           trace e' =
             trace e ++ [EvNew (Size other)] ++
             replicate (S j) EvCopyCtor ++ replicate j EvDtor ++
             [EvDelete p]))
     False e x.
Proof.
  intros Hwf.
  eapply wp_mono;
    [apply (Vector_copy_spec VS (copy_ctor_value _) other e x Hwf)
    | | |done]; cbv beta; [|done].
  intros v' e' x' (Hx & Hs & Hc & Hwf' & Hel & _ & Htr). done.
Qed.

(** X15. Copy assignment from a well-formed vector that is longer than the
    capacity of the target, or not longer than the target, has defined
    behaviour; when it returns, the target has the size of the source and,
    under value semantics, its elements, and is well formed.  In the first
    case the capacity is the size of the source, in the second it is
    unchanged.  When it throws, the target is well formed with its size
    unchanged, and in the first case it is the vector before the call. *)
Theorem copy_assignment_replaces (rhs : Vector T) (e : Env) (v : Vector T) :
  well_formed v -> well_formed rhs ->
  Capacity v < Size rhs \/ Size rhs <= Size v ->
  wp (copy_assign_from rhs)
     (fun _ _ v' =>
        Size v' = Size rhs /\
        Capacity v' =
          (if Capacity v <? Size rhs then Size rhs else Capacity v) /\
        well_formed v' /\ (VS -> elements v' = elements rhs))
     (fun _ v' =>
        well_formed v' /\ Size v' = Size v /\
        (Capacity v < Size rhs -> v' = v))
     False e v.
Proof.
  intros Hwf Hrhs Hcase. pose proof Hwf as (_ & Hcap & _).
  unfold Size, Capacity in *.
  destruct (Nat.ltb_spec (capacity_ (data_ v)) (size_ rhs)) as [Hlt|Hge].
  - eapply wp_mono;
      [apply (copy_assign_from_realloc_spec VS (copy_ctor_value _)
                rhs e v Hwf Hrhs Hlt)
      | | |done]; cbv beta.
    + by intros [] e' v' (Hs & Hc & Hwf' & Hel & _).
    + by intros e' v' ->.
  - destruct Hcase as [?|Hle]; [lia|].
    eapply wp_mono;
      [apply (copy_assign_from_shrink_spec VS (copy_assign_value _)
                rhs e v Hwf Hrhs Hle)
      | | |done]; cbv beta.
    + by intros [] e' v' (Hs & _ & Hc & Hwf' & Hel & _).
    + intros e' v' (Hwf' & Hs). split; [done|]. split; [done|]. lia.
Qed.

(** X16. What copy assignment costs.  From a source longer than the
    capacity: one allocation, one copy construction for each element of the
    source, then one destructor call for each old element and the
    deallocation of the old block.  From a source not longer than the
    target: one copy assignment for each element of the source, then one
    destructor call for each element in excess; no allocation. *)
Theorem copy_assignment_counts (rhs : Vector T) (e e' : Env)
    (v v' : Vector T) :
  well_formed v -> well_formed rhs ->
  copy_assign_from rhs e v = Ret tt e' v' ->
  (Capacity v < Size rhs ->
   trace e' =
     trace e ++ [EvNew (Size rhs)] ++ replicate (Size rhs) EvCopyCtor ++
     replicate (Size v) EvDtor ++ [EvDelete (begin v)]) /\
  (Size rhs <= Size v ->
   trace e' =
     trace e ++ replicate (Size rhs) EvCopyAssign ++
     replicate (Size v - Size rhs) EvDtor).
Proof.
  intros Hwf Hrhs Hrun. split; intros Hcase.
  - pose proof (copy_assign_from_realloc_spec False (False_ind _)
                  rhs e v Hwf Hrhs Hcase) as Hwp.
    apply (wp_returns _ _ _ _ _ _ _ _ _ Hwp) in Hrun.
    by destruct Hrun as (_ & _ & _ & _ & Htr).
  - pose proof (copy_assign_from_shrink_spec False (False_ind _)
                  rhs e v Hwf Hrhs Hcase) as Hwp.
    apply (wp_returns _ _ _ _ _ _ _ _ _ Hwp) in Hrun.
    by destruct Hrun as (_ & _ & _ & _ & _ & Htr).
Qed.


(** X17. [Swap] of two different vectors returns with the environment
    unchanged: no element is constructed, assigned or destroyed and no
    block allocated.  Each object then holds the block, capacity, size and
    cells the other had; a second [Swap] gives back the store before the
    first.  Swapping a vector with itself changes nothing. *)
Theorem Swap_exchanges (this other : nat) (v w : Vector T) (e : Env)
    (st : Objects T) :
  st !! this = Some v -> st !! other = Some w ->
  (this <> other ->
   Swap_objects this other e st =
     Ret tt e (<[other := v]> (<[this := w]> st)) /\
   (Swap_objects this other >> Swap_objects this other) e st = Ret tt e st) /\
  Swap_objects this this e st = Ret tt e st.
Proof.
  intros Hv Hw. split.
  - intros Hne.
    assert (forall a b (s : Objects T), a <> b -> forall x y,
              s !! a = Some x -> s !! b = Some y ->
              Swap_objects a b e s = Ret tt e (<[b := x]> (<[a := y]> s)))
      as Hswap.
    { intros a b s Hab x y Hx Hy. unfold Swap_objects, on_objects.
      destruct (Nat.eqb_spec a b) as [|_]; [done|].
      by rewrite Hx, Hy, Swap_result. }
    split; [by apply Hswap|].
    unfold bind. rewrite (Hswap this other st Hne v w Hv Hw).
    rewrite (Hswap this other _ Hne w v).
    + f_equal. apply map_eq. intros k.
      destruct (decide (k = other)) as [->|Hko].
      { by rewrite lookup_insert_eq. }
      rewrite lookup_insert_ne by done.
      destruct (decide (k = this)) as [->|Hkt].
      { by rewrite lookup_insert_eq. }
      by rewrite !lookup_insert_ne by done.
    + rewrite lookup_insert_ne by done. by rewrite lookup_insert_eq.
    + by rewrite lookup_insert_eq.
  - unfold Swap_objects, bind, get. by rewrite Nat.eqb_refl, Hv.
Qed.

(** X18. The destructor of a well-formed vector has defined behaviour: it
    calls the destructor of each of the [Size()] elements and then gives
    the block back, once. *)
Theorem Vector_dtor_destroys (v : Vector T) (e : Env) :
  well_formed v ->
  exists e',
    Vector_dtor v e = Some e' /\
    trace e' = trace e ++ replicate (Size v) EvDtor ++ [EvDelete (begin v)].
Proof. apply Vector_dtor_result. Qed.

(** X19. No member function that works on one vector ever lowers its
    capacity, whether it returns or exits with an exception: [Reserve],
    [Resize], [PushBack], [PopBack], [EmplaceBack], [Emplace], [Insert],
    [Erase] and copy assignment.  Shrinking the size, by [Resize],
    [PopBack] or [Erase], gives no memory back. *)
Theorem capacity_never_shrinks (n pos : nat) (value : T)
    (rvalue : Rvalue T) (args : Ctor T) (rhs : Vector T) (e : Env)
    (v : Vector T) :
  let kept {A} (m : M (Vector T) A) :=
    wp m (fun _ _ v' => Capacity v <= Capacity v')
         (fun _ v' => Capacity v <= Capacity v') True e v in
  kept (Reserve n) /\ kept (Resize n) /\ kept (PushBack value) /\
  kept (PushBack_rvalue rvalue) /\ kept PopBack /\
  kept (EmplaceBack args) /\ kept (Emplace pos args) /\
  kept (Insert pos value) /\ kept (Insert_rvalue pos rvalue) /\
  kept (Erase pos) /\ kept (copy_assign_from rhs).
Proof.
  intros kept. unfold kept. repeat split.
  - apply Reserve_never_shrinks.
  - apply Resize_never_shrinks.
  - apply PushBack_never_shrinks.
  - apply PushBack_rvalue_never_shrinks.
  - apply PopBack_never_shrinks.
  - apply EmplaceBack_never_shrinks.
  - apply Emplace_never_shrinks.
  - apply Emplace_never_shrinks.
  - apply Emplace_never_shrinks.
  - apply Erase_never_shrinks.
  - apply copy_assign_from_never_shrinks.
Qed.

(** X20. Under value semantics, [Emplace] at index [i <= size] of a
    well-formed vector, when it returns, has inserted the object its
    arguments construct before the element that was at [i]: the elements
    are the first [i] old ones, the new one, and the old ones from [i] on,
    in their order.  The old ones are the elements as the constructor call
    has left them: those before the call, but for an element of the vector
    that was given as a [T&&], which holds what the move constructor left
    in it.  [Insert] is [Emplace] with the copy or the move constructor. *)
Theorem Emplace_inserts (i : nat) (args : Ctor T) (p : nat) (e e' : Env)
    (v v' : Vector T) :
  well_formed v -> VS -> i <= Size v ->
  Emplace (begin v + i) args e v = Ret p e' v' ->
  Size v' = Size v + 1 /\
  exists b',
    after_ctor args (storage (data_ v)) b' /\
    elements v' =
      take i (take (Size v) b') ++
      ctor_value args_value (storage (data_ v)) args ::
      drop i (take (Size v) b').
Proof.
  intros Hwf HV Hi Hrun.
  pose proof (wp_returns _ _ _ _ _ _ _ _ _
                (Emplace_refers (begin v + i) args e v) Hrun) as Hargs.
  pose proof (Emplace_spec VS (copy_ctor_value _) (move_ctor_value _)
                (move_assign_value _) i args _ e v
                (constructs_value args_value _ args) Hargs Hwf Hi) as Hwp.
  apply (wp_returns _ _ _ _ _ _ _ _ _ Hwp) in Hrun.
  destruct Hrun as (Hs & _ & _ & y & b' & Hy & Hb' & Hel).
  split; [done|]. exists b'. split; [done|].
  rewrite (Hel HV). by rewrite (Hy HV).
Qed.

(** X21. [Emplace] before an element of a well-formed vector with room,
    when it returns, has constructed a temporary, move-constructed the last
    element one cell up, move-assigned the [size - 1 - i] elements between
    the position and the last one cell up, move-assigned the temporary to
    the position and destroyed the temporary: [end() - pos] moves of old
    elements and one of the new.  Block and capacity are unchanged. *)
Theorem Emplace_in_place_count (i : nat) (args : Ctor T) (p : nat)
    (e e' : Env) (v v' : Vector T) :
  well_formed v -> i < Size v -> Size v < Capacity v ->
  Emplace (begin v + i) args e v = Ret p e' v' ->
  begin v' = begin v /\ Capacity v' = Capacity v /\
  trace e' =
    trace e ++ [ctor_event args; EvMoveCtor] ++
    replicate (Size v - 1 - i) EvMoveAssign ++ [EvMoveAssign; EvDtor].
Proof.
  intros Hwf Hi Hroom Hrun. unfold Size, Capacity in *.
  pose proof (wp_returns _ _ _ _ _ _ _ _ _
                (Emplace_refers (begin v + i) args e v) Hrun) as Hargs.
  rewrite Emplace_in_place in Hrun by lia.
  pose proof (EmplaceWithoutReallocate_spec False (False_ind _) (False_ind _)
                i args (fun _ => True) e v (constructs_any _ _) Hargs Hwf
                Hroom Hi)
    as Hwp.
  apply (wp_returns _ _ _ _ _ _ _ _ _ Hwp) in Hrun.
  by destruct Hrun as (_ & _ & Hb & Hc & _ & _ & _ & Htr).
Qed.

(** X22. [Emplace] before an element of a full well-formed vector, when it
    returns, has allocated for [2 * size] elements, constructed the new
    element at its index, relocated the [i] elements before the position
    and destroyed the old ones, relocated the [size - i] elements from the
    position on and destroyed the old ones, and given the old block back:
    exactly [Size()] moves or copies of old elements. *)
Theorem Emplace_relocation_count (i : nat) (args : Ctor T) (p : nat)
    (e e' : Env) (v v' : Vector T) :
  well_formed v -> i < Size v -> Size v = Capacity v ->
  Emplace (begin v + i) args e v = Ret p e' v' ->
  Capacity v' = grown (Size v) /\
  (operator_new (grown (Size v)) (world e)).2 = Some (begin v') /\
  trace e' =
    trace e ++ [EvNew (grown (Size v)); ctor_event args] ++
    replicate i relocation_event ++ replicate i EvDtor ++
    replicate (Size v - i) relocation_event ++
    replicate (Size v - i) EvDtor ++ [EvDelete (begin v)].
Proof.
  intros Hwf Hi Hfull Hrun. unfold Size, Capacity in *.
  pose proof (wp_returns _ _ _ _ _ _ _ _ _
                (Emplace_refers (begin v + i) args e v) Hrun) as Hargs.
  rewrite Emplace_reallocating in Hrun by done.
  pose proof (EmplaceWithReallocate_spec False (False_ind _) (False_ind _)
                i args (fun _ => True) e v (constructs_any _ _) Hargs Hwf
                Hfull ltac:(lia)) as Hwp.
  apply (wp_returns _ _ _ _ _ _ _ _ _ Hwp) in Hrun.
  by destruct Hrun as (_ & _ & Hc & Hnew & _ & _ & _ & Htr).
Qed.

(** X23. [Erase] undoes [Emplace]: applied to the iterator that an
    [Emplace] on a well-formed vector returned, [Erase] has defined
    behaviour, and when it returns the size is the one before the
    [Emplace] and the elements are, under value semantics, those the
    constructor call of the [Emplace] left: the ones before the [Emplace],
    but for an element of the vector that was given as a [T&&], which
    holds what the move constructor left in it. *)
Theorem Emplace_Erase_round_trip (i : nat) (args : Ctor T) (p p2 : nat)
    (e e1 e2 : Env) (v v1 v2 : Vector T) :
  well_formed v -> VS -> i <= Size v ->
  Emplace (begin v + i) args e v = Ret p e1 v1 ->
  Erase p e1 v1 <> Undef /\
  (Erase p e1 v1 = Ret p2 e2 v2 ->
   (exists b',
      after_ctor args (storage (data_ v)) b' /\
      elements v2 = take (Size v) b') /\
   Size v2 = Size v /\ p2 = p).
Proof.
  intros Hwf HV Hi Hrun. pose proof Hwf as (Hlen & Hcap & _).
  unfold Size in *.
  pose proof (wp_returns _ _ _ _ _ _ _ _ _
                (Emplace_refers (begin v + i) args e v) Hrun) as Hargs.
  pose proof (Emplace_spec VS (copy_ctor_value _) (move_ctor_value _)
                (move_assign_value _) i args _ e v
                (constructs_value args_value _ args) Hargs Hwf Hi) as Hwp.
  pose proof (Emplace_position args_value (begin v + i) args e v) as Hpos.
  apply (wp_returns _ _ _ _ _ _ _ _ _ Hwp) in Hrun as Hpost.
  apply (wp_returns _ _ _ _ _ _ _ _ _ Hpos) in Hrun as Hp.
  destruct Hpost as (Hs & Hwf1 & _ & y & b' & Hy & Hb' & Hel).
  destruct Hp as (Hp & _). replace (begin v + i - begin v) with i in Hp by lia.
  subst p.
  pose proof (Erase_wp VS (move_assign_value _) i e1 v1 Hwf1 ltac:(lia))
    as Her.
  split.
  { unfold wp in Her. by destruct (Erase (begin v1 + i) e1 v1). }
  intros Hrun2.
  apply (wp_returns _ _ _ _ _ _ _ _ _ Her) in Hrun2.
  destruct Hrun2 as (-> & Hs2 & Hb2 & _ & _ & _ & Hel2).
  split; [|split; [lia|unfold begin, GetAddress; by rewrite Hb2]].
  exists b'. split; [done|].
  rewrite (Hel2 HV), (Hel HV).
  assert (length (take i (elements (update cells b' v))) = i) as Hli.
  { unfold elements. simpl. rewrite !length_take.
    pose proof (after_ctor_length _ _ _ Hb'). lia. }
  rewrite <- Hli at 1. rewrite delete_middle. rewrite take_drop.
  by destruct v as [[bv cv sv] nv].
Qed.

(** X24. Move assignment from another vector gives the old block of the
    target back and does nothing else: one [operator delete], and no
    destructor call, so that the elements the target held are not
    destroyed.  The move constructor calls [operator delete] on the null
    pointer of the new, empty vector. *)
Theorem move_assignment_destroys_nothing (this rhs : nat) (v w : Vector T)
    (e : Env) (st : Objects T) :
  this <> rhs -> st !! rhs = Some v ->
  (st !! this = Some w ->
   exists e' st',
     move_assignment this rhs e st = Ret tt e' st' /\
     trace e' = trace e ++ [EvDelete (begin w)]) /\
  (st !! this = None ->
   exists e' st',
     move_construction this rhs e st = Ret tt e' st' /\
     trace e' = trace e ++ [EvDelete 0]).
Proof.
  intros Hne Hrhs. split; intros Hthis.
  - exists (Deallocate (buffer_ (data_ w)) e),
      (<[rhs := Vector_default]> (<[this := v]> st)).
    split; [|done]. unfold move_assignment, on_objects.
    destruct (Nat.eqb_spec this rhs) as [|_]; [done|].
    by rewrite Hthis, Hrhs, take_over_result.
  - exists (Deallocate 0 e), (<[this := v]> (<[rhs := Vector_default]> st)).
    split; [|done].
    unfold move_construction, new_object, on_object, bind, get.
    by rewrite Hthis, Hrhs, Vector_move_result.
Qed.

End Behaviour.

(** * Runs on the sample element type *)

Section SampleRuns.
Import Sample.
Open Scope string_scope.

Lemma sample_value_semantics nothrow copyable :
  @ValueSemantics string (element nothrow copyable) (fun a => a).
Proof.
  split; simpl.
  - intros a w y. destruct (next w) as [w' []]; simpl; congruence.
  - intros x w y. destruct (next w) as [w' []]; simpl; congruence.
  - intros x w y. destruct nothrow; simpl; [congruence|].
    destruct (next w) as [w' []]; simpl; congruence.
  - intros d s w. by destruct (next w) as [w' []].
  - intros d s w. by destruct (next w) as [w' []].
Qed.

Lemma sample_nothrow_move_sound nothrow copyable :
  @nothrow_move_sound string (element nothrow copyable).
Proof. intros Hn x w. simpl in *. by rewrite Hn. Qed.

(** C1, at a failing input.  [a] holds ["1"; "2"] in a block of three cells,
    [b] holds ["a"; "b"; "c"].  [a = b] assigns the prefix ["a"; "b"] and then
    copy-constructs the tail from [b]'s cell [b.size - a.size = 1], not from
    cell [a.size = 2]: [a] becomes ["a"; "b"; "b"].  With [a] empty in the
    same block the tail would be read from cells 3 to 5 of [b], which hold no
    object. *)
Theorem copy_assignment_copies_wrong_tail :
  let E := element true true in
  let a := one_two in
  let b := abc in
  match @copy_assign_from string E b (start true true []) a with
  | Ret _ _ a' =>
      elements a' = [Some "a"; Some "b"; Some "b"] /\
      elements a' <> elements b
  | _ => False
  end /\
  @copy_assign_from string E b (start true true [])
    (mkVector (mkRawMemory 16 3 [None; None; None]) 0) = Undef.
Proof. vm_compute. split; [split|]; [reflexivity|discriminate|reflexivity]. Qed.


Lemma abc_well_formed : well_formed abc.
Proof.
  split; [reflexivity|]. split; [simpl; lia|].
  intros i Hi. simpl in Hi. unfold live.
  destruct i as [|[|[|i]]]; [by eexists..|lia].
Qed.

(** [Reserve(2)] on a vector of capacity 4 *)
Lemma Reserve_within_capacity_witness :
  2 <= Capacity abc /\
  @Reserve string moving 2 (start true true []) abc =
    Ret tt (start true true []) abc.
Proof.
  split; [vm_compute; lia|].
  apply (@Reserve_within_capacity string moving). vm_compute. lia.
Defined.

(** the scenario of the specification: ["a"; "b"] in a full block,
    [PushBack("c")], and the copy of ["a"] into the new block throws *)
Lemma push_back_strong_guarantee_witness :
  let e := start false true [false; false; true] in
  let o := @PushBack string copying "c" e ab in
  @is_copy_constructible string copying = true /\
  o = Throw (final_env o e) ab /\
  Size ab = 2 /\ Capacity ab = 2 /\ elements ab = [Some "a"; Some "b"].
Proof.
  intros e o.
  assert (o = Throw (final_env o e) ab) as Hrun by (vm_compute; reflexivity).
  split; [reflexivity|]. split; [exact Hrun|].
  destruct (@push_back_strong_guarantee string copying "c" (Outside "c")
              (CopyOf "c") e (final_env o e) ab ab
              (sample_nothrow_move_sound false true)
              (or_intror eq_refl)
              (or_introl (conj Hrun eq_refl)))
    as (Hsame & Hs & Hc & _).
  specialize (Hsame (or_intror I)).
  split; [exact Hs|]. split; [exact Hc|]. reflexivity.
Defined.

(** C3 as stated fails when the [T&&] that [PushBack] is given is an
    element of the vector itself, as in [v.PushBack(std::move(v[0]))], and
    the move constructor is not [noexcept]: on the full vector ["a"; "b"]
    of strings that can be copied, the block is allocated, the new element
    is move-constructed from ["a"], which leaves that element empty, and
    the relocation copy of the first element throws.  [PushBack] exits with
    the exception and the vector holds [""; "b"]. *)
Lemma push_back_of_own_element_not_strong :
  let e := start false true [false; false; true] in
  let o := @PushBack_rvalue string copying (Inside 0) e ab in
  @is_copy_constructible string copying = true /\
  o = Throw (final_env o e)
        (mkVector (mkRawMemory 17 2 [Some ""; Some "b"]) 2) /\
  elements (mkVector (mkRawMemory 17 2 [Some ""; Some "b"]) 2) <>
  elements ab.
Proof. vm_compute. split; [|split]; [reflexivity|reflexivity|discriminate]. Qed.

(** a store reached by a default construction, two calls of [PushBack] that
    return and one that throws *)
Lemma size_le_capacity_invariant_witness :
  @reachable string copying (<[0 := ab]> ∅) /\
  0 <= Size ab /\ Size ab <= Capacity ab.
Proof.
  assert (@reachable string copying (<[0 := ab]> ∅)) as Hreach.
  { set (e := start false true []).
    set (st1 := <[0 := Vector_default]> ∅ : Objects string).
    set (st2 := <[0 := mkVector (mkRawMemory 16 1 [Some "a"]) 1]> ∅
                : Objects string).
    set (e3 := start false true [false; false; true]).
    apply (@reach_throw string copying (OpPushBack 0 "c") e3 (<[0 := ab]> ∅)
             (final_env (@exec string copying (OpPushBack 0 "c") e3
                           (<[0 := ab]> ∅)) e3));
      [|vm_compute; reflexivity].
    apply (@reach_return string copying (OpPushBack 0 "b")
             (@mkEnv string copying (mkHost [] 17) []) st2
             (final_env (@exec string copying (OpPushBack 0 "b")
                           (@mkEnv string copying (mkHost [] 17) []) st2) e));
      [|vm_compute; reflexivity].
    apply (@reach_return string copying (OpPushBack 0 "a") e st1
             (final_env (@exec string copying (OpPushBack 0 "a") e st1) e));
      [|vm_compute; reflexivity].
    apply (@reach_return string copying (OpDefault 0) e ∅ e);
      [apply reach_empty|vm_compute; reflexivity]. }
  split; [exact Hreach|].
  apply (@size_le_capacity_invariant string copying _ Hreach 0 ab).
  vm_compute. reflexivity.
Defined.


(** [Erase(begin())] on ["a"; "b"; "c"] *)
Lemma Erase_spec_witness :
  let e := start true true [] in
  well_formed abc /\ 0 < Size abc /\
  match @Erase string moving (begin abc + 0) e abc with
  | Ret pos e' v' =>
      Size v' = 2 /\
      trace e' = [EvMoveAssign; EvMoveAssign; EvDtor] /\
      pos = begin v' + 0 /\
      elements v' = [Some "b"; Some "c"]
  | _ => False
  end.
Proof.
  intros e. split; [apply abc_well_formed|]. split; [simpl; lia|].
  pose proof (@Erase_spec string moving (fun a => a) abc 0 e
                abc_well_formed ltac:(simpl; lia)) as Hspec.
  destruct (@Erase string moving (begin abc + 0) e abc) as [pos e' v'| |]
    eqn:Hrun; vm_compute in Hrun; [|discriminate..].
  destruct Hspec as (Hs & Ht & Hp & _ & He).
  split; [exact Hs|]. split; [exact Ht|]. split; [exact Hp|].
  exact (He (sample_value_semantics true true)).
Defined.

(** move assignment from the vector at 1 to the vector at 0 *)
Lemma move_leaves_source_empty_witness :
  let e := start true true [] in
  let st : Objects string := <[1 := ab]> (<[0 := abc]> ∅) in
  0 <> 1 /\ st !! 1 = Some ab /\ is_Some (st !! 0) /\
  exists e' st' o,
    @move_assignment string moving 0 1 e st = Ret tt e' st' /\
    st' !! 0 = Some ab /\ st' !! 1 = Some o /\
    Size o = 0 /\ Capacity o = 0 /\ elements o = [].
Proof.
  intros e st.
  assert (st !! 1 = Some ab) as Hrhs by (vm_compute; reflexivity).
  assert (is_Some (st !! 0)) as Hthis by (exists abc; vm_compute; reflexivity).
  split; [discriminate|]. split; [exact Hrhs|]. split; [exact Hthis|].
  apply (@move_leaves_source_empty string moving 0 1 ab e st);
    [discriminate|exact Hrhs|].
  right. split; [reflexivity|exact Hthis].
Defined.

(** insertion at the end of the full vector ["a"; "b"] of strings that can
    be copied and whose move constructor may throw; the [T&&] is the first
    element of the vector, and its move construction in this call does not
    throw *)
Lemma insertion_at_end_agrees_witness :
  let e := start false true [] in
  (forall x, referent (storage (data_ ab)) (Inside 0) = Some x ->
     (@move_ctor string copying x
        (@operator_new string copying (grown (size_ ab)) (world e)).1).2.2
       <> None) /\
  @Emplace string copying (end_ ab) (CopyOf "c") e ab =
    @EmplaceBack string copying (CopyOf "c") e ab /\
  effect (@Insert string copying (end_ ab) "c" e ab) =
    effect (@PushBack string copying "c" e ab) /\
  effect (@Insert_rvalue string copying (end_ ab) (Inside 0) e ab) =
    effect (@PushBack_rvalue string copying (Inside 0) e ab).
Proof.
  intros e.
  assert (forall x, referent (storage (data_ ab)) (Inside 0) = Some x ->
            (@move_ctor string copying x
               (@operator_new string copying (grown (size_ ab))
                  (world e)).1).2.2 <> None) as Hmove
    by (intros x _; vm_compute; discriminate).
  destruct (@insertion_at_end_agrees string copying (CopyOf "c") "c"
              (Inside 0) e ab) as (He & Hi & Hr).
  split; [exact Hmove|].
  split; [exact He|]. split; [exact Hi|].
  apply Hr. right. right. right. exact Hmove.
Defined.

(** C8 as stated fails for the [T&&] overloads: with a move constructor that
    throws on a type that can be copied, [PushBack(T&&)] on the full vector
    ["a"; "b"] catches the exception, copies the value and returns with three
    elements, and [Insert(end(), T&&)] exits with the exception and leaves
    two. *)
Lemma insert_rvalue_at_end_differs :
  let e := start false true [false; true] in
  effect (@Insert_rvalue string copying (end_ ab) (Outside "c") e ab) <>
  effect (@PushBack_rvalue string copying (Outside "c") e ab).
Proof. vm_compute. discriminate. Qed.

(** [Emplace(begin(), x)] for a [const T& x] on ["a"; "b"; "c"], which has
    room for one more *)
Lemma insertion_reports_position_witness :
  let e := start true true [] in
  let o := @Emplace string moving (begin abc) (CopyOf "x") e abc in
  let v' :=
    mkVector (mkRawMemory 19 4 [Some "x"; Some "a"; Some "b"; Some "c"]) 4 in
  o = Ret 19 (final_env o e) v' /\
  Size v' = Size abc + 1 /\ 19 = begin v' + (begin abc - begin abc) /\
  storage (data_ v') !! (begin abc - begin abc) = Some (Some "x").
Proof.
  intros e o v'.
  assert (o = Ret 19 (final_env o e) v') as Hrun by (vm_compute; reflexivity).
  split; [exact Hrun|].
  destruct (@insertion_reports_position string moving (fun a => a)
              (CopyOf "x") "x" (Outside "x") (begin abc) 19 e
              (final_env o e) abc v')
    as (_ & He & _).
  destruct (He Hrun) as (Hs & Hp & Hc).
  split; [exact Hs|]. split; [exact Hp|].
  exact (Hc (sample_value_semantics true true)).
Defined.

End SampleRuns.

(** * More runs on the sample element type *)

Section MoreRuns.
Import Sample.
Open Scope string_scope.
Open Scope list_scope.

Lemma ab_well_formed : well_formed ab.
Proof.
  split; [reflexivity|]. split; [simpl; lia|].
  intros i Hi. simpl in Hi. unfold live.
  destruct i as [|[|i]]; [by eexists..|lia].
Qed.

(** [Reserve(8)] on ["a"; "b"; "c"] in a block of four cells *)
Lemma Reserve_reallocates_witness :
  let e := start true true [] in
  let o := @Reserve string moving 8 e abc in
  let v' :=
    mkVector
      (mkRawMemory 16 8
         [Some "a"; Some "b"; Some "c"; None; None; None; None; None]) 3 in
  well_formed abc /\ Capacity abc < 8 /\ o = Ret tt (final_env o e) v' /\
  Size v' = Size abc /\ Capacity v' = 8 /\ elements v' = elements abc /\
  trace (final_env o e) =
    [EvNew 8; EvMoveCtor; EvMoveCtor; EvMoveCtor; EvDtor; EvDtor; EvDtor;
     EvDelete 19].
Proof.
  intros e o v'.
  assert (o = Ret tt (final_env o e) v') as Hrun by (vm_compute; reflexivity).
  assert (Capacity abc < 8) as Hn by (vm_compute; lia).
  destruct (@Reserve_reallocates string moving (fun a => a) 8 e
              (final_env o e) abc v' abc_well_formed Hn Hrun)
    as (Hs & Hc & _ & Hel & Htr).
  split; [exact abc_well_formed|]. split; [exact Hn|]. split; [exact Hrun|].
  split; [exact Hs|]. split; [exact Hc|].
  split; [exact (Hel (sample_value_semantics true true))|exact Htr].
Defined.

(** [Reserve(8)] on ["a"; "b"; "c"] when the copy of ["b"] throws: the
    block at 16 is given back *)
Lemma Reserve_strong_guarantee_witness :
  let e := start false true [false; false; true] in
  let o := @Reserve string copying 8 e abc in
  well_formed abc /\ o = Throw (final_env o e) abc /\
  abc = abc /\
  ((operator_new 8 (world e)).2 = None \/
   exists p, (operator_new 8 (world e)).2 = Some p /\
             last (trace (final_env o e)) = Some (EvDelete p)).
Proof.
  intros e o.
  assert (o = Throw (final_env o e) abc) as Hrun by (vm_compute; reflexivity).
  split; [exact abc_well_formed|]. split; [exact Hrun|].
  exact (@Reserve_strong_guarantee string copying 8 e (final_env o e)
           abc abc abc_well_formed (sample_nothrow_move_sound false true)
           (or_intror eq_refl) Hrun).
Defined.

Lemma abc_invariant : invariant abc.
Proof.
  split; [exact abc_well_formed|].
  intros i Hi Hlen. simpl in *.
  destruct i as [|[|[|[|i]]]]; [lia..|reflexivity|lia].
Qed.

Lemma abc_first_live nothrow copyable :
  @refers string (element nothrow copyable) (storage (data_ abc))
    (MoveOf (Inside 0)).
Proof. by exists "a". Qed.

(** [PushBack("d")] and [PushBack(std::move(v[0]))] on ["a"; "b"; "c"] *)
Lemma push_back_keeps_invariant_witness :
  let e := start false true [false; true] in
  invariant abc /\
  @refers string copying (storage (data_ abc)) (MoveOf (Inside 0)) /\
  wp (@PushBack string copying "d")
     (fun _ _ v' => invariant v') (fun _ v' => invariant v') False e abc /\
  wp (@PushBack_rvalue string copying (Inside 0))
     (fun _ _ v' => invariant v') (fun _ v' => invariant v') False e abc.
Proof.
  intros e. split; [exact abc_invariant|].
  split; [exact (abc_first_live false true)|].
  destruct (@push_back_keeps_invariant string copying "d" (Inside 0)
              (CopyOf "d") e abc abc_invariant (abc_first_live false true) I)
    as (Hp & Hr & _).
  split; [exact Hp|exact Hr].
Defined.

(** [Emplace] before ["b"] and [Erase] of ["b"] in ["a"; "b"; "c"] *)
Lemma positional_keeps_invariant_witness :
  let e := start true true [] in
  invariant abc /\ 1 <= Size abc /\ 1 < Size abc /\
  wp (@Emplace string moving (begin abc + 1) (CopyOf "x"))
     (fun _ _ v' => invariant v')
     (fun _ v' =>
        Size v' = Size abc /\
        (1 = Size abc -> invariant v') /\
        (1 < Size abc -> Size abc < Capacity abc ->
         well_formed v' /\ raw_from (Size abc + 1) (storage (data_ v'))))
     False e abc /\
  wp (@Erase string moving (begin abc + 1))
     (fun _ _ v' => invariant v')
     (fun _ v' => Size v' = Size abc /\ invariant v') False e abc.
Proof.
  intros e.
  assert (1 <= Size abc) as Hle by (vm_compute; lia).
  assert (1 < Size abc) as Hlt by (vm_compute; lia).
  split; [exact abc_invariant|]. split; [exact Hle|]. split; [exact Hlt|].
  destruct (@positional_keeps_invariant string moving 1 (CopyOf "x") e abc
              abc_invariant I) as (Hem & Her).
  split; [exact (Hem Hle)|exact (Her Hlt)].
Defined.

(** [v.PushBack(std::move(v[0]))] on the full vector ["a"; "b"]: the
    vector holds [""; "b"; "a"] *)
Lemma push_back_appends_witness :
  let e := start true true [] in
  let o := @PushBack_rvalue string moving (Inside 0) e ab in
  let v' :=
    mkVector (mkRawMemory 16 4 [Some ""; Some "b"; Some "a"; None]) 3 in
  well_formed ab /\ o = Ret tt (final_env o e) v' /\
  exists b',
    @after_move string moving (Inside 0) (storage (data_ ab)) b' /\
    elements v' =
      take (Size ab) b' ++ [referent (storage (data_ ab)) (Inside 0)].
Proof.
  intros e o v'.
  assert (o = Ret tt (final_env o e) v') as Hrun by (vm_compute; reflexivity).
  split; [exact ab_well_formed|]. split; [exact Hrun|].
  destruct (@push_back_appends string moving (fun a => a) "c" (Inside 0)
              (CopyOf "c") 0 e (final_env o e) ab v' ab_well_formed
              (sample_value_semantics true true)) as (_ & _ & Hp).
  exact (Hp (or_introl eq_refl) Hrun).
Defined.

(** [v.PushBack(std::move(v[0]))] on ["a"; "b"; "c"], which has room for
    one more *)
Lemma push_back_in_place_witness :
  let e := start true true [] in
  let c := @MoveOf string moving (Inside 0) in
  well_formed abc /\ Size abc < Capacity abc /\
  refers (storage (data_ abc)) c /\
  wp (@PushBack_rvalue string moving (Inside 0))
     (fun _ e' v' =>
        trace e' = trace e ++ [ctor_event c] /\
        exists y b',
          after_ctor c (storage (data_ abc)) b' /\
          v' = mkVector
                 (mkRawMemory (begin abc) (Capacity abc)
                    (<[Size abc := Some y]> b'))
                 (Size abc + 1))
     (fun e' v' =>
        trace e' = trace e ++ [ctor_event c] /\
        exists b',
          after_ctor c (storage (data_ abc)) b' /\
          v' = mkVector (mkRawMemory (begin abc) (Capacity abc) b')
                 (Size abc))
     False e abc.
Proof.
  intros e c.
  assert (Size abc < Capacity abc) as Hroom by (vm_compute; lia).
  split; [exact abc_well_formed|]. split; [exact Hroom|].
  split; [exact (abc_first_live true true)|].
  destruct (@push_back_in_place string moving "d" (Inside 0) c e abc
              abc_well_formed Hroom (abc_first_live true true)
              (abc_first_live true true))
    as (_ & Hp & _).
  exact Hp.
Defined.

(** [PushBack("c")] on the full vector ["a"; "b"]: two moves *)
Lemma push_back_relocation_count_witness :
  let e := start true true [] in
  let o := @PushBack string moving "c" e ab in
  let v' :=
    mkVector (mkRawMemory 16 4 [Some "a"; Some "b"; Some "c"; None]) 3 in
  well_formed ab /\ Size ab = Capacity ab /\
  o = Ret tt (final_env o e) v' /\
  trace (final_env o e) =
    [EvNew 4; EvCopyCtor; EvMoveCtor; EvMoveCtor; EvDtor; EvDtor;
     EvDelete 17].
Proof.
  intros e o v'.
  assert (o = Ret tt (final_env o e) v') as Hrun by (vm_compute; reflexivity).
  assert (Size ab = Capacity ab) as Hfull by reflexivity.
  split; [exact ab_well_formed|]. split; [exact Hfull|]. split; [exact Hrun|].
  destruct (@push_back_relocation_count string moving "c" (Outside "c")
              (CopyOf "c") 0 e (final_env o e) ab v' ab_well_formed Hfull)
    as (Hp & _).
  exact (Hp Hrun).
Defined.

(** [PopBack] on ["a"; "b"; "c"] *)
Lemma PopBack_spec_witness :
  let e := start true true [] in
  well_formed abc /\ 0 < Size abc /\
  exists e' v',
    @PopBack string moving e abc = Ret tt e' v' /\
    trace e' = trace e ++ [EvDtor] /\
    Size v' = Size abc - 1 /\ Capacity v' = Capacity abc /\
    begin v' = begin abc /\ well_formed v' /\
    elements v' = take (Size abc - 1) (elements abc) /\
    storage (data_ v') !! (Size abc - 1) = Some None.
Proof.
  intros e.
  assert (0 < Size abc) as Hs by (vm_compute; lia).
  split; [exact abc_well_formed|]. split; [exact Hs|].
  destruct (@PopBack_spec string moving e abc) as (_ & Hpop).
  exact (Hpop abc_well_formed Hs).
Defined.

(** [Erase(end() - 1)] and [PopBack] on ["a"; "b"; "c"] *)
Lemma Erase_last_is_PopBack_witness :
  let e := start true true [] in
  Size abc <= Capacity abc /\ 0 < Size abc /\
  effect (@Erase string moving (end_ abc - 1) e abc) =
  effect (@PopBack string moving e abc).
Proof.
  intros e.
  assert (Size abc <= Capacity abc) as Hc by (vm_compute; lia).
  assert (0 < Size abc) as Hs by (vm_compute; lia).
  split; [exact Hc|]. split; [exact Hs|].
  exact (@Erase_last_is_PopBack string moving e abc Hc Hs).
Defined.

(** [PushBack("c")] and then [PopBack] on the full vector ["a"; "b"] *)
Lemma PushBack_PopBack_round_trip_witness :
  let e := start true true [] in
  let o := @PushBack string moving "c" e ab in
  let v1 :=
    mkVector (mkRawMemory 16 4 [Some "a"; Some "b"; Some "c"; None]) 3 in
  well_formed ab /\ o = Ret tt (final_env o e) v1 /\
  exists e2 v2,
    @PopBack string moving (final_env o e) v1 = Ret tt e2 v2 /\
    elements v2 = elements ab /\ Size v2 = Size ab /\
    Capacity v2 = Capacity v1.
Proof.
  intros e o v1.
  assert (o = Ret tt (final_env o e) v1) as Hrun by (vm_compute; reflexivity).
  split; [exact ab_well_formed|]. split; [exact Hrun|].
  exact (@PushBack_PopBack_round_trip string moving (fun a => a) "c" e
           (final_env o e) ab v1 ab_well_formed
           (sample_value_semantics true true) Hrun).
Defined.

(** [Resize(1)] on ["a"; "b"; "c"] *)
Lemma Resize_shrinks_witness :
  let e := start true true [] in
  well_formed abc /\ 1 <= Size abc /\
  exists e' v',
    @Resize string moving 1 e abc = Ret tt e' v' /\
    trace e' = trace e ++ replicate (Size abc - 1) EvDtor /\
    Size v' = 1 /\ Capacity v' = Capacity abc /\ begin v' = begin abc /\
    well_formed v' /\ elements v' = take 1 (elements abc).
Proof.
  intros e.
  assert (1 <= Size abc) as Hn by (vm_compute; lia).
  split; [exact abc_well_formed|]. split; [exact Hn|].
  exact (@Resize_shrinks string moving 1 e abc abc_well_formed Hn).
Defined.

(** [Resize(6)] on ["a"; "b"; "c"] in a block of four cells *)
Lemma Resize_grows_witness :
  let e := start true true [] in
  let o := @Resize string moving 6 e abc in
  let v' :=
    mkVector
      (mkRawMemory 16 6
         [Some "a"; Some "b"; Some "c"; Some ""; Some ""; Some ""]) 6 in
  well_formed abc /\ Size abc < 6 /\ o = Ret tt (final_env o e) v' /\
  Size v' = 6 /\ Capacity v' = Nat.max (Capacity abc) 6 /\
  take (Size abc) (elements v') = elements abc /\
  trace (final_env o e) =
    [EvNew 6; EvMoveCtor; EvMoveCtor; EvMoveCtor; EvDtor; EvDtor; EvDtor;
     EvDelete 19; EvDefaultCtor; EvDefaultCtor; EvDefaultCtor].
Proof.
  intros e o v'.
  assert (o = Ret tt (final_env o e) v') as Hrun by (vm_compute; reflexivity).
  assert (Size abc < 6) as Hn by (vm_compute; lia).
  split; [exact abc_well_formed|]. split; [exact Hn|]. split; [exact Hrun|].
  destruct (@Resize_grows string moving (fun a => a) 6 e (final_env o e)
              abc v' abc_well_formed Hn) as (Hret & _).
  destruct (Hret Hrun) as (Hs & Hc & Hel & Htr).
  split; [exact Hs|]. split; [exact Hc|].
  split; [exact (Hel (sample_value_semantics true true))|exact Htr].
Defined.

(** [Vector(3)] *)
Lemma Vector_sized_constructs_witness :
  let e := start true true [] in
  let o := @Vector_sized string moving unit 3 e tt in
  let v' := mkVector (mkRawMemory 16 3 [Some ""; Some ""; Some ""]) 3 in
  o = Ret v' (final_env o e) tt /\
  Size v' = 3 /\ Capacity v' = 3 /\ well_formed v' /\
  trace (final_env o e) =
    [EvNew 3; EvDefaultCtor; EvDefaultCtor; EvDefaultCtor].
Proof.
  intros e o v'.
  assert (o = Ret v' (final_env o e) tt) as Hrun by (vm_compute; reflexivity).
  split; [exact Hrun|].
  destruct (@Vector_sized_constructs string moving unit 3 e (final_env o e)
              tt tt v') as (Hret & _).
  destruct (Hret Hrun) as (_ & Hs & Hc & Hwf & _ & Htr).
  split; [exact Hs|]. split; [exact Hc|]. split; [exact Hwf|exact Htr].
Defined.

(** the copy of ["a"; "b"; "c"] *)
Lemma Vector_copy_constructs_witness :
  let e := start true true [] in
  well_formed abc /\
  wp (@Vector_copy string moving unit abc)
     (fun v' e' x' =>
        x' = tt /\ Size v' = Size abc /\ Capacity v' = Size abc /\
        well_formed v' /\
        (@ValueSemantics string moving (fun a => a) ->
         elements v' = elements abc) /\
        trace e' =
          trace e ++ (if (Size abc =? 0)%nat then [] else [EvNew (Size abc)])
          ++ replicate (Size abc) EvCopyCtor)
     (fun e' x' =>
        x' = tt /\
        ((operator_new (Size abc) (world e)).2 = None /\
         trace e' = trace e ++ [EvNew (Size abc)] \/
         exists p j,
           (operator_new (Size abc) (world e)).2 = Some p /\
           j < Size abc /\
           trace e' =
             trace e ++ [EvNew (Size abc)] ++
             replicate (S j) EvCopyCtor ++ replicate j EvDtor ++
             [EvDelete p]))
     False e tt.
Proof.
  intros e. split; [exact abc_well_formed|].
  exact (@Vector_copy_constructs string moving (fun a => a) unit abc e tt
           abc_well_formed).
Defined.

(** [["a"; "b"] = ["a"; "b"; "c"]]: the source does not fit *)
Lemma copy_assignment_replaces_witness :
  let e := start true true [] in
  well_formed ab /\ well_formed abc /\
  (Capacity ab < Size abc \/ Size abc <= Size ab) /\
  wp (@copy_assign_from string moving abc)
     (fun _ _ v' =>
        Size v' = Size abc /\
        Capacity v' =
          (if (Capacity ab <? Size abc)%nat then Size abc else Capacity ab) /\
        well_formed v' /\
        (@ValueSemantics string moving (fun a => a) ->
         elements v' = elements abc))
     (fun _ v' =>
        well_formed v' /\ Size v' = Size ab /\
        (Capacity ab < Size abc -> v' = ab))
     False e ab.
Proof.
  intros e.
  assert (Capacity ab < Size abc \/ Size abc <= Size ab) as Hcase
    by (left; vm_compute; lia).
  split; [exact ab_well_formed|]. split; [exact abc_well_formed|].
  split; [exact Hcase|].
  exact (@copy_assignment_replaces string moving (fun a => a) abc e ab
           ab_well_formed abc_well_formed Hcase).
Defined.

(** [["a"; "b"; "c"] = ["a"; "b"]]: two assignments, one destructor call *)
Lemma copy_assignment_counts_witness :
  let e := start true true [] in
  let o := @copy_assign_from string moving ab e abc in
  let v' :=
    mkVector (mkRawMemory 19 4 [Some "a"; Some "b"; None; None]) 2 in
  well_formed abc /\ well_formed ab /\ o = Ret tt (final_env o e) v' /\
  Size ab <= Size abc /\
  trace (final_env o e) = [EvCopyAssign; EvCopyAssign; EvDtor].
Proof.
  intros e o v'.
  assert (o = Ret tt (final_env o e) v') as Hrun by (vm_compute; reflexivity).
  assert (Size ab <= Size abc) as Hle by (vm_compute; lia).
  split; [exact abc_well_formed|]. split; [exact ab_well_formed|].
  split; [exact Hrun|]. split; [exact Hle|].
  destruct (@copy_assignment_counts string moving ab e (final_env o e) abc v'
              abc_well_formed ab_well_formed Hrun) as (_ & Hshrink).
  exact (Hshrink Hle).
Defined.

(** [Swap] of the vectors at 0 and 1 *)
Lemma Swap_exchanges_witness :
  let e := start true true [] in
  let st : Objects string := <[1 := ab]> (<[0 := abc]> ∅) in
  st !! 0 = Some abc /\ st !! 1 = Some ab /\ 0 <> 1 /\
  @Swap_objects string moving 0 1 e st =
    Ret tt e (<[1 := abc]> (<[0 := ab]> st)) /\
  (@Swap_objects string moving 0 1 >> @Swap_objects string moving 0 1) e st =
    Ret tt e st.
Proof.
  intros e st.
  assert (st !! 0 = Some abc) as H0 by (vm_compute; reflexivity).
  assert (st !! 1 = Some ab) as H1 by (vm_compute; reflexivity).
  split; [exact H0|]. split; [exact H1|]. split; [discriminate|].
  destruct (@Swap_exchanges string moving 0 1 abc ab e st H0 H1) as (Hsw & _).
  exact (Hsw ltac:(discriminate)).
Defined.

(** the destructor of ["a"; "b"; "c"] *)
Lemma Vector_dtor_destroys_witness :
  let e := start true true [] in
  well_formed abc /\
  exists e',
    @Vector_dtor string moving abc e = Some e' /\
    trace e' = trace e ++ replicate (Size abc) EvDtor ++ [EvDelete (begin abc)].
Proof.
  intros e. split; [exact abc_well_formed|].
  exact (@Vector_dtor_destroys string moving abc e abc_well_formed).
Defined.

(** [v.Insert(v.begin(), std::move(v[2]))] on ["a"; "b"; "c"]: the vector
    holds ["c"; "a"; "b"; ""] *)
Lemma Emplace_inserts_witness :
  let e := start true true [] in
  let c := @MoveOf string moving (Inside 2) in
  let o := @Emplace string moving (begin abc + 0) c e abc in
  let v' :=
    mkVector (mkRawMemory 19 4 [Some "c"; Some "a"; Some "b"; Some ""]) 4 in
  well_formed abc /\ 0 <= Size abc /\ o = Ret 19 (final_env o e) v' /\
  Size v' = Size abc + 1 /\
  exists b',
    after_ctor c (storage (data_ abc)) b' /\
    elements v' =
      take 0 (take (Size abc) b') ++
      @ctor_value string moving (fun a => a) (storage (data_ abc)) c ::
      drop 0 (take (Size abc) b').
Proof.
  intros e c o v'.
  assert (o = Ret 19 (final_env o e) v') as Hrun by (vm_compute; reflexivity).
  assert (0 <= Size abc) as Hi by (vm_compute; lia).
  split; [exact abc_well_formed|]. split; [exact Hi|]. split; [exact Hrun|].
  exact (@Emplace_inserts string moving (fun a => a) 0 c 19 e
           (final_env o e) abc v' abc_well_formed
           (sample_value_semantics true true) Hi Hrun).
Defined.

(** [Emplace(begin() + 1, "x")] on ["a"; "b"; "c"]: two moves of old
    elements, one of the new *)
Lemma Emplace_in_place_count_witness :
  let e := start true true [] in
  let o := @Emplace string moving (begin abc + 1) (CopyOf "x") e abc in
  let v' :=
    mkVector (mkRawMemory 19 4 [Some "a"; Some "x"; Some "b"; Some "c"]) 4 in
  well_formed abc /\ 1 < Size abc /\ Size abc < Capacity abc /\
  o = Ret 20 (final_env o e) v' /\
  begin v' = begin abc /\ Capacity v' = Capacity abc /\
  trace (final_env o e) =
    [EvCopyCtor; EvMoveCtor; EvMoveAssign; EvMoveAssign; EvDtor].
Proof.
  intros e o v'.
  assert (o = Ret 20 (final_env o e) v') as Hrun by (vm_compute; reflexivity).
  assert (1 < Size abc) as Hi by (vm_compute; lia).
  assert (Size abc < Capacity abc) as Hroom by (vm_compute; lia).
  split; [exact abc_well_formed|]. split; [exact Hi|]. split; [exact Hroom|].
  split; [exact Hrun|].
  exact (@Emplace_in_place_count string moving 1 (CopyOf "x") 20 e
           (final_env o e) abc v' abc_well_formed Hi Hroom Hrun).
Defined.

(** [Emplace(begin() + 1, "x")] on the full vector ["a"; "b"] *)
Lemma Emplace_relocation_count_witness :
  let e := start true true [] in
  let o := @Emplace string moving (begin ab + 1) (CopyOf "x") e ab in
  let v' :=
    mkVector (mkRawMemory 16 4 [Some "a"; Some "x"; Some "b"; None]) 3 in
  well_formed ab /\ 1 < Size ab /\ Size ab = Capacity ab /\
  o = Ret 17 (final_env o e) v' /\
  Capacity v' = 4 /\
  (operator_new 4 (world e)).2 = Some (begin v') /\
  trace (final_env o e) =
    [EvNew 4; EvCopyCtor; EvMoveCtor; EvDtor; EvMoveCtor; EvDtor;
     EvDelete 17].
Proof.
  intros e o v'.
  assert (o = Ret 17 (final_env o e) v') as Hrun by (vm_compute; reflexivity).
  assert (1 < Size ab) as Hi by (vm_compute; lia).
  assert (Size ab = Capacity ab) as Hfull by reflexivity.
  split; [exact ab_well_formed|]. split; [exact Hi|]. split; [exact Hfull|].
  split; [exact Hrun|].
  exact (@Emplace_relocation_count string moving 1 (CopyOf "x") 17 e
           (final_env o e) ab v' ab_well_formed Hi Hfull Hrun).
Defined.

(** [v.Insert(v.begin(), std::move(v[2]))] on ["a"; "b"; "c"], then
    [Erase] of the iterator it returned: the vector holds ["a"; "b"; ""] *)
Lemma Emplace_Erase_round_trip_witness :
  let e := start true true [] in
  let c := @MoveOf string moving (Inside 2) in
  let o := @Emplace string moving (begin abc + 0) c e abc in
  let v1 :=
    mkVector (mkRawMemory 19 4 [Some "c"; Some "a"; Some "b"; Some ""]) 4 in
  let o2 := @Erase string moving 19 (final_env o e) v1 in
  let v2 :=
    mkVector (mkRawMemory 19 4 [Some "a"; Some "b"; Some ""; None]) 3 in
  well_formed abc /\ 0 <= Size abc /\ o = Ret 19 (final_env o e) v1 /\
  o2 = Ret 19 (final_env o2 e) v2 /\
  (exists b',
     after_ctor c (storage (data_ abc)) b' /\
     elements v2 = take (Size abc) b') /\
  Size v2 = Size abc /\ 19 = 19.
Proof.
  intros e c o v1 o2 v2.
  assert (o = Ret 19 (final_env o e) v1) as Hrun by (vm_compute; reflexivity).
  assert (o2 = Ret 19 (final_env o2 e) v2) as Hrun2
    by (vm_compute; reflexivity).
  assert (0 <= Size abc) as Hi by (vm_compute; lia).
  split; [exact abc_well_formed|]. split; [exact Hi|]. split; [exact Hrun|].
  split; [exact Hrun2|].
  destruct (@Emplace_Erase_round_trip string moving (fun a => a) 0
              c 19 19 e (final_env o e) (final_env o2 e)
              abc v1 v2 abc_well_formed
              (sample_value_semantics true true) Hi Hrun) as (_ & Hback).
  exact (Hback Hrun2).
Defined.

(** move assignment from the vector at 1 to the vector at 0 *)
Lemma move_assignment_destroys_nothing_witness :
  let e := start true true [] in
  let st : Objects string := <[1 := ab]> (<[0 := abc]> ∅) in
  0 <> 1 /\ st !! 1 = Some ab /\ st !! 0 = Some abc /\
  exists e' st',
    @move_assignment string moving 0 1 e st = Ret tt e' st' /\
    trace e' = trace e ++ [EvDelete (begin abc)].
Proof.
  intros e st.
  assert (st !! 1 = Some ab) as Hrhs by (vm_compute; reflexivity).
  assert (st !! 0 = Some abc) as Hthis by (vm_compute; reflexivity).
  split; [discriminate|]. split; [exact Hrhs|]. split; [exact Hthis|].
  destruct (@move_assignment_destroys_nothing string moving 0 1 ab abc e st
              ltac:(discriminate) Hrhs) as (Hassign & _).
  exact (Hassign Hthis).
Defined.

(** where [Emplace] does not keep the vector well formed: before ["b"] in the
    full vector ["a"; "b"], the copy of ["b"] into the new block throws after
    ["a"] was copied and destroyed; the size is still 2 and the first cell
    holds no object *)
Lemma Emplace_throw_after_relocation :
  let e := start false true [false; false; false; true] in
  @Emplace string copying (begin ab + 1) (CopyOf "x") e ab =
  Throw
    (@mkEnv string copying (mkHost [] 20)
       [EvNew 4; EvCopyCtor; EvCopyCtor; EvDtor; EvCopyCtor; EvDtor; EvDtor;
        EvDelete 16])
    (mkVector (mkRawMemory 17 2 [None; Some "b"]) 2).
Proof. vm_compute. reflexivity. Qed.

End MoreRuns.
